(** * Reference-integrity engine of the DAO AI Builder front end

    A shallow embedding of [frontend/src/utils/dependency-check.ts] (the
    Reference Codec, Graph Walker and Dependency Finder) and of
    [frontend/src/utils/safe-delete.ts] (the Deletion Validator and the
    deletion orchestration), with the properties the specification states
    about them.

    Modelling conventions.
    - A configuration document is a JSON tree ([value]).  An object is the
      list of its own enumerable properties in enumeration order (the order
      [Object.entries] and [JSON.stringify] follow); JavaScript's [undefined]
      is [None] in [option value].
    - Numbers are the integers; strings are sequences of 8-bit characters.
    - A read by a fixed name sees own properties: none of the names the
      sources read is one a prototype provides.  A read by a key computed
      at run time also sees what the prototype provides ([qindex]).
    - Code that can raise returns an [outcome]. *)

From Stdlib Require Import ZArith List String Ascii Bool Lia.
From Stdlib Require Import DecimalString DecimalFacts DecimalPos DecimalN DecimalZ.
From stdpp Require Import base option list strings gmap.

Local Open Scope string_scope.
#[local] Arguments String.append !_ _ / : simpl nomatch.

(** ** JSON trees *)

#[local] Unset Elimination Schemes.
Inductive value : Type :=
| JNull
| JBool (b : bool)
| JNum (n : Z)
| JStr (s : string)
| JArr (items : list value)
| JObj (fields : list (string * value)).
#[local] Set Elimination Schemes.

(** Induction principle that reaches below arrays and objects. *)
Section value_induction.
Variable P : value -> Prop.
Hypothesis Hnull : P JNull.
Hypothesis Hbool : forall b, P (JBool b).
Hypothesis Hnum : forall n, P (JNum n).
Hypothesis Hstr : forall s, P (JStr s).
Hypothesis Harr : forall items, Forall P items -> P (JArr items).
Hypothesis Hobj : forall fields, Forall (fun kv => P (snd kv)) fields -> P (JObj fields).

Fixpoint value_ind' (v : value) : P v :=
  match v with
  | JNull => Hnull
  | JBool b => Hbool b
  | JNum n => Hnum n
  | JStr s => Hstr s
  | JArr items =>
      Harr items
        ((fix go (l : list value) : Forall P l :=
            match l with
            | [] => @List.Forall_nil _ P
            | x :: l' => @List.Forall_cons _ P x l' (value_ind' x) (go l')
            end) items)
  | JObj fields =>
      Hobj fields
        ((fix go (l : list (string * value)) : Forall (fun kv => P (snd kv)) l :=
            match l with
            | [] => @List.Forall_nil _ _
            | kv :: l' => @List.Forall_cons _ _ kv l' (value_ind' (snd kv)) (go l')
            end) fields)
  end.
End value_induction.

(** ** Outcomes of code that may throw *)

(** A thrown value is either an [Error] instance carrying its [message], or
    some other value (for which [instanceof Error] is false). *)
Inductive exn : Type :=
| JsError (message : string)
| NonError.

Inductive outcome (A : Type) : Type :=
| Returns (a : A)
| Throws (e : exn).
Arguments Returns {A} a.
Arguments Throws {A} e.

#[global] Instance outcome_ret : MRet outcome := fun A a => Returns a.
#[global] Instance outcome_bind : MBind outcome := fun A B f m =>
  match m with
  | Returns a => f a
  | Throws e => Throws e
  end.

(** [try { body } catch (error) { handler }] *)
Definition try_catch {A} (body : outcome A) (handler : exn -> outcome A) : outcome A :=
  match body with
  | Returns a => Returns a
  | Throws e => handler e
  end.

(** The [TypeError] raised by a property read on [null] or [undefined]. *)
Definition TypeError : exn := JsError "TypeError".

(** ** Characters and decimal indices *)

Definition dquote : ascii := ascii_of_nat 34.
Definition bslash : ascii := ascii_of_nat 92.

Definition nat_to_string (n : nat) : string := NilZero.string_of_uint (Nat.to_uint n).

(** An array index as JavaScript understands a property key: the canonical
    decimal spelling of a natural number. *)
Definition index_of_key (k : string) : option nat :=
  match NilZero.uint_of_string k with
  | Some u =>
      let n := Nat.of_uint u in
      if String.eqb (nat_to_string n) k then Some n else None
  | None => None
  end.

Fixpoint string_nth (n : nat) (s : string) : option ascii :=
  match s, n with
  | EmptyString, _ => None
  | String c _, O => Some c
  | String _ r, S n' => string_nth n' r
  end.

(** ** JavaScript primitives used by the sources *)

(** [typeof v === 'string'] *)
Definition is_string (v : option value) : bool :=
  match v with Some (JStr _) => true | _ => false end.

(** [typeof v === 'object'] ([null] included, as in JavaScript). *)
Definition typeof_object (v : option value) : bool :=
  match v with
  | Some JNull | Some (JArr _) | Some (JObj _) => true
  | _ => false
  end.

(** [Array.isArray(v)] *)
Definition isArray (v : option value) : bool :=
  match v with Some (JArr _) => true | _ => false end.

(** Truthiness, as tested by [if (v)], [!v] and [v && ...]. *)
Definition truthy (v : option value) : bool :=
  match v with
  | None | Some JNull => false
  | Some (JBool b) => b
  | Some (JNum n) => negb (n =? 0)%Z
  | Some (JStr s) => negb (String.eqb s "")
  | Some (JArr _) | Some (JObj _) => true
  end.

(** First binding of a key in a property list. *)
Fixpoint assoc {A : Type} (k : string) (fields : list (string * A)) : option A :=
  match fields with
  | [] => None
  | (k', v) :: rest => if String.eqb k k' then Some v else assoc k rest
  end.

(** Own property [v[k]] of a value other than [null]. *)
Definition prop (v : value) (k : string) : option value :=
  match v with
  | JObj fields => assoc k fields
  | JArr items =>
      if String.eqb k "length" then Some (JNum (Z.of_nat (length items)))
      else match index_of_key k with
           | Some i => items !! i
           | None => None
           end
  | JStr s =>
      if String.eqb k "length" then Some (JNum (Z.of_nat (String.length s)))
      else match index_of_key k with
           | Some i => (fun c => JStr (String c EmptyString)) <$> string_nth i s
           | None => None
           end
  | JNull | JBool _ | JNum _ => None
  end.

(** [o.k]: raises on [null] and [undefined]. *)
Definition dot (o : option value) (k : string) : outcome (option value) :=
  match o with
  | None | Some JNull => Throws TypeError
  | Some v => Returns (prop v k)
  end.

(** [o?.k] and [o?.[k]]: [undefined] on [null] and [undefined]. *)
Definition qdot (o : option value) (k : string) : option value :=
  match o with
  | None | Some JNull => None
  | Some v => prop v k
  end.

(** ** Inherited properties

    Where a value has no own property of the name read, the read goes on to
    the value's prototype.  The prototypes of the values a document holds
    provide one accessor, [__proto__], which yields the prototype itself,
    and built-in functions. *)
Inductive prototype : Type :=
| Object_prototype
| Array_prototype
| String_prototype
| Number_prototype
| Boolean_prototype.

(** The prototype a property read on a value other than [null] goes on to. *)
Definition getPrototypeOf (v : value) : option prototype :=
  match v with
  | JObj _ => Some Object_prototype
  | JArr _ => Some Array_prototype
  | JStr _ => Some String_prototype
  | JNum _ => Some Number_prototype
  | JBool _ => Some Boolean_prototype
  | JNull => None
  end.

(** What a read by a computed key finds: a value of the document, or a
    prototype. *)
Inductive member : Type :=
| Own (v : value)
| Inherited (p : prototype).

(** [o?.[k]] for a key computed at run time: the own property if there is
    one, the prototype for the key [__proto__].  Which other names a
    prototype provides depends on the engine; each of them is a function,
    and the only code that reads by a computed key, [objectMatchesKey],
    returns [false] for a function as it does for [undefined] (the text
    [JSON.stringify] gives for a function is [undefined], equal to no
    string).  Those names are read as [undefined] here. *)
Definition qindex (o : option value) (k : string) : option member :=
  match o with
  | None | Some JNull => None
  | Some v =>
      match prop v k with
      | Some x => Some (Own x)
      | None => if String.eqb k "__proto__" then Inherited <$> getPrototypeOf v else None
      end
  end.

(** Truthiness of what such a read found; a prototype is an object. *)
Definition member_truthy (m : member) : bool :=
  match m with
  | Own v => truthy (Some v)
  | Inherited _ => true
  end.

Fixpoint indexed {A} (i : nat) (l : list A) : list (string * A) :=
  match l with
  | [] => []
  | x :: l' => (nat_to_string i, x) :: indexed (S i) l'
  end.

Fixpoint string_chars (s : string) : list value :=
  match s with
  | EmptyString => []
  | String c r => JStr (String c EmptyString) :: string_chars r
  end.

(** [Object.entries(v)] for a value other than [null]. *)
Definition entries (v : value) : list (string * value) :=
  match v with
  | JObj fields => fields
  | JArr items => indexed 0 items
  | JStr s => indexed 0 (string_chars s)
  | JNull | JBool _ | JNum _ => []
  end.

(** [Object.entries(o)]: raises on [null] and [undefined]. *)
Definition Object_entries (o : option value) : outcome (list (string * value)) :=
  match o with
  | None | Some JNull => Throws TypeError
  | Some v => Returns (entries v)
  end.

(** ** [JSON.stringify] *)

Definition hex_digit (n : nat) : ascii :=
  match n with
  | 0 => "0" | 1 => "1" | 2 => "2" | 3 => "3" | 4 => "4"
  | 5 => "5" | 6 => "6" | 7 => "7" | 8 => "8" | 9 => "9"
  | 10 => "a" | 11 => "b" | 12 => "c" | 13 => "d" | 14 => "e"
  | _ => "f"
  end%char.

(** The escape sequence [JSON.stringify] writes for one character of a
    string: short escapes where JSON has them, [\u00xx] for the other
    control characters, the character itself otherwise. *)
Definition escape_char (c : ascii) : string :=
  let n := nat_of_ascii c in
  if Nat.eqb n 34 then String bslash (String dquote "")
  else if Nat.eqb n 92 then String bslash (String bslash "")
  else if Nat.eqb n 8 then String bslash "b"
  else if Nat.eqb n 12 then String bslash "f"
  else if Nat.eqb n 10 then String bslash "n"
  else if Nat.eqb n 13 then String bslash "r"
  else if Nat.eqb n 9 then String bslash "t"
  else if Nat.ltb n 32 then
    String bslash
      (String "u" (String "0" (String "0"
         (String (hex_digit (n / 16)) (String (hex_digit (n mod 16)) "")))))
  else String c "".

Fixpoint escape (s : string) : string :=
  match s with
  | EmptyString => ""
  | String c r => escape_char c +:+ escape r
  end.

Definition quote (s : string) : string :=
  String dquote (escape s +:+ String dquote "").

Definition number_to_string (n : Z) : string :=
  NilZero.string_of_int (Z.to_int n).

(** What follows the first element of a non-empty array, and the first
    member of a non-empty object. *)
Definition elements_tail (f : value -> string) : list value -> string :=
  fix more (l : list value) : string :=
    match l with
    | [] => "]"
    | y :: l' => "," +:+ f y +:+ more l'
    end.

Definition members_tail (f : value -> string) : list (string * value) -> string :=
  fix more (l : list (string * value)) : string :=
    match l with
    | [] => "}"
    | (k, y) :: l' => "," +:+ quote k +:+ ":" +:+ f y +:+ more l'
    end.

Fixpoint stringify (v : value) : string :=
  match v with
  | JNull => "null"
  | JBool true => "true"
  | JBool false => "false"
  | JNum n => number_to_string n
  | JStr s => quote s
  | JArr [] => "[]"
  | JArr (x :: rest) => "[" +:+ stringify x +:+ elements_tail stringify rest
  | JObj [] => "{}"
  | JObj ((k, x) :: rest) =>
      "{" +:+ quote k +:+ ":" +:+ stringify x +:+ members_tail stringify rest
  end.

(** [JSON.stringify(v)].  It raises only on cyclic structures and on
    values that are not JSON, neither of which a [value] can be. *)
Definition JSON_stringify (v : value) : outcome string := Returns (stringify v).

(** [JSON.stringify] of a prototype.  [Object.prototype] has no enumerable
    property and [Array.prototype] is an array without elements; the
    prototypes of strings, numbers and booleans are wrappers of the empty
    string, of zero and of [false], and are written as what they wrap. *)
Definition stringify_prototype (p : prototype) : string :=
  match p with
  | Object_prototype => "{}"
  | Array_prototype => "[]"
  | String_prototype => quote ""
  | Number_prototype => "0"
  | Boolean_prototype => "false"
  end.

Definition stringify_member (m : member) : outcome string :=
  match m with
  | Own v => JSON_stringify v
  | Inherited p => Returns (stringify_prototype p)
  end.

(** ** [JSON.parse]

    The parser covers the texts [JSON.stringify] produces, which are the
    only ones the sources hand to it: no insignificant white space and
    integer number literals. *)

Definition SyntaxError : exn := JsError "SyntaxError".

Definition digit_cons (c : ascii) : option (Decimal.uint -> Decimal.uint) :=
  match c with
  | "0" => Some Decimal.D0 | "1" => Some Decimal.D1 | "2" => Some Decimal.D2
  | "3" => Some Decimal.D3 | "4" => Some Decimal.D4 | "5" => Some Decimal.D5
  | "6" => Some Decimal.D6 | "7" => Some Decimal.D7 | "8" => Some Decimal.D8
  | "9" => Some Decimal.D9
  | _ => None
  end%char.

Definition is_digit (c : ascii) : bool :=
  match digit_cons c with Some _ => true | None => false end.

(** The longest run of decimal digits at the head of a text. *)
Fixpoint read_digits (s : string) : Decimal.uint * string :=
  match s with
  | EmptyString => (Decimal.Nil, "")
  | String c r =>
      match digit_cons c with
      | Some d => let '(u, rest) := read_digits r in (d u, rest)
      | None => (Decimal.Nil, s)
      end
  end.

(** JSON's integer part: a single [0], or digits that do not start with [0]. *)
Definition int_literal (u : Decimal.uint) : bool :=
  match u with
  | Decimal.Nil => false
  | Decimal.D0 Decimal.Nil => true
  | Decimal.D0 _ => false
  | _ => true
  end.

Definition parse_number (s : string) : option (value * string) :=
  match s with
  | String "-" r =>
      let '(u, rest) := read_digits r in
      if int_literal u then Some (JNum (Z.of_int (Decimal.Neg u)), rest) else None
  | _ =>
      let '(u, rest) := read_digits s in
      if int_literal u then Some (JNum (Z.of_int (Decimal.Pos u)), rest) else None
  end.

Definition hex_value (c : ascii) : option nat :=
  let n := nat_of_ascii c in
  if ((48 <=? n) && (n <=? 57))%nat then Some (n - 48)%nat
  else if ((97 <=? n) && (n <=? 102))%nat then Some (n - 87)%nat
  else if ((65 <=? n) && (n <=? 70))%nat then Some (n - 55)%nat
  else None.

(** [\uXXXX]: the code unit, when it is one of the 256 modelled characters. *)
Definition unicode_escape (h1 h2 h3 h4 : ascii) : option ascii :=
  match hex_value h1, hex_value h2, hex_value h3, hex_value h4 with
  | Some 0, Some 0, Some a, Some b => Some (ascii_of_nat (16 * a + b))
  | _, _, _, _ => None
  end.

(** The characters of a string literal, read after its opening quote up to
    and including the closing quote. *)
Fixpoint parse_chars (s : string) : option (string * string) :=
  match s with
  | EmptyString => None
  | String c r =>
      if Ascii.eqb c dquote then Some ("", r)
      else if Ascii.eqb c bslash then
        match r with
        | String e r' =>
            let simple (x : ascii) :=
              match parse_chars r' with
              | Some (str, rest) => Some (String x str, rest)
              | None => None
              end in
            if Ascii.eqb e dquote then simple dquote
            else if Ascii.eqb e bslash then simple bslash
            else if Ascii.eqb e "/" then simple "/"%char
            else if Ascii.eqb e "b" then simple (ascii_of_nat 8)
            else if Ascii.eqb e "f" then simple (ascii_of_nat 12)
            else if Ascii.eqb e "n" then simple (ascii_of_nat 10)
            else if Ascii.eqb e "r" then simple (ascii_of_nat 13)
            else if Ascii.eqb e "t" then simple (ascii_of_nat 9)
            else if Ascii.eqb e "u" then
              match r' with
              | String h1 (String h2 (String h3 (String h4 r''))) =>
                  match unicode_escape h1 h2 h3 h4, parse_chars r'' with
                  | Some x, Some (str, rest) => Some (String x str, rest)
                  | _, _ => None
                  end
              | _ => None
              end
            else None
        | EmptyString => None
        end
      else if Nat.ltb (nat_of_ascii c) 32 then None
      else
        match parse_chars r with
        | Some (str, rest) => Some (String c str, rest)
        | None => None
        end
  end.

Fixpoint parse_value (fuel : nat) (s : string) {struct fuel} : option (value * string) :=
  match fuel with
  | O => None
  | S fuel' =>
      match s with
      | EmptyString => None
      | String c r =>
          if Ascii.eqb c "n" then
            match r with
            | String "u" (String "l" (String "l" rest)) => Some (JNull, rest)
            | _ => None
            end
          else if Ascii.eqb c "t" then
            match r with
            | String "r" (String "u" (String "e" rest)) => Some (JBool true, rest)
            | _ => None
            end
          else if Ascii.eqb c "f" then
            match r with
            | String "a" (String "l" (String "s" (String "e" rest))) => Some (JBool false, rest)
            | _ => None
            end
          else if Ascii.eqb c dquote then
            match parse_chars r with
            | Some (str, rest) => Some (JStr str, rest)
            | None => None
            end
          else if Ascii.eqb c "[" then
            match r with
            | String c' rest =>
                if Ascii.eqb c' "]" then Some (JArr [], rest)
                else
                  match parse_elements fuel' r with
                  | Some (items, rest') => Some (JArr items, rest')
                  | None => None
                  end
            | EmptyString => None
            end
          else if Ascii.eqb c "{" then
            match r with
            | String c' rest =>
                if Ascii.eqb c' "}" then Some (JObj [], rest)
                else
                  match parse_members fuel' r with
                  | Some (fields, rest') => Some (JObj fields, rest')
                  | None => None
                  end
            | EmptyString => None
            end
          else parse_number s
      end
  end
with parse_elements (fuel : nat) (s : string) {struct fuel} : option (list value * string) :=
  match fuel with
  | O => None
  | S fuel' =>
      match parse_value fuel' s with
      | Some (x, String "," r) =>
          match parse_elements fuel' r with
          | Some (items, rest) => Some (x :: items, rest)
          | None => None
          end
      | Some (x, String "]" rest) => Some ([x], rest)
      | _ => None
      end
  end
with parse_members (fuel : nat) (s : string) {struct fuel} : option (list (string * value) * string) :=
  match fuel with
  | O => None
  | S fuel' =>
      match s with
      | String c r =>
          if Ascii.eqb c dquote then
            match parse_chars r with
            | Some (k, String ":" r') =>
                match parse_value fuel' r' with
                | Some (x, String "," r'') =>
                    match parse_members fuel' r'' with
                    | Some (fields, rest) => Some ((k, x) :: fields, rest)
                    | None => None
                    end
                | Some (x, String "}" rest) => Some ([(k, x)], rest)
                | _ => None
                end
            | _ => None
            end
          else None
      | EmptyString => None
      end
  end.

(** [JSON.parse(s)]: the whole text must be one value. *)
Definition JSON_parse (s : string) : outcome value :=
  match parse_value (S (String.length s)) s with
  | Some (v, EmptyString) => Returns v
  | _ => Throws SyntaxError
  end.


(** Measures used to state the round trip: a text that may follow a value
    (it does not begin with a digit), and the fuel a value needs. *)
Definition delimited (s : string) : bool :=
  match s with
  | EmptyString => true
  | String c _ => negb (is_digit c)
  end.

Definition weight_elements (f : value -> nat) : list value -> nat :=
  fix go (l : list value) : nat :=
    match l with
    | [] => O
    | x :: l' => S (f x + go l')
    end.

Definition weight_members (f : value -> nat) : list (string * value) -> nat :=
  fix go (l : list (string * value)) : nat :=
    match l with
    | [] => O
    | (_, x) :: l' => S (f x + go l')
    end.

Fixpoint weight (v : value) : nat :=
  match v with
  | JArr items => S (weight_elements weight items)
  | JObj fields => S (weight_members weight fields)
  | _ => 1
  end.

(** [v] is read back from its own text, whatever delimited text follows. *)
Definition parses_back (v : value) : Prop :=
  forall (fuel : nat) (rest : string),
    delimited rest = true -> (weight v <= fuel)%nat ->
    parse_value fuel (stringify v +:+ rest) = Some (v, rest).

(** * [utils/dependency-check.ts] *)

Record DependencyInfo : Type := mkDep {
  type : string;   (* e.g. "agent", "tool", "guardrail" *)
  name : string;   (* the key of the dependent component *)
  field : string;  (* the field that references the queried component *)
}.

(** ** Control-flow helpers *)

(** [for (const x of xs) { body }], threading the variables the body updates. *)
Fixpoint for_of {A S : Type} (xs : list A) (body : A -> S -> outcome S) (s : S)
  : outcome S :=
  match xs with
  | [] => Returns s
  | x :: rest => s' ← body x s; for_of rest body s'
  end.

(** The same loop when the body may [break]. *)
Inductive flow (S : Type) : Type :=
| Next (s : S)
| Break (s : S).
Arguments Next {S} s.
Arguments Break {S} s.

Fixpoint for_of_break {A S : Type} (xs : list A) (body : A -> S -> outcome (flow S))
    (s : S) : outcome S :=
  match xs with
  | [] => Returns s
  | x :: rest =>
      r ← body x s;
      match r with
      | Next s' => for_of_break rest body s'
      | Break s' => Returns s'
      end
  end.

(** [a || b] and [a && b] when the right operand is a call that may raise. *)
Definition or_else (a : bool) (b : outcome bool) : outcome bool :=
  if a then Returns true else b.
Definition and_then (a : bool) (b : outcome bool) : outcome bool :=
  if a then b else Returns false.

(** [deps.push(d)] *)
Definition push (deps : list DependencyInfo) (d : DependencyInfo) : list DependencyInfo :=
  (deps ++ [d])%list.

(** [config.k] on the document itself. *)
Definition get (config : value) (k : string) : outcome (option value) :=
  dot (Some config) k.

(** ** Reference Codec *)

(** Check if a value contains a reference to the given key: the [__REF__]
    marker, the [*] prefix, or the key itself. *)
Definition valueContainsRef (v : option value) (refKey : string) : bool :=
  match v with
  | Some (JStr s) =>
      if String.eqb s ("__REF__" +:+ refKey) || String.eqb s ("*" +:+ refKey) then true
      else if String.eqb s refKey then true
      else false
  | _ => false
  end.

(** The [switch (resourceType)] of [objectMatchesKey]: the configured
    resource to compare against, [null] for a type the switch does not list.
    The section is read by name, the resource by the key it was handed. *)
Definition configuredResource (config : value) (resourceType refKey : string)
  : outcome (option member) :=
  let in_resources (section : string) :=
    resources ← get config "resources";
    mret (qindex (qdot resources section) refKey) in
  let in_section (section : string) :=
    s ← get config section;
    mret (qindex s refKey) in
  if String.eqb resourceType "llm" then in_resources "llms"
  else if String.eqb resourceType "schema" then in_section "schemas"
  else if String.eqb resourceType "genie_room" then in_resources "genie_rooms"
  else if String.eqb resourceType "retriever" then in_section "retrievers"
  else if String.eqb resourceType "vector_store" then in_resources "vector_stores"
  else if String.eqb resourceType "function" then in_resources "functions"
  else if String.eqb resourceType "warehouse" then in_resources "warehouses"
  else if String.eqb resourceType "connection" then in_resources "connections"
  else if String.eqb resourceType "database" then in_resources "databases"
  else if String.eqb resourceType "tool" then in_section "tools"
  else if String.eqb resourceType "guardrail" then in_section "guardrails"
  else if String.eqb resourceType "agent" then in_section "agents"
  else if String.eqb resourceType "prompt" then in_section "prompts"
  else if String.eqb resourceType "variable" then in_section "variables"
  else if String.eqb resourceType "service_principal" then in_section "service_principals"
  else mret (Some (Own JNull)).

(** Check if an object matches a configured resource by key, comparing the
    two [JSON.stringify] texts.  The [catch] arm of the source falls back to
    reference identity; [JSON_stringify] returns on every tree, so the arm
    is never entered and identity, which trees do not have, is read as
    [false]. *)
Definition objectMatchesKey (obj : option value) (refKey : string) (config : value)
    (resourceType : string) : outcome bool :=
  match obj with
  | Some o =>
      if negb (truthy obj) || negb (typeof_object obj) then Returns false
      else
        cr ← configuredResource config resourceType refKey;
        match cr with
        | Some c =>
            if negb (member_truthy c) then Returns false
            else
              try_catch
                (a ← JSON_stringify o; b ← stringify_member c; mret (String.eqb a b))
                (fun _ => Returns false)
        | None => Returns false
        end
  | None => Returns false
  end.

(** ** Graph Walker *)

(** The [forEach] over the items of an array and the [for] over the entries
    of an object, given the search of one value. *)
Definition refs_of_items (f : value -> string -> list string) (path : string)
  : list value -> nat -> list string :=
  fix forEach (l : list value) (index : nat) : list string :=
    match l with
    | [] => []
    | item :: l' =>
        (f item (path +:+ "[" +:+ nat_to_string index +:+ "]")
         ++ forEach l' (S index))%list
    end.

Definition refs_of_entries (f : value -> string -> list string) (refKey path : string)
  : list (string * value) -> list string :=
  fix each (l : list (string * value)) : list string :=
    match l with
    | [] => []
    | kv :: l' =>
        (* check if the value itself is a reference, else search it *)
        ((if is_string (Some (snd kv)) && valueContainsRef (Some (snd kv)) refKey
          then [path +:+ "." +:+ fst kv]
          else f (snd kv) (path +:+ "." +:+ fst kv))
         ++ each l')%list
    end.

(** Recursively search an object for references to a key.  The source also
    returns no path for [undefined], which does not occur inside a tree. *)
Fixpoint findRefsInObject (obj : value) (refKey : string) (path : string) : list string :=
  match obj with
  | JNull => []
  | JStr _ => if valueContainsRef (Some obj) refKey then [path] else []
  | JArr items =>
      refs_of_items (fun item p => findRefsInObject item refKey p) path items O
  | JObj fields =>
      refs_of_entries (fun v p => findRefsInObject v refKey p) refKey path fields
  | JBool _ | JNum _ => []
  end.

(** [typeof x === 'object' && x !== null] *)
Definition is_object (x : option value) : bool :=
  typeof_object x && negb (match x with Some JNull => true | _ => false end).

(** [refs[0]] of a non-empty list of paths. *)
Definition first_path (refs : list string) : string :=
  match refs with
  | r :: _ => r
  | [] => ""
  end.

(** The test every single-field site applies:
    [valueContainsRef(x, key) || objectMatchesKey(x, key, config, kind)]. *)
Definition refers (config : value) (x : option value) (key kind : string) : outcome bool :=
  or_else (valueContainsRef x key) (objectMatchesKey x key config kind).

(** ** Dependency Finder *)

(** The loop over the components of one section that reference through a
    single field:
    [if (section) for (const [key, item] of Object.entries(section))
       if (valueContainsRef(item.fld, k) || objectMatchesKey(item.fld, k, config, refKind))
         deps.push({ type: kind, name: key, field: fld })] *)
Definition for_field (config : value) (section : option value)
    (kind fld refKey refKind : string) (deps : list DependencyInfo)
  : outcome (list DependencyInfo) :=
  if truthy section then
    es ← Object_entries section;
    for_of es (fun '(key, item) deps =>
      x ← dot (Some item) fld;
      hit ← refers config x refKey refKind;
      mret (if (hit : bool) then push deps {| type := kind; name := key; field := fld |}
            else deps)) deps
  else mret deps.

(** The same test on a part of the document that is not a keyed section:
    [if (part) if (valueContainsRef(part.fld, k) || objectMatchesKey(part.fld, ...))
       deps.push({ type: kind, name: part_name, field: fld })] *)
Definition for_part (config : value) (part : option value)
    (kind part_name fld refKey refKind : string) (deps : list DependencyInfo)
  : outcome (list DependencyInfo) :=
  if truthy part then
    x ← dot part fld;
    hit ← refers config x refKey refKind;
    mret (if (hit : bool) then push deps {| type := kind; name := part_name; field := fld |}
          else deps)
  else mret deps.

(** The vector-store loop of the schema finder. *)
Definition for_vector_store_schemas (config : value) (vector_stores : option value)
    (schemaKey : string) (deps : list DependencyInfo) : outcome (list DependencyInfo) :=
  if truthy vector_stores then
    es ← Object_entries vector_stores;
    for_of es (fun '(key, vs) deps =>
      let refs := findRefsInObject vs schemaKey "" in
      if (0 <? length refs)%nat then
        mret (push deps {| type := "vector_store"; name := key; field := first_path refs |})
      else
        source_table ← dot (Some vs) "source_table";
        let source_schema := qdot source_table "schema" in
        hit ← and_then (truthy source_schema)
                (objectMatchesKey source_schema schemaKey config "schema");
        let deps :=
          if (hit : bool) then push deps {| type := "vector_store"; name := key;
                                            field := "source_table.schema" |}
          else deps in
        index ← dot (Some vs) "index";
        let index_schema := qdot index "schema" in
        hit ← and_then (truthy index_schema)
                (objectMatchesKey index_schema schemaKey config "schema");
        mret (if (hit : bool) then push deps {| type := "vector_store"; name := key;
                                                field := "index.schema" |}
              else deps)) deps
  else mret deps.

(** Find all components that depend on a given schema. *)
Definition findSchemaDependencies (config : value) (schemaKey : string)
  : outcome (list DependencyInfo) :=
  let deps : list DependencyInfo := [] in
  resources ← get config "resources";
  deps ←
    (if truthy resources then
       tables ← dot resources "tables";
       deps ← for_field config tables "table" "schema" schemaKey "schema" deps;
       volumes ← dot resources "volumes";
       deps ← for_field config volumes "volume" "schema" schemaKey "schema" deps;
       functions ← dot resources "functions";
       deps ← for_field config functions "function" "schema" schemaKey "schema" deps;
       vector_stores ← dot resources "vector_stores";
       for_vector_store_schemas config vector_stores schemaKey deps
     else mret deps);
  prompts ← get config "prompts";
  deps ← for_field config prompts "prompt" "schema" schemaKey "schema" deps;
  app ← get config "app";
  let registered_model := qdot app "registered_model" in
  if truthy registered_model then
    schema ← dot registered_model "schema";
    mret (if valueContainsRef schema schemaKey
          then push deps {| type := "app"; name := "registered_model"; field := "schema" |}
          else deps)
  else mret deps.

(** Find all components that depend on a given LLM. *)
Definition findLlmDependencies (config : value) (llmKey : string)
  : outcome (list DependencyInfo) :=
  let deps : list DependencyInfo := [] in
  agents ← get config "agents";
  deps ← for_field config agents "agent" "model" llmKey "llm" deps;
  guardrails ← get config "guardrails";
  deps ← for_field config guardrails "guardrail" "model" llmKey "llm" deps;
  memory ← get config "memory";
  deps ← for_part config (qdot memory "store")
            "memory" "store" "embedding_model" llmKey "llm" deps;
  app ← get config "app";
  deps ← for_part config (qdot (qdot app "orchestration") "supervisor")
            "orchestration" "supervisor" "model" llmKey "llm" deps;
  resources ← get config "resources";
  for_field config (qdot resources "vector_stores")
    "vector_store" "embedding_model" llmKey "llm" deps.

(** The loop several finders run over the tools:
    [for (const [key, tool] of Object.entries(config.tools))
       if (typeof tool.function === 'object' && tool.function !== null) body] *)
Definition for_tool_functions (config : value)
    (body : string -> value -> list DependencyInfo -> outcome (list DependencyInfo))
    (deps : list DependencyInfo) : outcome (list DependencyInfo) :=
  tools ← get config "tools";
  if truthy tools then
    es ← Object_entries tools;
    for_of es (fun '(key, tool) deps =>
      fn ← dot (Some tool) "function";
      match fn with
      | Some f => if is_object fn then body key f deps else mret deps
      | None => mret deps
      end) deps
  else mret deps.

(** The loop over the databases:
    [for (const [key, db] of Object.entries(config.resources.databases))
       { const refs = findRefsInObject(db, k, ''); if (refs.length > 0) push }] *)
Definition for_database_refs (config : value) (refKey : string)
    (deps : list DependencyInfo) : outcome (list DependencyInfo) :=
  resources ← get config "resources";
  let databases := qdot resources "databases" in
  if truthy databases then
    es ← Object_entries databases;
    for_of es (fun '(key, db) deps =>
      let refs := findRefsInObject db refKey "" in
      mret (if (0 <? length refs)%nat
            then push deps {| type := "database"; name := key; field := first_path refs |}
            else deps)) deps
  else mret deps.

(** Find all components that depend on a given variable. *)
Definition findVariableDependencies (config : value) (varKey : string)
  : outcome (list DependencyInfo) :=
  let deps : list DependencyInfo := [] in
  app ← get config "app";
  let environment_vars := qdot app "environment_vars" in
  deps ←
    (if truthy environment_vars then
       es ← Object_entries environment_vars;
       for_of es (fun '(key, v) deps =>
         mret (if valueContainsRef (Some v) varKey
               then push deps {| type := "environment_var"; name := key; field := "value" |}
               else deps)) deps
     else mret deps);
  deps ← for_tool_functions config (fun key fn deps =>
            let refs := findRefsInObject fn varKey "" in
            mret (if (0 <? length refs)%nat
                  then push deps {| type := "tool"; name := key; field := first_path refs |}
                  else deps)) deps;
  for_database_refs config varKey deps.

(** The body shared by the retriever and genie-room finders: a string
    reference anywhere in [tool.function], else an object match on
    [func.args?.<arg>]. *)
Definition tool_arg_body (config : value) (refKey arg kind : string)
    (key : string) (fn : value) (deps : list DependencyInfo)
  : outcome (list DependencyInfo) :=
  let refs := findRefsInObject fn refKey "" in
  if (0 <? length refs)%nat then
    mret (push deps {| type := "tool"; name := key; field := arg |})
  else
    let a := qdot (prop fn "args") arg in
    hit ← and_then (truthy a) (objectMatchesKey a refKey config kind);
    mret (if (hit : bool) then push deps {| type := "tool"; name := key; field := arg |}
          else deps).

(** Find all components that depend on a given retriever. *)
Definition findRetrieverDependencies (config : value) (retrieverKey : string)
  : outcome (list DependencyInfo) :=
  for_tool_functions config
    (tool_arg_body config retrieverKey "retriever" "retriever") [].

(** Find all components that depend on a given genie room. *)
Definition findGenieRoomDependencies (config : value) (genieKey : string)
  : outcome (list DependencyInfo) :=
  for_tool_functions config
    (tool_arg_body config genieKey "genie_room" "genie_room") [].

(** Find all components that depend on a given vector store. *)
Definition findVectorStoreDependencies (config : value) (vsKey : string)
  : outcome (list DependencyInfo) :=
  retrievers ← get config "retrievers";
  for_field config retrievers "retriever" "vector_store" vsKey "vector_store" [].

(** Find all components that depend on a given function. *)
Definition findFunctionDependencies (config : value) (funcKey : string)
  : outcome (list DependencyInfo) :=
  for_tool_functions config (fun key fn deps =>
    let deps :=
      match prop fn "__MERGE__" with
      | Some (JStr m) =>
          if String.eqb m funcKey
          then push deps {| type := "tool"; name := key; field := "function (merge key)" |}
          else deps
      | _ => deps
      end in
    let refs := findRefsInObject fn funcKey "" in
    mret (if (0 <? length refs)%nat
          then push deps {| type := "tool"; name := key; field := first_path refs |}
          else deps)) [].

(** The inner loop of the tool, guardrail and agent finders: the first list
    item that is a string reference or a matching expanded object records
    [d] and leaves the loop. *)
Definition first_reference (config : value) (items : list value) (refKey kind : string)
    (d : DependencyInfo) (deps : list DependencyInfo) : outcome (list DependencyInfo) :=
  for_of_break items (fun ref deps =>
    if is_string (Some ref) then
      mret (if valueContainsRef (Some ref) refKey then Break (push deps d) else Next deps)
    else if is_object (Some ref) then
      hit ← objectMatchesKey (Some ref) refKey config kind;
      mret (if (hit : bool) then Break (push deps d) else Next deps)
    else mret (Next deps)) deps.

(** The loop of the tool and guardrail finders over the agents. *)
Definition for_agent_lists (config : value) (refKey list_field kind : string)
  : outcome (list DependencyInfo) :=
  let deps : list DependencyInfo := [] in
  agents ← get config "agents";
  if truthy agents then
    es ← Object_entries agents;
    for_of es (fun '(key, agent) deps =>
      l ← dot (Some agent) list_field;
      match l with
      | Some (JArr items) =>
          first_reference config items refKey kind
            {| type := "agent"; name := key; field := list_field |} deps
      | _ => mret deps
      end) deps
  else mret deps.

(** Find all components that depend on a given tool. *)
Definition findToolDependencies (config : value) (toolKey : string)
  : outcome (list DependencyInfo) :=
  for_agent_lists config toolKey "tools" "tool".

(** Find all components that depend on a given guardrail. *)
Definition findGuardrailDependencies (config : value) (guardrailKey : string)
  : outcome (list DependencyInfo) :=
  for_agent_lists config guardrailKey "guardrails" "guardrail".

(** Find all components that depend on a given prompt. *)
Definition findPromptDependencies (config : value) (promptKey : string)
  : outcome (list DependencyInfo) :=
  let deps : list DependencyInfo := [] in
  agents ← get config "agents";
  if truthy agents then
    es ← Object_entries agents;
    for_of es (fun '(key, agent) deps =>
      prompt ← dot (Some agent) "prompt";
      mret (if valueContainsRef prompt promptKey
            then push deps {| type := "agent"; name := key; field := "prompt" |}
            else deps)) deps
  else mret deps.

(** Find all components that depend on a given agent. *)
Definition findAgentDependencies (config : value) (agentKey : string)
  : outcome (list DependencyInfo) :=
  let deps : list DependencyInfo := [] in
  app ← get config "app";
  match qdot app "agents" with
  | Some (JArr items) =>
      first_reference config items agentKey "agent"
        {| type := "app"; name := "agents"; field := "agents list" |} deps
  | _ => mret deps
  end.

(** Find all components that depend on a given database. *)
Definition findDatabaseDependencies (config : value) (dbKey : string)
  : outcome (list DependencyInfo) :=
  let deps : list DependencyInfo := [] in
  memory ← get config "memory";
  deps ← for_part config (qdot memory "checkpointer")
            "memory" "checkpointer" "database" dbKey "database" deps;
  for_part config (qdot memory "store")
    "memory" "store" "database" dbKey "database" deps.

(** Find all components that depend on a given service principal. *)
Definition findServicePrincipalDependencies (config : value) (spKey : string)
  : outcome (list DependencyInfo) :=
  deps ← for_tool_functions config (fun key fn deps =>
            let refs := findRefsInObject fn spKey "" in
            mret (if (0 <? length refs)%nat
                  then push deps {| type := "tool"; name := key; field := first_path refs |}
                  else deps)) [];
  for_database_refs config spKey deps.

(** The connection and warehouse finders: any string reference inside
    [tool.function] records the tool under a fixed field name. *)
Definition for_tool_refs (config : value) (refKey fld : string)
  : outcome (list DependencyInfo) :=
  for_tool_functions config (fun key fn deps =>
    let refs := findRefsInObject fn refKey "" in
    mret (if (0 <? length refs)%nat
          then push deps {| type := "tool"; name := key; field := fld |}
          else deps)) [].

(** Find all components that depend on a given connection. *)
Definition findConnectionDependencies (config : value) (connKey : string)
  : outcome (list DependencyInfo) :=
  for_tool_refs config connKey "connection".

(** Find all components that depend on a given warehouse. *)
Definition findWarehouseDependencies (config : value) (whKey : string)
  : outcome (list DependencyInfo) :=
  for_tool_refs config whKey "warehouse".

(** ** Notions the properties are stated with *)

(** Where the components of a category are kept in the document, as the
    specification's data model has it (section, then optional subsection). *)
Definition section_path (category : string) : option (list string) :=
  if String.eqb category "llm" then Some ["resources"; "llms"]
  else if String.eqb category "schema" then Some ["schemas"]
  else if String.eqb category "genie_room" then Some ["resources"; "genie_rooms"]
  else if String.eqb category "retriever" then Some ["retrievers"]
  else if String.eqb category "vector_store" then Some ["resources"; "vector_stores"]
  else if String.eqb category "function" then Some ["resources"; "functions"]
  else if String.eqb category "warehouse" then Some ["resources"; "warehouses"]
  else if String.eqb category "connection" then Some ["resources"; "connections"]
  else if String.eqb category "database" then Some ["resources"; "databases"]
  else if String.eqb category "tool" then Some ["tools"]
  else if String.eqb category "guardrail" then Some ["guardrails"]
  else if String.eqb category "agent" then Some ["agents"]
  else if String.eqb category "prompt" then Some ["prompts"]
  else if String.eqb category "variable" then Some ["variables"]
  else if String.eqb category "service_principal" then Some ["service_principals"]
  else None.

(** The value found by following property names down from [v]. *)
Fixpoint lookup_path (v : option value) (path : list string) : option value :=
  match path with
  | [] => v
  | k :: rest => lookup_path (qdot v k) rest
  end.

(** The component configured under a category with a given key, if any. *)
Definition component (D : value) (category key : string) : option value :=
  match section_path category with
  | Some path => lookup_path (Some D) (path ++ [key])%list
  | None => None
  end.

(** The prototype [objectMatchesKey] compares with where the section of
    the category holds no component under the key: the key is [__proto__]
    and the section is there. *)
Definition inherited (D : value) (category key : string) : option prototype :=
  match section_path category with
  | Some path =>
      if String.eqb key "__proto__" then
        match lookup_path (Some D) path with
        | Some section => getPrototypeOf section
        | None => None
        end
      else None
  | None => None
  end.

(** What [objectMatchesKey] compares with, for a category its [switch]
    lists: the component under the key, or what the section inherits. *)
Definition found (D : value) (c k : string) : option member :=
  match component D c k with
  | Some cr => Some (Own cr)
  | None => Inherited <$> inherited D c k
  end.

(** The text of the object [o] is the text of what is found under the key:
    of the component if there is one, of the prototype otherwise. *)
Definition same_text (D : value) (category key : string) (o : value) : bool :=
  match component D category key with
  | Some cr => truthy (Some cr) && String.eqb (stringify o) (stringify cr)
  | None =>
      match inherited D category key with
      | Some p => String.eqb (stringify o) (stringify_prototype p)
      | None => false
      end
  end.

(** Deep structural equality in the specification's sense: sequences are
    compared in order, mappings key by key whatever the order of the keys. *)
Fixpoint deep_equal (a b : value) : bool :=
  match a, b with
  | JNull, JNull => true
  | JBool x, JBool y => Bool.eqb x y
  | JNum x, JNum y => (x =? y)%Z
  | JStr x, JStr y => String.eqb x y
  | JArr xs, JArr ys =>
      (fix each (l : list value) (r : list value) : bool :=
         match l, r with
         | [], [] => true
         | x :: l', y :: r' => deep_equal x y && each l' r'
         | _, _ => false
         end) xs ys
  | JObj fa, JObj fb =>
      (length fa =? length fb)%nat &&
      (fix each (l : list (string * value)) : bool :=
         match l with
         | [] => true
         | (k, x) :: l' =>
             match assoc k fb with
             | Some y => deep_equal x y && each l'
             | None => false
             end
         end) fa
  | _, _ => false
  end.

(** ** Scenario documents *)

Definition gpt_a : value :=
  JObj [("name", JStr "shared-endpoint"); ("temperature", JNum 1)].
Definition gpt_b : value :=
  JObj [("name", JStr "shared-endpoint"); ("temperature", JNum 2)].

(** Two LLM resources with the same [name]; one agent holds [gpt_a]
    expanded. *)
Definition two_llms : value :=
  JObj [("resources", JObj [("llms", JObj [("gpt_a", gpt_a); ("gpt_b", gpt_b)])]);
        ("agents", JObj [("helper", JObj [("name", JStr "helper"); ("model", gpt_a)])])].


(** [gpt_a] with its two properties in the other order. *)
Definition gpt_a_reordered : value :=
  JObj [("temperature", JNum 1); ("name", JStr "shared-endpoint")].

(** An agent that names its model by the model's [name] rather than its key,
    and one that holds its prompt expanded. *)
Definition by_name : value :=
  JObj [("resources", JObj [("llms", JObj [("gpt_a", gpt_a)])]);
        ("prompts", JObj [("greeting", JObj [("name", JStr "greeting")])]);
        ("agents",
         JObj [("helper", JObj [("model", JStr "shared-endpoint")]);
               ("greeter", JObj [("prompt", JObj [("name", JStr "greeting")])])])].

(** ** What the finders compute, as plain list functions *)

(** The value [x] refers to the component [key] of category [kind]: by one
    of the three string forms, or as an object with the same text as what
    is found under the key. *)
Definition refers_to (D : value) (x : option value) (key kind : string) : bool :=
  valueContainsRef x key ||
  match x with
  | Some o => is_object x && same_text D kind key o
  | None => false
  end.

(** The records a [for_field] loop adds for a list of entries. *)
Definition field_hits (D : value) (es : list (string * value))
    (kind fld key refKind : string) : list DependencyInfo :=
  flat_map (fun '(k, item) =>
              if refers_to D (prop item fld) key refKind
              then [{| type := kind; name := k; field := fld |}] else []) es.

(** The records [for_field] adds for a section, which may be absent. *)
Definition section_hits (D : value) (section : option value)
    (kind fld key refKind : string) : list DependencyInfo :=
  match section with
  | Some s =>
      if truthy section then field_hits D (entries s) kind fld key refKind else []
  | None => []
  end.

(** The records a [for_part] test adds. *)
Definition part_hits (D : value) (part : option value)
    (kind part_name fld key refKind : string) : list DependencyInfo :=
  match part with
  | Some p =>
      if truthy part && refers_to D (prop p fld) key refKind
      then [{| type := kind; name := part_name; field := fld |}] else []
  | None => []
  end.

(** Every entry of a section is a component one can read a field of. *)
Definition components_ok (section : option value) : Prop :=
  match section with
  | Some s => Forall (fun kv => snd kv <> JNull) (entries s)
  | None => True
  end.

(** * [utils/safe-delete.ts] *)

(** ** The store of objects

    [validateDeletion] copies the document and mutates the copy, so objects
    are modelled with identity here: a JavaScript value is a primitive or a
    reference to an object of the store.  An array slot is [None] where
    [delete] has left a hole. *)

Definition loc := positive.

Inductive hval : Type :=
| HNull
| HBool (b : bool)
| HNum (n : Z)
| HStr (s : string)
| HRef (l : loc).

Inductive cell : Type :=
| CArr (items : list (option hval))
| CObj (fields : list (string * hval)).

(** Allocation of the elements of an array and of the members of an object,
    left to right, given the allocation of one value. *)
Definition alloc_items (f : value -> gmap loc cell -> gmap loc cell * hval)
  : list value -> gmap loc cell -> gmap loc cell * list (option hval) :=
  fix each (l : list value) (h : gmap loc cell) :=
    match l with
    | [] => (h, [])
    | x :: l' =>
        let '(h1, v) := f x h in
        let '(h2, vs) := each l' h1 in
        (h2, Some v :: vs)
    end.

Definition alloc_fields (f : value -> gmap loc cell -> gmap loc cell * hval)
  : list (string * value) -> gmap loc cell -> gmap loc cell * list (string * hval) :=
  fix each (l : list (string * value)) (h : gmap loc cell) :=
    match l with
    | [] => (h, [])
    | kx :: l' =>
        let '(h1, v) := f (snd kx) h in
        let '(h2, vs) := each l' h1 in
        (h2, (fst kx, v) :: vs)
    end.

(** Materialise a tree as fresh objects, as [JSON.parse] does for the value
    it returns. *)
Fixpoint alloc (t : value) (h : gmap loc cell) : gmap loc cell * hval :=
  match t with
  | JNull => (h, HNull)
  | JBool b => (h, HBool b)
  | JNum n => (h, HNum n)
  | JStr s => (h, HStr s)
  | JArr items =>
      let '(h', slots) := alloc_items alloc items h in
      let l := fresh (dom h') in
      (<[l := CArr slots]> h', HRef l)
  | JObj fields =>
      let '(h', props) := alloc_fields alloc fields h in
      let l := fresh (dom h') in
      (<[l := CObj props]> h', HRef l)
  end.

(** [mapM] for [option], written out so that it can be used under a
    recursive call. *)
Definition option_all {A B : Type} (f : A -> option B) : list A -> option (list B) :=
  fix go (l : list A) : option (list B) :=
    match l with
    | [] => Some []
    | x :: l' =>
        match f x, go l' with
        | Some y, Some ys => Some (y :: ys)
        | _, _ => None
        end
    end.

(** The tree [JSON.stringify] walks from a value of the store; a hole is
    written as [null].  [None] when the fuel does not reach the leaves
    (a cyclic structure never does). *)
Fixpoint snapshot (fuel : nat) (h : gmap loc cell) (v : hval) : option value :=
  match v with
  | HNull => Some JNull
  | HBool b => Some (JBool b)
  | HNum n => Some (JNum n)
  | HStr s => Some (JStr s)
  | HRef l =>
      match fuel with
      | O => None
      | S fuel' =>
          match h !! l with
          | Some (CArr items) =>
              JArr <$> option_all (fun slot =>
                         match slot with
                         | Some x => snapshot fuel' h x
                         | None => Some JNull
                         end) items
          | Some (CObj fields) =>
              JObj <$> option_all (fun kv =>
                         match snapshot fuel' h (snd kv) with
                         | Some t => Some (fst kv, t)
                         | None => None
                         end) fields
          | None => None
          end
      end
  end.

(** [JSON.parse(JSON.stringify(config))]: the text of the document, parsed
    into fresh objects. *)
Definition deep_clone (fuel : nat) (h : gmap loc cell) (config : hval)
  : option (gmap loc cell * outcome hval) :=
  match snapshot fuel h config with
  | None => None
  | Some t =>
      match (s ← JSON_stringify t; JSON_parse s) with
      | Returns t' => let '(h', c) := alloc t' h in Some (h', Returns c)
      | Throws e => Some (h, Throws e)
      end
  end.

(** Truthiness of a value of the store. *)
Definition htruthy (v : option hval) : bool :=
  match v with
  | None | Some HNull => false
  | Some (HBool b) => b
  | Some (HNum n) => negb (n =? 0)%Z
  | Some (HStr s) => negb (String.eqb s "")
  | Some (HRef _) => true
  end.

(** Own property [v[k]] of a value of the store other than [null]. *)
Definition hprop (h : gmap loc cell) (v : hval) (k : string) : option hval :=
  match v with
  | HRef l =>
      match h !! l with
      | Some (CObj fields) => assoc k fields
      | Some (CArr items) =>
          if String.eqb k "length" then Some (HNum (Z.of_nat (length items)))
          else match index_of_key k with
               | Some i => mjoin (items !! i)
               | None => None
               end
      | None => None
      end
  | HStr s =>
      if String.eqb k "length" then Some (HNum (Z.of_nat (String.length s)))
      else match index_of_key k with
           | Some i => (fun c => HStr (String c EmptyString)) <$> string_nth i s
           | None => None
           end
  | HNull | HBool _ | HNum _ => None
  end.

(** [o.k] and [o?.k] on the store. *)
Definition hdot (h : gmap loc cell) (o : option hval) (k : string) : outcome (option hval) :=
  match o with
  | None | Some HNull => Throws TypeError
  | Some v => Returns (hprop h v k)
  end.

Definition hqdot (h : gmap loc cell) (o : option hval) (k : string) : option hval :=
  match o with
  | None | Some HNull => None
  | Some v => hprop h v k
  end.

Fixpoint remove_key {A : Type} (k : string) (fields : list (string * A)) : list (string * A) :=
  match fields with
  | [] => []
  | (k', v) :: rest =>
      if String.eqb k k' then remove_key k rest else (k', v) :: remove_key k rest
  end.

(** [delete target[k]] in strict-mode code (an ES module): the property is
    removed from an object; an array element leaves a hole; a property that
    cannot be deleted (the [length] of an array or string, a character of a
    string) raises a [TypeError]; anything else is left as it is. *)
Definition delete_property (h : gmap loc cell) (target : hval) (k : string)
  : outcome (gmap loc cell) :=
  match target with
  | HRef l =>
      match h !! l with
      | Some (CObj fields) => Returns (<[l := CObj (remove_key k fields)]> h)
      | Some (CArr items) =>
          if String.eqb k "length" then Throws TypeError
          else match index_of_key k with
               | Some i =>
                   if (i <? length items)%nat
                   then Returns (<[l := CArr (<[i := None]> items)]> h)
                   else Returns h
               | None => Returns h
               end
      | None => Returns h
      end
  | HStr s =>
      if String.eqb k "length" then Throws TypeError
      else match index_of_key k with
           | Some i => if (i <? String.length s)%nat then Throws TypeError else Returns h
           | None => Returns h
           end
  | HNull => Throws TypeError
  | HBool _ | HNum _ => Returns h
  end.

(** [if (section) delete section[componentKey];] *)
Definition delete_from (h : gmap loc cell) (section : option hval) (k : string)
  : outcome (gmap loc cell) :=
  match section with
  | Some target => if htruthy section then delete_property h target k else Returns h
  | None => Returns h
  end.

(** [String.prototype.toLowerCase] on the modelled characters. *)
Definition lower_char (c : ascii) : ascii :=
  let n := nat_of_ascii c in
  if ((65 <=? n) && (n <=? 90))%nat then ascii_of_nat (n + 32) else c.

Fixpoint toLowerCase (s : string) : string :=
  match s with
  | EmptyString => EmptyString
  | String c r => String (lower_char c) (toLowerCase r)
  end.

(** The component types of [validateDeletion]'s [switch], each with the
    path of its section below the document root. *)
Definition deletion_sections : list (string * list string) :=
  [("tool", ["tools"]);
   ("guardrail", ["guardrails"]);
   ("schema", ["schemas"]);
   ("variable", ["variables"]);
   ("agent", ["agents"]);
   ("service principal", ["service_principals"]);
   ("prompt", ["prompts"]);
   ("retriever", ["retrievers"]);
   ("llm", ["resources"; "llms"]);
   ("genie room", ["resources"; "genie_rooms"]);
   ("warehouse", ["resources"; "warehouses"]);
   ("function", ["resources"; "functions"]);
   ("connection", ["resources"; "connections"]);
   ("database", ["resources"; "databases"]);
   ("vector store", ["resources"; "vector_stores"]);
   ("middleware", ["middleware"])].

(** ** Notions the store properties are stated with *)

(** Nesting depth of a tree: the fuel [snapshot] needs to read it. *)
Definition depth_items (f : value -> nat) : list value -> nat :=
  fix go (l : list value) : nat :=
    match l with
    | [] => O
    | x :: l' => Nat.max (f x) (go l')
    end.

Definition depth_fields (f : value -> nat) : list (string * value) -> nat :=
  fix go (l : list (string * value)) : nat :=
    match l with
    | [] => O
    | kx :: l' => Nat.max (f (snd kx)) (go l')
    end.

Fixpoint depth (t : value) : nat :=
  match t with
  | JArr items => S (depth_items depth items)
  | JObj fields => S (depth_fields depth fields)
  | _ => O
  end.

(** A value that does not point into the store [h], and a cell none of
    whose values does. *)
Definition fresh_val (h : gmap loc cell) (v : hval) : Prop :=
  match v with
  | HRef l => h !! l = None
  | _ => True
  end.

Definition fresh_cell (h : gmap loc cell) (c : cell) : Prop :=
  match c with
  | CArr slots => Forall (fun s => match s with Some v => fresh_val h v | None => True end) slots
  | CObj props => Forall (fun kv => fresh_val h (snd kv)) props
  end.

(** [h'] extends [h] by cells that do not point back into [h]. *)
Definition extends_apart (h h' : gmap loc cell) : Prop :=
  h ⊆ h' /\ forall l c, h !! l = None -> h' !! l = Some c -> fresh_cell h c.

(** [g] has every cell of [h'] that is not a cell of [h]. *)
Definition has_new_cells (h h' g : gmap loc cell) : Prop :=
  forall l c, h !! l = None -> h' !! l = Some c -> g !! l = Some c.

(** What allocation guarantees for one tree. *)
Definition alloc_spec (t : value) : Prop :=
  forall (h h' : gmap loc cell) (v : hval),
    alloc t h = (h', v) ->
    extends_apart h h' /\ fresh_val h v /\
    forall (g : gmap loc cell) (fuel : nat),
      has_new_cells h h' g -> (depth t <= fuel)%nat -> snapshot fuel g v = Some t.

(** ** The regular expression of [validateConfig]

    Case-insensitively, the words [undefined alias], a space, and between
    double quotes a non-empty group of characters other than the double
    quote. *)

(** [p] is a prefix of [s] up to letter case; the rest of [s] after it. *)
Fixpoint prefix_ci (p s : string) : option string :=
  match p, s with
  | EmptyString, _ => Some s
  | String a p', String b s' =>
      if Ascii.eqb (lower_char a) (lower_char b) then prefix_ci p' s' else None
  | String _ _, EmptyString => None
  end.

(** The longest run of characters other than the double quote. *)
Fixpoint span_unquoted (s : string) : string * string :=
  match s with
  | EmptyString => (EmptyString, EmptyString)
  | String c r =>
      if Ascii.eqb c dquote then (EmptyString, s)
      else let '(run, rest) := span_unquoted r in (String c run, rest)
  end.

(** A match starting at the head of [s]: the captured group. *)
Definition alias_match_here (s : string) : option string :=
  match prefix_ci ("undefined alias " +:+ String dquote "") s with
  | Some rest =>
      match span_unquoted rest with
      | (String c run, String q _) =>
          if Ascii.eqb q dquote then Some (String c run) else None
      | _ => None
      end
  | None => None
  end.

(** [message.match(...)]: the group of the leftmost match, if any. *)
Fixpoint alias_match (message : string) : option string :=
  match alias_match_here message with
  | Some group => Some group
  | None =>
      match message with
      | EmptyString => None
      | String _ r => alias_match r
      end
  end.

(** ** The notification store ([stores/notificationStore.ts]) *)

Module notificationStore.

Record Notification : Type := {
  id : string;
  type : string;   (* 'error' | 'warning' | 'success' | 'info' *)
  message : string;
  details : option string;
  timestamp : Z;
}.

(** The notifications on display, the identifiers whose removal is
    scheduled by [setTimeout], and how many readings of the clock and of
    the random source have been taken. *)
Record NotificationState : Type := {
  notifications : list Notification;
  timers : list string;
  ticks : nat;
}.

Section entropy.
(** [Date.now()] and [Math.random().toString(36).substr(2, 9)], by the
    number of readings taken before. *)
Variable Date_now : nat -> Z.
Variable Math_random : nat -> string.

Definition addNotification (ty message : string) (details : option string)
    (st : NotificationState) : NotificationState :=
  let n := ticks st in
  let id := number_to_string (Date_now n) +:+ "-" +:+ Math_random (S n) in
  let notification :=
    {| id := id; type := ty; message := message; details := details;
       timestamp := Date_now (S (S n)) |} in
  {| notifications := (notifications st ++ [notification])%list;
     (* auto-remove after 10 seconds for non-errors *)
     timers := if String.eqb ty "error" then timers st
               else (timers st ++ [id])%list;
     ticks := S (S (S n)) |}.
End entropy.

End notificationStore.

(** ** Validation and deletion *)

(** The [switch (componentType.toLowerCase())] of [validateDeletion]: the
    store after the deletion, or the exception it raised; [None] for a
    type the [switch] does not list (its [default] case). *)
Definition apply_deletion (h : gmap loc cell) (testConfig : hval)
    (componentType componentKey : string) : option (outcome (gmap loc cell)) :=
  (* if (testConfig.s) delete testConfig.s[componentKey]; *)
  let top (s : string) :=
    Some (section ← hdot h (Some testConfig) s;
          delete_from h section componentKey) in
  (* if (testConfig.resources?.s) delete testConfig.resources.s[componentKey]; *)
  let in_resources (s : string) :=
    Some (resources ← hdot h (Some testConfig) "resources";
          delete_from h (hqdot h resources s) componentKey) in
  let t := toLowerCase componentType in
  if String.eqb t "tool" then top "tools"
  else if String.eqb t "guardrail" then top "guardrails"
  else if String.eqb t "schema" then top "schemas"
  else if String.eqb t "variable" then top "variables"
  else if String.eqb t "agent" then top "agents"
  else if String.eqb t "service principal" then top "service_principals"
  else if String.eqb t "prompt" then top "prompts"
  else if String.eqb t "retriever" then top "retrievers"
  else if String.eqb t "llm" then in_resources "llms"
  else if String.eqb t "genie room" then in_resources "genie_rooms"
  else if String.eqb t "warehouse" then in_resources "warehouses"
  else if String.eqb t "function" then in_resources "functions"
  else if String.eqb t "connection" then in_resources "connections"
  else if String.eqb t "database" then in_resources "databases"
  else if String.eqb t "vector store" then in_resources "vector_stores"
  else if String.eqb t "middleware" then top "middleware"
  else None.

(** The application state [safeDelete] works on: the objects, the root of
    the live document held by the configuration store, and the
    notifications. *)
Record World : Type := {
  objects : gmap loc cell;
  config : hval;
  notes : notificationStore.NotificationState;
}.

Section serializer.

(** [generateYAML] ([utils/yaml-generator.ts]) and [yaml.load] (js-yaml)
    are taken as given: the first reads the document it is handed and
    returns its YAML text or raises, the second returns or raises on a
    text. *)
Variable generateYAML : gmap loc cell -> hval -> outcome string.
Variable yaml_load : string -> outcome unit.

Variable Date_now : nat -> Z.
Variable Math_random : nat -> string.

(** Validates that the config can be serialized to valid YAML.  Returns an
    error message if validation fails, [null] ([None]) if successful. *)
Definition validateConfig (h : gmap loc cell) (config : hval) : outcome (option string) :=
  try_catch
    (yamlString ← generateYAML h config;
     _ ← yaml_load yamlString;
     mret None)
    (fun error =>
       match error with
       | JsError message =>
           match alias_match message with
           | Some alias =>
               Returns (Some ("This component is referenced by " +:+
                              String dquote (alias +:+
                              String dquote ". Remove that reference first.")))
           | None => Returns (Some ("Validation failed: " +:+ message))
           end
       | NonError => Returns (Some "Unknown validation error")
       end).

(** Validates a hypothetical config without actually changing anything:
    creates a deep copy, applies the deletion, and validates.  [None] when
    the fuel does not suffice to read the document. *)
Definition validateDeletion (fuel : nat) (h : gmap loc cell) (config : hval)
    (componentType componentKey : string)
  : option (gmap loc cell * outcome (option string)) :=
  (* create a deep copy of the config *)
  match deep_clone fuel h config with
  | None => None
  | Some (h1, Throws e) => Some (h1, Throws e)
  | Some (h1, Returns testConfig) =>
      (* apply the deletion to the test config based on component type *)
      match apply_deletion h1 testConfig componentType componentKey with
      | Some (Returns h2) =>
          (* validate the test config *)
          Some (h2, validateConfig h2 testConfig)
      | Some (Throws e) => Some (h1, Throws e)
      | None => Some (h1, Returns None) (* unknown type, allow deletion *)
      end
  end.

(** [if (error)] on a [string | null]. *)
Definition is_error (error : option string) : bool :=
  match error with
  | Some s => negb (String.eqb s "")
  | None => false
  end.

Definition notify (ty message : string) (details : option string) (w : World) : World :=
  {| objects := objects w; config := config w;
     notes := notificationStore.addNotification Date_now Math_random
                ty message details (notes w) |}.

(** The component type, a space, and the component key between double
    quotes, as the notification messages spell them. *)
Definition quoted_name (componentType componentKey : string) : string :=
  componentType +:+ " " +:+ String dquote (componentKey +:+ String dquote "").

(** Attempts to delete a component after validating that it won't break
    references.  The result carries, beside the world and the returned
    boolean, whether [deleteAction] was called. *)
Definition safeDelete (fuel : nat) (w : World) (componentType componentKey : string)
    (deleteAction : World -> World * outcome unit)
  : option (World * bool * outcome bool) :=
  (* validate BEFORE deleting *)
  match validateDeletion fuel (objects w) (config w) componentType componentKey with
  | None => None
  | Some (h', Throws e) =>
      Some ({| objects := h'; config := config w; notes := notes w |}, false, Throws e)
  | Some (h', Returns error) =>
      let w1 := {| objects := h'; config := config w; notes := notes w |} in
      if is_error error then
        (* validation failed - don't delete *)
        Some (notify "error" ("Cannot delete " +:+ quoted_name componentType componentKey)
                error w1,
              false, Returns false)
      else
        let '(w2, r) := deleteAction w1 in
        match r with
        | Returns _ =>
            Some (notify "success"
                    (quoted_name componentType componentKey +:+ " deleted") None w2,
                  true, Returns true)
        | Throws error =>
            Some (notify "error"
                    ("Failed to delete " +:+ quoted_name componentType componentKey)
                    (Some (match error with
                           | JsError message => message
                           | NonError => "Unknown error"
                           end)) w2,
                  true, Returns false)
        end
  end.

End serializer.

(** ** Notions the deletion properties are stated with *)

(** A section [delete] can be applied to without raising: anything but a
    string or a sequence (the data model makes every section a mapping). *)
Definition section_ok (section : option value) : Prop :=
  match section with
  | Some (JStr _) | Some (JArr _) => False
  | _ => True
  end.

(** The shape of a document: a mapping, none of whose sections listed by
    [validateDeletion] is a string or a sequence. *)
Definition document_shape (t : value) : Prop :=
  (exists fields, t = JObj fields) /\
  forall entry, In entry deletion_sections ->
                section_ok (lookup_path (Some t) (snd entry)).

(** A value of the store [delete] can be applied to without raising. *)
Definition safe_target (h : gmap loc cell) (o : option hval) : Prop :=
  match o with
  | Some (HStr _) => False
  | Some (HRef l) => exists props, h !! l = Some (CObj props)
  | _ => True
  end.

(** A value read from the store against the value read from the tree it
    represents; a hole reads as [undefined] in the store and is [null] in
    the tree. *)
Definition reads (h : gmap loc cell) (o : option hval) (ot : option value) : Prop :=
  match o, ot with
  | None, None => True
  | None, Some JNull => True
  | Some v, Some t => exists fuel, snapshot fuel h v = Some t
  | _, _ => False
  end.

(** ** A store, a serializer and a parser for the examples *)

(** The document [two_llms] as objects of an otherwise empty store. *)
Definition live_store : gmap loc cell := fst (alloc two_llms ∅).
Definition live_root : hval := snd (alloc two_llms ∅).

(** A serializer that writes the JSON text of the document (JSON is YAML),
    and a parser that accepts every text. *)
Definition json_as_yaml (h : gmap loc cell) (config : hval) : outcome string :=
  match snapshot 64 h config with
  | Some t => Returns (stringify t)
  | None => Throws (JsError "cannot serialize")
  end.

Definition accept_all (s : string) : outcome unit := Returns tt.

(** A parser that reports a dangling alias, whatever the text. *)
Definition missing_alias (s : string) : outcome unit :=
  Throws (JsError ("undefined alias " +:+ String dquote ("gpt_a" +:+ String dquote ""))).

Definition live_world : World :=
  {| objects := live_store; config := live_root;
     notes := {| notificationStore.notifications := [];
                 notificationStore.timers := [];
                 notificationStore.ticks := 0 |} |}.

(** A deletion callback that leaves the world as it is. *)
Definition no_action (w : World) : World * outcome unit := (w, Returns tt).

(** The world [after] shows one more notification than [before], of the
    given type and details, and is otherwise the same. *)
Definition surfaced (before after : World) (ty : string) (details : option string) : Prop :=
  objects after = objects before /\ config after = config before /\
  exists n,
    notificationStore.notifications (notes after)
    = (notificationStore.notifications (notes before) ++ [n])%list /\
    notificationStore.type n = ty /\
    notificationStore.details n = details.

(** A clock and a random source for the examples. *)
Definition epoch (n : nat) : Z := Z.of_nat n.
Definition constant_suffix (n : nat) : string := "k3x9q2m1z".

(** A deletion callback that fails. *)
Definition failing_action (w : World) : World * outcome unit :=
  (w, Throws (JsError "store is read-only")).

(** The store a call of [validateDeletion] has left. *)
Definition store_after (r : option (gmap loc cell * outcome (option string)))
  : gmap loc cell :=
  match r with
  | Some (h', _) => h'
  | None => ∅
  end.

(** ** The table of reference sites

    Which field of which component can refer to which category, as the
    finders encode it, and in which forms. *)

(** The three string forms of a reference to [key]. *)
Definition string_form (key : string) (x : value) : Prop :=
  x = JStr ("__REF__" +:+ key) \/ x = JStr ("*" +:+ key) \/ x = JStr key.

(** The expanded form: the configured component itself, as an object. *)
Definition expanded_form (D : value) (category key : string) (x : value) : Prop :=
  is_object (Some x) = true /\ component D category key = Some x.

Definition reference_form (D : value) (category key : string) (x : value) : Prop :=
  string_form key x \/ expanded_form D category key x.

(** What [objectMatchesKey] takes for a reference under the key [__proto__]
    where the section of the category holds no component of that name: an
    object whose text is that of the section's prototype, which is the empty
    mapping for a section that is a mapping and the empty sequence for one
    that is a sequence. *)
Definition prototype_form (D : value) (category key : string) (x : value) : Prop :=
  component D category key = None /\
  ((inherited D category key = Some Object_prototype /\ x = JObj []) \/
   (inherited D category key = Some Array_prototype /\ x = JArr [])).

(** Everything a site that tests all the forms takes for a reference. *)
Definition matched_form (D : value) (category key : string) (x : value) : Prop :=
  reference_form D category key x \/ prototype_form D category key x.

(** [comp] is the component with key [A] in the mapping found at [path]. *)
Definition keyed (D : value) (path : list string) (A : string) (comp : value) : Prop :=
  exists fields,
    lookup_path (Some D) path = Some (JObj fields) /\ assoc A fields = Some comp.

(** [x] occurs in a tree: it is the tree, or occurs in an item or in the
    value of an entry. *)
Inductive occurs (x : value) : value -> Prop :=
| occurs_here : occurs x x
| occurs_item (items : list value) (v : value) :
    In v items -> occurs x v -> occurs x (JArr items)
| occurs_entry (fields : list (string * value)) (k : string) (v : value) :
    In (k, v) fields -> occurs x v -> occurs x (JObj fields).

(** The component categories that have a finder, the finder of each, and
    the resource type it hands to [objectMatchesKey]. *)
Inductive category : Type :=
| K_Schema | K_Llm | K_Variable | K_Retriever | K_GenieRoom | K_VectorStore | K_Function
| K_Tool | K_Guardrail | K_Prompt | K_Agent | K_Database | K_ServicePrincipal | K_Connection
| K_Warehouse.

Definition find (c : category) : value -> string -> outcome (list DependencyInfo) :=
  match c with
  | K_Schema => findSchemaDependencies
  | K_Llm => findLlmDependencies
  | K_Variable => findVariableDependencies
  | K_Retriever => findRetrieverDependencies
  | K_GenieRoom => findGenieRoomDependencies
  | K_VectorStore => findVectorStoreDependencies
  | K_Function => findFunctionDependencies
  | K_Tool => findToolDependencies
  | K_Guardrail => findGuardrailDependencies
  | K_Prompt => findPromptDependencies
  | K_Agent => findAgentDependencies
  | K_Database => findDatabaseDependencies
  | K_ServicePrincipal => findServicePrincipalDependencies
  | K_Connection => findConnectionDependencies
  | K_Warehouse => findWarehouseDependencies
  end.

Definition resource_type (c : category) : string :=
  match c with
  | K_Schema => "schema"
  | K_Llm => "llm"
  | K_Variable => "variable"
  | K_Retriever => "retriever"
  | K_GenieRoom => "genie_room"
  | K_VectorStore => "vector_store"
  | K_Function => "function"
  | K_Tool => "tool"
  | K_Guardrail => "guardrail"
  | K_Prompt => "prompt"
  | K_Agent => "agent"
  | K_Database => "database"
  | K_ServicePrincipal => "service_principal"
  | K_Connection => "connection"
  | K_Warehouse => "warehouse"
  end.

(** Components that reference through one field: category referred to,
    section of the referring component, field. *)
Definition field_sites : list (category * list string * string) :=
  [(K_Schema, ["resources"; "tables"], "schema");
   (K_Schema, ["resources"; "volumes"], "schema");
   (K_Schema, ["resources"; "functions"], "schema");
   (K_Schema, ["prompts"], "schema");
   (K_Llm, ["agents"], "model");
   (K_Llm, ["guardrails"], "model");
   (K_Llm, ["resources"; "vector_stores"], "embedding_model");
   (K_VectorStore, ["retrievers"], "vector_store")].

(** Parts of the document that are not keyed components: category referred
    to, path of the part, name recorded for it, field. *)
Definition part_sites : list (category * list string * string * string) :=
  [(K_Llm, ["memory"; "store"], "store", "embedding_model");
   (K_Llm, ["app"; "orchestration"; "supervisor"], "supervisor", "model");
   (K_Database, ["memory"; "checkpointer"], "checkpointer", "database");
   (K_Database, ["memory"; "store"], "store", "database")].

(** Categories whose finder searches the whole [function] of every tool,
    and the whole of every database, for a string form. *)
Definition tool_walkers : list category :=
  [K_Variable; K_Retriever; K_GenieRoom; K_Function; K_ServicePrincipal;
   K_Connection; K_Warehouse].

Definition database_walkers : list category := [K_Variable; K_ServicePrincipal].

(** Tool arguments matched in expanded form: category, argument. *)
Definition tool_arg_sites : list (category * string) :=
  [(K_Retriever, "retriever"); (K_GenieRoom, "genie_room")].

(** Lists of references held by an agent: category, field. *)
Definition agent_list_sites : list (category * string) :=
  [(K_Tool, "tools"); (K_Guardrail, "guardrails")].

(** [modeled_reference D key c A]: in [D], a site the finder of category
    [c] covers holds a reference to the component [key], in a form the
    finder tests there; [A] is the name the finder records for the site. *)
Inductive modeled_reference (D : value) (key : string) : category -> string -> Prop :=
| ref_field (c : category) (path : list string) (fld A : string) (comp x : value) :
    In (c, path, fld) field_sites ->
    keyed D path A comp -> prop comp fld = Some x ->
    reference_form D (resource_type c) key x ->
    modeled_reference D key c A
| ref_part (c : category) (path : list string) (part_name fld : string) (x : value) :
    In (c, path, part_name, fld) part_sites ->
    lookup_path (Some D) (path ++ [fld])%list = Some x ->
    reference_form D (resource_type c) key x ->
    modeled_reference D key c part_name
| ref_prompt (A : string) (comp x : value) :
    keyed D ["agents"] A comp -> prop comp "prompt" = Some x ->
    string_form key x ->
    modeled_reference D key K_Prompt A
| ref_registered_model (x : value) :
    lookup_path (Some D) ["app"; "registered_model"; "schema"] = Some x ->
    string_form key x ->
    modeled_reference D key K_Schema "registered_model"
| ref_environment_var (A : string) (x : value) :
    keyed D ["app"; "environment_vars"] A x ->
    string_form key x ->
    modeled_reference D key K_Variable A
| ref_tool_walk (c : category) (A : string) (comp fn x : value) :
    In c tool_walkers ->
    keyed D ["tools"] A comp -> prop comp "function" = Some fn ->
    is_object (Some fn) = true ->
    occurs x fn -> string_form key x ->
    modeled_reference D key c A
| ref_tool_arg (c : category) (arg A : string) (comp fn x : value) :
    In (c, arg) tool_arg_sites ->
    keyed D ["tools"] A comp -> prop comp "function" = Some fn ->
    is_object (Some fn) = true ->
    qdot (prop fn "args") arg = Some x ->
    expanded_form D (resource_type c) key x ->
    modeled_reference D key c A
| ref_database_walk (c : category) (A : string) (comp x : value) :
    In c database_walkers ->
    keyed D ["resources"; "databases"] A comp ->
    occurs x comp -> string_form key x ->
    modeled_reference D key c A
| ref_vector_store_walk (A : string) (comp x : value) :
    keyed D ["resources"; "vector_stores"] A comp ->
    occurs x comp -> string_form key x ->
    modeled_reference D key K_Schema A
| ref_vector_store_schema (part A : string) (comp x : value) :
    In part ["source_table"; "index"] ->
    keyed D ["resources"; "vector_stores"] A comp ->
    qdot (prop comp part) "schema" = Some x ->
    expanded_form D "schema" key x ->
    modeled_reference D key K_Schema A
| ref_agent_list (c : category) (lst A : string) (comp : value)
    (items : list value) (x : value) :
    In (c, lst) agent_list_sites ->
    keyed D ["agents"] A comp -> prop comp lst = Some (JArr items) ->
    In x items -> reference_form D (resource_type c) key x ->
    modeled_reference D key c A
| ref_app_agents (items : list value) (x : value) :
    lookup_path (Some D) ["app"; "agents"] = Some (JArr items) ->
    In x items -> reference_form D "agent" key x ->
    modeled_reference D key K_Agent "agents".

(** The sections whose components the finders read a field of. *)
Definition component_sections : list (list string) :=
  [["resources"; "tables"]; ["resources"; "volumes"]; ["resources"; "functions"];
   ["resources"; "vector_stores"]; ["prompts"]; ["agents"]; ["guardrails"];
   ["retrievers"]; ["tools"]].

(** A document the finders can walk: no component of those sections is
    [null]. *)
Definition finder_ready (D : value) : Prop :=
  D <> JNull /\
  forall path, In path component_sections -> components_ok (lookup_path (Some D) path).

(** A step of a finder returns and keeps the records found so far; it adds
    a record named [A]. *)
Definition extends (B : list DependencyInfo -> outcome (list DependencyInfo)) : Prop :=
  forall deps, exists l, B deps = Returns (deps ++ l)%list.

Definition adds (A : string) (B : list DependencyInfo -> outcome (list DependencyInfo))
  : Prop :=
  forall deps, exists l, B deps = Returns (deps ++ l)%list /\
                         exists r, In r l /\ name r = A.

(** The same for one call: [m] returns [deps] and more; it returns [deps]
    and more with a record named [A] among the additions. *)
Definition grows (deps : list DependencyInfo) (m : outcome (list DependencyInfo)) : Prop :=
  exists l, m = Returns (deps ++ l)%list.

Definition gains (A : string) (deps : list DependencyInfo)
    (m : outcome (list DependencyInfo)) : Prop :=
  exists l, m = Returns (deps ++ l)%list /\ exists r, In r l /\ name r = A.

(** * The rest of the sources

    The functions of [dependency-check.ts], [safe-delete.ts] and
    [notificationStore.ts] that the definitions above do not reach, and the
    helpers of [MemorySection]. *)

(** ** [formatDependencyMessage] *)

(** The bullet U+2022, in the character model of this file its UTF-8 bytes. *)
Definition bullet : string :=
  String (ascii_of_nat 226) (String (ascii_of_nat 128) (String (ascii_of_nat 162) "")).

Definition newline : string := String (ascii_of_nat 10) "".

(** [lines.join(sep)] *)
Fixpoint join (sep : string) (lines : list string) : string :=
  match lines with
  | [] => ""
  | [line] => line
  | line :: rest => line +:+ sep +:+ join sep rest
  end.

(** The line of one record: bullet, type, colon, the name between double
    quotes, the field between parentheses. *)
Definition dependency_line (d : DependencyInfo) : string :=
  bullet +:+ " " +:+ type d +:+ ": " +:+
  String dquote (name d +:+ String dquote (" (" +:+ field d +:+ ")")).

(** Format dependency info into a user-friendly message. *)
Definition formatDependencyMessage (deps : list DependencyInfo) : string :=
  if (length deps =? 0)%nat then ""
  else
    let lines := map dependency_line deps in
    "This component is referenced by:" +:+ newline +:+ join newline lines +:+
    newline +:+ newline +:+ "Please remove these references before deleting.".

(** [needle] occurs in [text]. *)
Definition occurs_in (needle text : string) : Prop :=
  exists before after, text = before +:+ needle +:+ after.


(** ** Documents whose sections are mappings *)

(** The sections the finders enumerate with [Object.entries]. *)
Definition enumerated_sections : list (list string) :=
  (component_sections ++ [["resources"; "databases"]; ["app"; "environment_vars"]])%list.

(** A section that is keyed: not a string or a sequence (whose entries
    would be indexed by position), and, if a mapping, one that holds each
    key once, as every object does. *)
Definition keyed_section (section : option value) : Prop :=
  match section with
  | Some (JObj fields) => NoDup (map fst fields)
  | Some (JStr _) | Some (JArr _) => False
  | _ => True
  end.

Definition mapping_sections (D : value) : Prop :=
  forall path, In path enumerated_sections -> keyed_section (lookup_path (Some D) path).

(** A call returns the records it was given and more, and each of the new
    records satisfies [P]. *)
Definition within (P : DependencyInfo -> Prop) (deps : list DependencyInfo)
    (m : outcome (list DependencyInfo)) : Prop :=
  exists l, m = Returns (deps ++ l)%list /\ Forall P l.

(** ** The notification helpers of [safe-delete.ts] *)

(** Simple notification helper for showing deletion errors. *)
Definition showDeletionError (Date_now : nat -> Z) (Math_random : nat -> string)
    (componentType componentKey details : string) (w : World) : World :=
  notify Date_now Math_random "error"
    ("Cannot delete " +:+ quoted_name componentType componentKey) (Some details) w.

(** Show success notification for deletion. *)
Definition showDeletionSuccess (Date_now : nat -> Z) (Math_random : nat -> string)
    (componentType componentKey : string) (w : World) : World :=
  notify Date_now Math_random "success"
    (quoted_name componentType componentKey +:+ " deleted") None w.

(** ** The document a deletion leaves, as a tree *)

(** Replace the value of the first binding of [k]. *)
Fixpoint update_key (k : string) (f : value -> value) (fields : list (string * value))
  : list (string * value) :=
  match fields with
  | [] => []
  | (k', v) :: rest =>
      if String.eqb k k' then (k', f v) :: rest else (k', v) :: update_key k f rest
  end.

(** The tree [t] without the property [key] of the mapping found at [path];
    [t] itself where there is no mapping at [path]. *)
Fixpoint without (t : value) (path : list string) (key : string) : value :=
  match t with
  | JObj fields =>
      match path with
      | [] => JObj (remove_key key fields)
      | s :: rest => JObj (update_key s (fun v => without v rest key) fields)
      end
  | _ => t
  end.

(** ** The rest of [notificationStore.ts] *)

(** [removeNotification(id)] *)
Definition removeNotification (id : string) (st : notificationStore.NotificationState)
  : notificationStore.NotificationState :=
  {| notificationStore.notifications :=
       filter (fun n => notificationStore.id n <> id) (notificationStore.notifications st);
     notificationStore.timers := notificationStore.timers st;
     notificationStore.ticks := notificationStore.ticks st |}.

(** [clearAll()]; the timers that are pending stay pending. *)
Definition clearAll (st : notificationStore.NotificationState)
  : notificationStore.NotificationState :=
  {| notificationStore.notifications := [];
     notificationStore.timers := notificationStore.timers st;
     notificationStore.ticks := notificationStore.ticks st |}.

(** Remove the first occurrence of a pending timer. *)
Fixpoint cancel (id : string) (timers : list string) : list string :=
  match timers with
  | [] => []
  | t :: rest => if String.eqb t id then rest else t :: cancel id rest
  end.

(** The callback [addNotification] hands to [setTimeout] for a notification
    that is not an error, run when its timer fires. *)
Definition timer_fires (id : string) (st : notificationStore.NotificationState)
  : notificationStore.NotificationState :=
  {| notificationStore.notifications :=
       filter (fun n => notificationStore.id n <> id) (notificationStore.notifications st);
     notificationStore.timers := cancel id (notificationStore.timers st);
     notificationStore.ticks := notificationStore.ticks st |}.

(** The store as [create] makes it. *)
Definition no_notifications : notificationStore.NotificationState :=
  {| notificationStore.notifications := [];
     notificationStore.timers := [];
     notificationStore.ticks := 0 |}.

(** What can happen to the store: one of its three actions is called, or a
    pending timer fires. *)
Inductive store_step (Date_now : nat -> Z) (Math_random : nat -> string)
  : notificationStore.NotificationState -> notificationStore.NotificationState -> Prop :=
| step_add (ty message : string) (details : option string) st :
    store_step Date_now Math_random st
      (notificationStore.addNotification Date_now Math_random ty message details st)
| step_remove (id : string) st :
    store_step Date_now Math_random st (removeNotification id st)
| step_clear st :
    store_step Date_now Math_random st (clearAll st)
| step_timer (id : string) st :
    In id (notificationStore.timers st) ->
    store_step Date_now Math_random st (timer_fires id st).

Inductive store_reaches (Date_now : nat -> Z) (Math_random : nat -> string)
  : notificationStore.NotificationState -> Prop :=
| reach_initial : store_reaches Date_now Math_random no_notifications
| reach_step st st' :
    store_reaches Date_now Math_random st ->
    store_step Date_now Math_random st st' ->
    store_reaches Date_now Math_random st'.

(** Whether a value is [null], and whether a section has a [null]
    component, can be decided. *)
#[global] Instance null_dec (v : value) : Decision (v = JNull).
Proof. destruct v; first [by left | by right]. Defined.

#[global] Instance components_ok_dec (section : option value) :
  Decision (components_ok section).
Proof. destruct section; cbn [components_ok]; apply _. Defined.

(** ** Texts without a double quote *)

Fixpoint unquoted (s : string) : bool :=
  match s with
  | EmptyString => true
  | String c r => negb (Ascii.eqb c dquote) && unquoted r
  end.

(** The diagnostic [validateConfig] builds around a captured alias. *)
Definition referenced_by (alias : string) : string :=
  "This component is referenced by " +:+
  String dquote (alias +:+ String dquote ". Remove that reference first.").

(** The serializer round trip of [validateConfig] raises [e]. *)
Definition round_trip_raises
    (generateYAML : gmap loc cell -> hval -> outcome string)
    (yaml_load : string -> outcome unit) (h : gmap loc cell) (c : hval) (e : exn) : Prop :=
  generateYAML h c = Throws e \/
  exists yamlString, generateYAML h c = Returns yamlString /\ yaml_load yamlString = Throws e.

(** A property name that is neither [length] nor an array index: on a
    string or a sequence it names no own property. *)
Definition plain (s : string) : Prop :=
  String.eqb s "length" = false /\ index_of_key s = None.

(** A key that does not itself begin with one of the two reference
    markers. *)
Definition marker_free (key : string) : Prop :=
  String.prefix "*" key = false /\ String.prefix "__REF__" key = false.

(** ** [MemorySection]: the key of a database *)

(** [Object.entries] of a value of the store other than [null]: the members
    of an object, the elements of an array that are not holes, the
    characters of a string. *)
Fixpoint indexed_slots (i : nat) (slots : list (option hval)) : list (string * hval) :=
  match slots with
  | [] => []
  | Some x :: rest => (nat_to_string i, x) :: indexed_slots (S i) rest
  | None :: rest => indexed_slots (S i) rest
  end.

Fixpoint hchars (s : string) : list hval :=
  match s with
  | EmptyString => []
  | String c r => HStr (String c EmptyString) :: hchars r
  end.

Definition hentries (h : gmap loc cell) (v : hval) : list (string * hval) :=
  match v with
  | HRef l =>
      match h !! l with
      | Some (CObj fields) => fields
      | Some (CArr slots) => indexed_slots 0 slots
      | None => []
      end
  | HStr s => indexed 0 (hchars s)
  | HNull | HBool _ | HNum _ => []
  end.

(** [a === b] on values of the store; [undefined] is [None]. *)
Definition strict_equal (a b : option hval) : bool :=
  match a, b with
  | None, None => true
  | Some HNull, Some HNull => true
  | Some (HBool x), Some (HBool y) => Bool.eqb x y
  | Some (HNum x), Some (HNum y) => (x =? y)%Z
  | Some (HStr x), Some (HStr y) => String.eqb x y
  | Some (HRef x), Some (HRef y) => (x =? y)%positive
  | _, _ => false
  end.

(** [db.fld && configuredDb.fld === db.fld] *)
Definition same_field (h : gmap loc cell) (db configuredDb : hval) (fld : string)
  : outcome bool :=
  and_then (htruthy (hprop h db fld))
    (theirs ← hdot h (Some configuredDb) fld;
     mret (strict_equal theirs (hprop h db fld))).

(** Helper function to find database key by matching properties.
    [configured] is the value of [config.resources?.databases]. *)
Definition findDatabaseKey (h : gmap loc cell) (configured : option hval)
    (db : option hval) : outcome string :=
  (* const databases = config.resources?.databases || {}; *)
  let databases : list (string * hval) :=
    match configured with
    | Some v => if htruthy configured then hentries h v else []
    | None => []
    end in
  match db with
  | Some d =>
      if negb (htruthy db) then Returns ""
      else
        for_of_break databases (fun '(key, configuredDb) (found : string) =>
          by_instance ← same_field h d configuredDb "instance_name";
          if (by_instance : bool) then mret (Break key)
          else
            by_name ← same_field h d configuredDb "name";
            mret (if (by_name : bool) then Break key else Next found)) ""
  | None => Returns ""
  end.

(** Two configured databases with the same instance, and a third value
    naming that instance. *)
Definition two_databases : gmap loc cell :=
  fst (alloc (JObj [("primary", JObj [("name", JStr "orders");
                                      ("instance_name", JStr "lakebase-1")]);
                    ("replica", JObj [("name", JStr "orders-replica");
                                      ("instance_name", JStr "lakebase-2")])]) ∅).
Definition two_databases_root : hval :=
  snd (alloc (JObj [("primary", JObj [("name", JStr "orders");
                                      ("instance_name", JStr "lakebase-1")]);
                    ("replica", JObj [("name", JStr "orders-replica");
                                      ("instance_name", JStr "lakebase-2")])]) ∅).

(** ** Documents, serializers and states for the examples *)

(** A document whose one agent is [null]. *)
Definition null_agent : value := JObj [("agents", JObj [("ghost", JNull)])].

(** A tool that merges the function [find_order]. *)
Definition merged_tool : value :=
  JObj [("tools",
         JObj [("lookup",
                JObj [("name", JStr "lookup");
                      ("function", JObj [("__MERGE__", JStr "find_order");
                                         ("type", JStr "unity_catalog")])])])].

(** An agent that lists the tool [search] twice, in two forms. *)
Definition twice_listed : value :=
  JObj [("tools", JObj [("search", JObj [("name", JStr "search")])]);
        ("agents",
         JObj [("helper",
                JObj [("tools", JArr [JStr "*search"; JStr "search"])])])].

(** A document with a memory configuration that an agent refers to by
    alias, as objects of an otherwise empty store. *)
Definition with_memory : value :=
  JObj [("memory", JObj [("refName", JStr "memory");
                         ("checkpointer", JObj [("name", JStr "checkpoints")])]);
        ("agents", JObj [("helper", JObj [("memory", JStr "*memory")])])].

Definition memory_world : World :=
  {| objects := fst (alloc with_memory ∅); config := snd (alloc with_memory ∅);
     notes := {| notificationStore.notifications := [];
                 notificationStore.timers := [];
                 notificationStore.ticks := 0 |} |}.

(** A deletion callback that removes the memory configuration from the
    live document. *)
Definition forget_memory (w : World) : World * outcome unit :=
  match delete_property (objects w) (config w) "memory" with
  | Returns h => ({| objects := h; config := config w; notes := notes w |}, Returns tt)
  | Throws e => (w, Throws e)
  end.

(** An application that lists two agents, the second one expanded. *)
Definition listed_agent : value :=
  JObj [("agents", JObj [("helper", JObj [("name", JStr "helper")])]);
        ("app", JObj [("agents", JArr [JStr "planner"; JObj [("name", JStr "helper")]])])].

(** A serializer that writes the same text whatever the document, and a
    parser that reports a dangling alias in capitals. *)
Definition fixed_yaml (h : gmap loc cell) (config : hval) : outcome string :=
  Returns "model: *gpt_a".

Definition shouting_parser (s : string) : outcome unit :=
  Throws (JsError ("line 1: UNDEFINED Alias " +:+
                   String dquote ("gpt_a" +:+ String dquote " (1:8)"))).

(** The database configured as [replica], as the store holds it. *)
Definition replica_db : hval :=
  default HNull (hprop two_databases two_databases_root "replica").

(** The store after one success notification. *)
Definition one_saved : notificationStore.NotificationState :=
  notificationStore.addNotification epoch constant_suffix "success" "Saved" None
    no_notifications.

(** * Properties *)

(** ** [JSON.parse] inverts [JSON.stringify] *)

Lemma append_assoc (a b c : string) : (a +:+ b) +:+ c = a +:+ (b +:+ c).
Proof. induction a as [|x a IH]; [reflexivity | simpl; by f_equal]. Qed.

Lemma length_append (a b : string) :
  String.length (a +:+ b) = (String.length a + String.length b)%nat.
Proof. induction a as [|x a IH]; [reflexivity | simpl; by f_equal]. Qed.

Lemma pos_to_uint_literal (p : positive) : int_literal (Pos.to_uint p) = true.
Proof.
  pose proof (DecimalPos.Unsigned.to_of (Pos.to_uint p)) as Hnorm.
  rewrite DecimalPos.Unsigned.of_to in Hnorm. simpl in Hnorm.
  pose proof (DecimalPos.Unsigned.to_uint_nonzero p) as Hnz.
  pose proof (DecimalPos.Unsigned.to_uint_nonnil p) as Hnn.
  destruct (Pos.to_uint p) as [|u|u|u|u|u|u|u|u|u|u] eqn:E; try reflexivity.
  - congruence.
  - exfalso. rewrite unorm_D0 in Hnorm. unfold Decimal.unorm in Hnorm.
    destruct (Decimal.nzhead u) eqn:Hu; try discriminate.
    + injection Hnorm as ->. by apply Hnz.
    + injection Hnorm as Heq. subst. by eapply nzhead_nonzero.
Qed.

Lemma read_digits_delimited (rest : string) :
  delimited rest = true -> read_digits rest = (Decimal.Nil, rest).
Proof.
  destruct rest as [|c r]; [reflexivity|]. unfold delimited, is_digit. simpl.
  by destruct (digit_cons c).
Qed.

Lemma read_digits_uint (u : Decimal.uint) (rest : string) :
  delimited rest = true ->
  read_digits (NilEmpty.string_of_uint u +:+ rest) = (u, rest).
Proof.
  intros Hd. induction u; simpl; rewrite ?IHu; auto using read_digits_delimited.
Qed.

Lemma string_of_pos_uint (p : positive) :
  NilZero.string_of_uint (Pos.to_uint p) = NilEmpty.string_of_uint (Pos.to_uint p).
Proof.
  pose proof (DecimalPos.Unsigned.to_uint_nonnil p).
  by destruct (Pos.to_uint p).
Qed.

Lemma parse_number_stringify (n : Z) (rest : string) :
  delimited rest = true ->
  parse_number (number_to_string n +:+ rest) = Some (JNum n, rest).
Proof.
  intros Hd. unfold number_to_string.
  rewrite <- (DecimalZ.of_to n) at 2.
  destruct n as [|p|p]; simpl Z.to_int; unfold NilZero.string_of_int.
  - simpl. by rewrite read_digits_delimited.
  - rewrite string_of_pos_uint.
    assert (Hhead : forall c r, NilEmpty.string_of_uint (Pos.to_uint p) +:+ rest = String c r ->
                                c <> "-"%char).
    { pose proof (DecimalPos.Unsigned.to_uint_nonnil p).
      destruct (Pos.to_uint p); simpl; try congruence; intros c r [= <- _]; discriminate. }
    unfold parse_number.
    destruct (NilEmpty.string_of_uint (Pos.to_uint p) +:+ rest) as [|c r] eqn:E.
    + rewrite <- E, read_digits_uint, pos_to_uint_literal by done. done.
    + specialize (Hhead c r eq_refl).
      assert (Hgo : read_digits (String c r) = (Pos.to_uint p, rest))
        by (rewrite <- E; by apply read_digits_uint).
      destruct c as [[] [] [] [] [] [] [] []]; try congruence;
        rewrite Hgo, pos_to_uint_literal; reflexivity.
  - rewrite string_of_pos_uint. simpl.
    by rewrite read_digits_uint, pos_to_uint_literal.
Qed.

Lemma parse_chars_escape_char (c : ascii) (t : string) :
  parse_chars (escape_char c +:+ t) =
  match parse_chars t with
  | Some (str, rest) => Some (String c str, rest)
  | None => None
  end.
Proof. destruct c as [[] [] [] [] [] [] [] []]; reflexivity. Qed.

Lemma parse_chars_escape (s rest : string) :
  parse_chars (escape s +:+ String dquote rest) = Some (s, rest).
Proof.
  induction s as [|c s IH]; [reflexivity|].
  simpl escape. by rewrite append_assoc, parse_chars_escape_char, IH.
Qed.

Lemma quote_append (k rest : string) :
  quote k +:+ rest = String dquote (escape k +:+ String dquote rest).
Proof. unfold quote. simpl. by rewrite append_assoc. Qed.

Lemma number_head (n : Z) (t : string) :
  exists c r, number_to_string n +:+ t = String c r /\
              (is_digit c || Ascii.eqb c "-") = true.
Proof.
  unfold number_to_string.
  destruct n as [|p|p]; simpl Z.to_int; unfold NilZero.string_of_int.
  - by eexists _, _.
  - rewrite string_of_pos_uint.
    pose proof (DecimalPos.Unsigned.to_uint_nonnil p).
    destruct (Pos.to_uint p); try congruence; by eexists _, _.
  - by eexists _, _.
Qed.

Lemma parse_value_number_head (fuel : nat) (c : ascii) (r : string) :
  (is_digit c || Ascii.eqb c "-") = true ->
  parse_value (S fuel) (String c r) = parse_number (String c r).
Proof. destruct c as [[] [] [] [] [] [] [] []]; try discriminate; reflexivity. Qed.

Lemma stringify_head (v : value) (t : string) :
  exists c r, stringify v +:+ t = String c r /\
              Ascii.eqb c "]" = false /\ Ascii.eqb c "}" = false.
Proof.
  destruct v as [|[]|n|s|[|x tl]|[|[k x] tl]]; try by eexists _, _.
  destruct (number_head n t) as (c & r & E & Hc).
  exists c, r. split; [exact E|].
  destruct c as [[] [] [] [] [] [] [] []]; try discriminate; done.
Qed.

Lemma parse_elements_stringify (rest : string) (tl : list value) :
  forall (x : value) (fuel : nat),
    parses_back x -> Forall parses_back tl ->
    (S (weight x + weight_elements weight tl) <= fuel)%nat ->
    parse_elements fuel (stringify x +:+ elements_tail stringify tl +:+ rest)
    = Some (x :: tl, rest).
Proof.
  induction tl as [|y tl IH]; intros x fuel Hx Htl Hw;
    (destruct fuel as [|fuel]; [lia|]); simpl parse_elements.
  - rewrite Hx by (done || simpl in Hw; lia). done.
  - rewrite Hx by (done || simpl in Hw; lia).
    simpl. rewrite append_assoc.
    inversion Htl as [|? ? Hy Htl']; subst.
    rewrite IH by (done || simpl in Hw; lia). done.
Qed.

Lemma parse_members_stringify (rest : string) (tl : list (string * value)) :
  forall (k : string) (x : value) (fuel : nat),
    parses_back x -> Forall (fun kv => parses_back (snd kv)) tl ->
    (S (weight x + weight_members weight tl) <= fuel)%nat ->
    parse_members fuel
      (quote k +:+ ":" +:+ stringify x +:+ members_tail stringify tl +:+ rest)
    = Some ((k, x) :: tl, rest).
Proof.
  induction tl as [|[k' y] tl IH]; intros k x fuel Hx Htl Hw;
    (destruct fuel as [|fuel]; [lia|]);
    rewrite quote_append; simpl parse_members; rewrite parse_chars_escape; simpl.
  - rewrite Hx by (done || simpl in Hw; lia). done.
  - rewrite Hx by (done || simpl in Hw; lia).
    simpl. rewrite !append_assoc. simpl. rewrite !append_assoc.
    inversion Htl as [|? ? Hy Htl']; subst.
    assert (Hrec := IH k' y fuel Hy Htl').
    rewrite quote_append in Hrec. simpl in Hrec.
    rewrite Hrec by (simpl in Hw; lia). done.
Qed.

Lemma parse_value_stringify (v : value) : parses_back v.
Proof.
  induction v as [| b | n | s | items IH | fields IH] using value_ind';
    intros fuel rest Hd Hw; (destruct fuel as [|fuel]; [simpl in Hw; lia|]).
  - reflexivity.
  - by destruct b.
  - destruct (number_head n rest) as (c & r & E & Hc). simpl stringify.
    rewrite E, parse_value_number_head by done.
    rewrite <- E. by apply parse_number_stringify.
  - simpl stringify. rewrite quote_append. simpl.
    by rewrite parse_chars_escape.
  - destruct items as [|x tl]; [reflexivity|].
    inversion IH as [|? ? Hx Htl]; subst.
    simpl stringify. simpl String.append. rewrite append_assoc.
    pose proof (parse_elements_stringify rest tl x fuel Hx Htl) as Hel.
    destruct (stringify_head x (elements_tail stringify tl +:+ rest))
      as (c & r & E & Hc & _).
    rewrite E in *. simpl. rewrite Hc, Hel by (simpl in Hw; lia). done.
  - destruct fields as [|[k x] tl]; [reflexivity|].
    inversion IH as [|? ? Hx Htl]; subst.
    simpl stringify. simpl String.append. rewrite !append_assoc.
    simpl String.append. rewrite !append_assoc.
    pose proof (parse_members_stringify rest tl k x fuel Hx Htl) as Hel.
    rewrite quote_append in *. simpl in Hel |- *.
    rewrite Hel by (simpl in Hw; lia). done.
Qed.

Lemma append_empty_r (s : string) : s +:+ "" = s.
Proof. induction s as [|c s IH]; [reflexivity | simpl; by f_equal]. Qed.

Lemma weight_elements_length (tl : list value) :
  Forall (fun v => (weight v <= String.length (stringify v))%nat) tl ->
  (S (weight_elements weight tl) <= String.length (elements_tail stringify tl))%nat.
Proof.
  induction 1 as [|y tl Hy _ IH]; simpl; [lia|].
  rewrite length_append. lia.
Qed.

Lemma weight_members_length (tl : list (string * value)) :
  Forall (fun kv => (weight (snd kv) <= String.length (stringify (snd kv)))%nat) tl ->
  (S (weight_members weight tl) <= String.length (members_tail stringify tl))%nat.
Proof.
  induction 1 as [|[k y] tl Hy _ IH]; simpl in *; [lia|].
  rewrite !length_append. simpl. rewrite length_append. lia.
Qed.

Lemma weight_le_length (v : value) :
  (weight v <= String.length (stringify v))%nat.
Proof.
  induction v as [| b | n | s | items IH | fields IH] using value_ind'.
  - simpl. lia.
  - destruct b; simpl; lia.
  - destruct (number_head n "") as (c & r & E & _).
    rewrite append_empty_r in E. simpl. rewrite E. simpl. lia.
  - simpl. lia.
  - destruct items as [|x tl]; [simpl; lia|].
    inversion IH as [|? ? Hx Htl]; subst.
    apply weight_elements_length in Htl.
    simpl. rewrite length_append. lia.
  - destruct fields as [|[k x] tl]; [simpl; lia|].
    inversion IH as [|? ? Hx Htl]; subst.
    apply weight_members_length in Htl.
    simpl in *. rewrite !length_append. simpl. rewrite length_append. lia.
Qed.

(** The deep copy idiom [JSON.parse(JSON.stringify(v))] returns the tree it
    was given. *)
Lemma JSON_parse_stringify (v : value) : JSON_parse (stringify v) = Returns v.
Proof.
  unfold JSON_parse.
  pose proof (parse_value_stringify v (S (String.length (stringify v))) "" eq_refl) as H.
  rewrite append_empty_r in H. rewrite H; [done|].
  pose proof (weight_le_length v). lia.
Qed.

(** Two trees with the same text are the same tree. *)
Lemma stringify_inj (a b : value) : stringify a = stringify b -> a = b.
Proof.
  intros E. pose proof (JSON_parse_stringify a) as Ha.
  rewrite E, JSON_parse_stringify in Ha. congruence.
Qed.

(** ** Reference Codec *)

Lemma string_eqb_true (a b : string) : String.eqb a b = true <-> a = b.
Proof. apply String.eqb_eq. Qed.

(** C3, as amended: [valueContainsRef] accepts exactly the wrapped marker,
    the alias marker and the bare key; a component's [name] field is never
    consulted, so a bare string is recognised exactly when it equals the
    key. *)
Theorem valueContainsRef_forms (v : option value) (refKey : string) :
  valueContainsRef v refKey = true <->
  v = Some (JStr ("__REF__" +:+ refKey)) \/
  v = Some (JStr ("*" +:+ refKey)) \/
  v = Some (JStr refKey).
Proof.
  unfold valueContainsRef. split.
  - destruct v as [[| | |s| |]|]; try discriminate.
    destruct (String.eqb_spec s ("__REF__" +:+ refKey)) as [->|]; [auto|].
    destruct (String.eqb_spec s ("*" +:+ refKey)) as [->|]; [auto|].
    destruct (String.eqb_spec s refKey) as [->|]; [auto|]. discriminate.
  - intros [-> | [-> | ->]].
    + by rewrite String.eqb_refl.
    + rewrite String.eqb_refl. by rewrite orb_true_r.
    + rewrite String.eqb_refl. by destruct (_ || _).
Qed.

(** C3, as stated, fails: the string equal to [gpt_a]'s [name] is not
    recognised as a reference to it. *)
Lemma valueContainsRef_ignores_name :
  ~ (valueContainsRef (Some (JStr "shared-endpoint")) "gpt_a" = true <->
     "shared-endpoint" = "gpt_a" \/ prop gpt_a "name" = Some (JStr "shared-endpoint")).
Proof. intros [_ H]. specialize (H (or_intror eq_refl)). discriminate. Qed.

Lemma get_not_null (D : value) (k : string) :
  D <> JNull -> get D k = Returns (prop D k).
Proof. by destruct D. Qed.

Lemma qdot_some (D : value) (k : string) : D <> JNull -> qdot (Some D) k = prop D k.
Proof. by destruct D. Qed.

(** A read by a computed key, through the read of own properties. *)
Lemma qindex_qdot (o : option value) (k : string) :
  qindex o k =
  match qdot o k with
  | Some x => Some (Own x)
  | None =>
      if String.eqb k "__proto__" then
        match o with
        | Some v => Inherited <$> getPrototypeOf v
        | None => None
        end
      else None
  end.
Proof.
  destruct o as [v|]; [|by destruct (String.eqb k _)].
  destruct v; cbn [qindex qdot]; try reflexivity.
  by destruct (String.eqb k _).
Qed.

(** The [switch] of [objectMatchesKey] reads the section the data model
    places the category in; a category it does not list yields [null]. *)
Lemma configuredResource_component (D : value) (c k : string) :
  D <> JNull ->
  configuredResource D c k =
  Returns (match section_path c with
           | Some _ => found D c k
           | None => Some (Own JNull)
           end).
Proof.
  intros HD. unfold configuredResource, found, inherited, component, section_path.
  cbv zeta.
  repeat (destruct (String.eqb c _);
          [rewrite get_not_null by done;
           cbn [lookup_path List.app mbind outcome_bind mret outcome_ret];
           rewrite qindex_qdot, ?qdot_some by done;
           destruct (qdot _ k); [reflexivity|];
           destruct (String.eqb k _); [|reflexivity];
           by destruct (qdot _ _) || by destruct (prop _ _) |]).
  reflexivity.
Qed.

Lemma objectMatchesKey_component (o : value) (k : string) (D : value) (c : string) :
  D <> JNull ->
  objectMatchesKey (Some o) k D c =
  Returns (is_object (Some o) &&
           match component D c k with
           | Some cr => truthy (Some cr) && String.eqb (stringify o) (stringify cr)
           | None =>
               match inherited D c k with
               | Some p => String.eqb (stringify o) (stringify_prototype p)
               | None => false
               end
           end).
Proof.
  intros HD. unfold objectMatchesKey.
  destruct (is_object (Some o)) eqn:Hobj.
  - assert (truthy (Some o) = true) as -> by by destruct o.
    assert (typeof_object (Some o) = true) as -> by by destruct o.
    cbn [negb orb andb]. rewrite configuredResource_component by done.
    cbn [mbind outcome_bind]. unfold found, inherited, component.
    destruct (section_path c) as [p|]; [|reflexivity].
    destruct (lookup_path _ (p ++ [k])) as [cr|].
    + cbn [member_truthy]. destruct (truthy (Some cr)) eqn:E; reflexivity.
    + destruct (String.eqb k _); [|reflexivity].
      destruct (lookup_path _ p) as [section|]; [|reflexivity].
      by destruct (getPrototypeOf section).
  - destruct o as [|[]|n|s| |]; try discriminate; try reflexivity;
      cbn [truthy typeof_object negb]; by rewrite orb_true_r.
Qed.

Lemma objectMatchesKey_same_text (o : value) (k : string) (D : value) (c : string) :
  D <> JNull ->
  objectMatchesKey (Some o) k D c = Returns (is_object (Some o) && same_text D c k o).
Proof. intros HD. by rewrite objectMatchesKey_component. Qed.

Lemma objectMatchesKey_undefined (k : string) (D : value) (c : string) :
  objectMatchesKey None k D c = Returns false.
Proof. reflexivity. Qed.

(** Nothing is inherited under a key other than [__proto__]. *)
Lemma inherited_none (D : value) (c k : string) :
  k <> "__proto__" -> inherited D c k = None.
Proof.
  intros Hk. unfold inherited. destruct (section_path c); [|done].
  by destruct (String.eqb_spec k "__proto__").
Qed.




(** C2, as amended: the comparison is on the [JSON.stringify] texts, which
    follow the order of the keys.  When the configured value is a mapping,
    [objectMatchesKey] returns [true] exactly for the candidate that is the
    same tree, keys in the same order. *)
Theorem objectMatchesKey_same_tree (v : option value) (k : string) (D : value)
    (c : string) (fields : list (string * value)) :
  D <> JNull ->
  component D c k = Some (JObj fields) ->
  objectMatchesKey v k D c = Returns true <-> v = Some (JObj fields).
Proof.
  intros HD Hc. destruct v as [o|]; [|split; discriminate].
  rewrite objectMatchesKey_component, Hc by done. simpl truthy. split.
  - intros [= H]. apply andb_prop in H as [_ H].
    apply String.eqb_eq in H. apply (stringify_inj o (JObj fields)) in H. by subst.
  - intros [= ->]. by rewrite String.eqb_refl.
Qed.

Lemma objectMatchesKey_same_tree_witness :
  objectMatchesKey (Some gpt_a) "gpt_a" two_llms "llm" = Returns true.
Proof.
  apply (objectMatchesKey_same_tree (Some gpt_a) "gpt_a" two_llms "llm"
           [("name", JStr "shared-endpoint"); ("temperature", JNum 1)]);
    [discriminate | reflexivity | reflexivity].
Defined.

(** C2, as stated, fails: a candidate equal to the configured mapping up to
    the order of its keys is not matched. *)
Lemma objectMatchesKey_key_order :
  ~ (component two_llms "llm" "gpt_a" = Some gpt_a ->
     deep_equal gpt_a_reordered gpt_a = true ->
     objectMatchesKey (Some gpt_a_reordered) "gpt_a" two_llms "llm" = Returns true).
Proof. intros H. specialize (H eq_refl eq_refl). discriminate. Qed.

(** ** Dependency Finder: the loops as list functions *)

Lemma refers_returns (D : value) (x : option value) (key kind : string) :
  D <> JNull -> refers D x key kind = Returns (refers_to D x key kind).
Proof.
  intros HD. unfold refers, refers_to, or_else.
  destruct (valueContainsRef x key); [reflexivity|].
  destruct x as [o|]; [|reflexivity].
  by rewrite objectMatchesKey_same_text.
Qed.

Lemma dot_not_null (item : value) (k : string) :
  item <> JNull -> dot (Some item) k = Returns (prop item k).
Proof. by destruct item. Qed.

Lemma for_field_loop (D : value) (kind fld key refKind : string)
    (es : list (string * value)) :
  D <> JNull ->
  Forall (fun kv => snd kv <> JNull) es ->
  forall deps,
    for_of es (fun '(k, item) deps =>
      x ← dot (Some item) fld;
      hit ← refers D x key refKind;
      mret (if (hit : bool) then push deps {| type := kind; name := k; field := fld |}
            else deps)) deps
    = Returns (deps ++ field_hits D es kind fld key refKind)%list.
Proof.
  intros HD Hes. induction Hes as [|[k item] es Hitem _ IH]; intros deps.
  - simpl. by rewrite app_nil_r.
  - cbn [for_of]. rewrite dot_not_null by done. cbn [mbind outcome_bind].
    rewrite refers_returns by done. cbn [mbind outcome_bind mret outcome_ret].
    rewrite IH. unfold field_hits at 2. cbn [flat_map].
    fold (field_hits D es kind fld key refKind).
    destruct (refers_to D (prop item fld) key refKind); unfold push;
      by rewrite <- ?List.app_assoc.
Qed.

Lemma for_field_returns (D : value) (section : option value)
    (kind fld key refKind : string) (deps : list DependencyInfo) :
  D <> JNull -> components_ok section ->
  for_field D section kind fld key refKind deps =
  Returns (deps ++ section_hits D section kind fld key refKind)%list.
Proof.
  intros HD Hok. unfold for_field, section_hits.
  destruct section as [s|]; [|by rewrite app_nil_r].
  destruct (truthy (Some s)) eqn:Ht; [|by rewrite app_nil_r].
  assert (Object_entries (Some s) = Returns (entries s)) as -> by by destruct s.
  cbn [mbind outcome_bind]. by apply for_field_loop.
Qed.

Lemma for_part_returns (D : value) (part : option value)
    (kind part_name fld key refKind : string) (deps : list DependencyInfo) :
  D <> JNull ->
  for_part D part kind part_name fld key refKind deps =
  Returns (deps ++ part_hits D part kind part_name fld key refKind)%list.
Proof.
  intros HD. unfold for_part, part_hits.
  destruct part as [p|]; [|by rewrite app_nil_r].
  destruct (truthy (Some p)) eqn:Ht; [|by rewrite app_nil_r].
  rewrite dot_not_null by (by destruct p). cbn [mbind outcome_bind].
  rewrite refers_returns by done. cbn [mbind outcome_bind mret outcome_ret andb].
  destruct (refers_to _ _ _ _); unfold push; by rewrite ?app_nil_r.
Qed.

(** [findLlmDependencies] on a document whose agents, guardrails and vector
    stores are all components: the hits of its five sites, in order. *)
Lemma findLlmDependencies_returns (D : value) (llmKey : string) :
  D <> JNull ->
  components_ok (prop D "agents") ->
  components_ok (prop D "guardrails") ->
  components_ok (qdot (prop D "resources") "vector_stores") ->
  findLlmDependencies D llmKey =
  Returns
    (section_hits D (prop D "agents") "agent" "model" llmKey "llm" ++
     section_hits D (prop D "guardrails") "guardrail" "model" llmKey "llm" ++
     part_hits D (qdot (prop D "memory") "store")
       "memory" "store" "embedding_model" llmKey "llm" ++
     part_hits D (qdot (qdot (prop D "app") "orchestration") "supervisor")
       "orchestration" "supervisor" "model" llmKey "llm" ++
     section_hits D (qdot (prop D "resources") "vector_stores")
       "vector_store" "embedding_model" llmKey "llm")%list.
Proof.
  intros HD Ha Hg Hv. unfold findLlmDependencies.
  rewrite !get_not_null by done. cbn [mbind outcome_bind].
  rewrite for_field_returns by done. cbn [mbind outcome_bind].
  rewrite for_field_returns by done. cbn [mbind outcome_bind].
  rewrite for_part_returns by done. cbn [mbind outcome_bind].
  rewrite for_part_returns by done. cbn [mbind outcome_bind].
  rewrite for_field_returns by done.
  by rewrite <- !List.app_assoc.
Qed.

Lemma falsy_components_ok (section : option value) :
  truthy section = false -> components_ok section.
Proof.
  destruct section as [[| [] | n | s | |]|]; try discriminate; try constructor.
  destruct s; [constructor | discriminate].
Qed.

Lemma section_hits_falsy (D : value) (section : option value)
    (kind fld key refKind : string) :
  truthy section = false -> section_hits D section kind fld key refKind = [].
Proof. intros H. unfold section_hits. rewrite H. by destruct section. Qed.

Lemma part_hits_falsy (D : value) (part : option value)
    (kind part_name fld key refKind : string) :
  truthy part = false -> part_hits D part kind part_name fld key refKind = [].
Proof. intros H. unfold part_hits. rewrite H. by destruct part. Qed.

Lemma object_not_string_ref (o : value) (key : string) :
  is_object (Some o) = true -> valueContainsRef (Some o) key = false.
Proof. by destruct o. Qed.

Lemma object_truthy (o : value) : is_object (Some o) = true -> truthy (Some o) = true.
Proof. by destruct o. Qed.

(** C9: two LLM resources that share their [name] and differ in another
    attribute, and one agent whose [model] holds the first one expanded (no
    other LLM site of the document being populated): the finder reports
    nothing for the second resource and the agent, field [model], for the
    first. *)
Theorem findLlmDependencies_name_collision
    (D : value) (ka kb ak : string) (agent va vb : value) (attr : string) :
  prop D "agents" = Some (JObj [(ak, agent)]) ->
  prop agent "model" = Some va ->
  is_object (Some va) = true ->
  component D "llm" ka = Some va ->
  component D "llm" kb = Some vb ->
  prop va "name" = Some (JStr "shared-endpoint") ->
  prop vb "name" = Some (JStr "shared-endpoint") ->
  prop va attr <> prop vb attr ->
  truthy (prop D "guardrails") = false ->
  truthy (qdot (prop D "memory") "store") = false ->
  truthy (qdot (qdot (prop D "app") "orchestration") "supervisor") = false ->
  truthy (qdot (prop D "resources") "vector_stores") = false ->
  findLlmDependencies D kb = Returns [] /\
  findLlmDependencies D ka = Returns [{| type := "agent"; name := ak; field := "model" |}].
Proof.
  intros Hagents Hmodel Hobj Ha Hb _ _ Hattr Hg Hs Hsup Hvs.
  assert (HD : D <> JNull) by (intros ->; discriminate).
  assert (Hagent : agent <> JNull) by (intros ->; discriminate).
  assert (Hne : va <> vb) by (intros ->; by apply Hattr).
  assert (Hall : forall k,
             findLlmDependencies D k =
             Returns (if refers_to D (Some va) k "llm"
                      then [{| type := "agent"; name := ak; field := "model" |}]
                      else [])).
  { intros k. rewrite findLlmDependencies_returns; try done.
    - rewrite (section_hits_falsy _ (prop D "guardrails")),
        (section_hits_falsy _ (qdot _ _)), !part_hits_falsy by done.
      rewrite Hagents. unfold section_hits, field_hits.
      cbn [truthy entries flat_map snd]. rewrite Hmodel.
      rewrite !app_nil_r. reflexivity.
    - rewrite Hagents. by repeat constructor.
    - by apply falsy_components_ok.
    - by apply falsy_components_ok. }
  rewrite !Hall. unfold refers_to, same_text.
  rewrite !object_not_string_ref, Ha, Hb, Hobj by done. cbn [orb andb].
  rewrite String.eqb_refl, (object_truthy va), andb_true_r by done.
  destruct (String.eqb_spec (stringify va) (stringify vb)) as [E|_].
  - by apply stringify_inj in E.
  - by rewrite andb_false_r.
Qed.

Lemma findLlmDependencies_name_collision_witness :
  findLlmDependencies two_llms "gpt_b" = Returns [] /\
  findLlmDependencies two_llms "gpt_a" =
  Returns [{| type := "agent"; name := "helper"; field := "model" |}].
Proof.
  apply (findLlmDependencies_name_collision two_llms "gpt_a" "gpt_b" "helper"
           (JObj [("name", JStr "helper"); ("model", gpt_a)]) gpt_a gpt_b "temperature");
    try reflexivity.
  discriminate.
Defined.

(** ** The store: allocation and reading *)

Lemma fresh_val_weaken (h h' : gmap loc cell) (v : hval) :
  h ⊆ h' -> fresh_val h' v -> fresh_val h v.
Proof.
  destruct v; simpl; auto. intros Hsub Hn. by eapply lookup_weaken_None.
Qed.

Lemma fresh_cell_weaken (h h' : gmap loc cell) (c : cell) :
  h ⊆ h' -> fresh_cell h' c -> fresh_cell h c.
Proof.
  intros Hsub. destruct c as [slots|props]; simpl; intros H;
    (eapply Forall_impl; [exact H|]).
  - intros [v|]; eauto using fresh_val_weaken.
  - intros kv. by apply fresh_val_weaken.
Qed.

Lemma extends_apart_trans (h h1 h2 : gmap loc cell) :
  extends_apart h h1 -> extends_apart h1 h2 -> extends_apart h h2.
Proof.
  intros [Hs1 Hn1] [Hs2 Hn2]. split; [by etrans|].
  intros l c Hl Hc. destruct (h1 !! l) as [c'|] eqn:E.
  - assert (h2 !! l = Some c') by (by eapply lookup_weaken). 
    assert (c' = c) by congruence. subst. eauto.
  - eapply fresh_cell_weaken; eauto.
Qed.

Lemma extends_apart_insert (h h' : gmap loc cell) (c : cell) :
  extends_apart h h' -> fresh_cell h c ->
  extends_apart h (<[fresh (dom h') := c]> h') /\ h !! fresh (dom h') = None.
Proof.
  intros [Hs Hn] Hc.
  assert (Hfresh : h' !! fresh (dom h') = None)
    by (apply not_elem_of_dom, is_fresh).
  assert (Hh : h !! fresh (dom h') = None) by (by eapply lookup_weaken_None).
  split; [split|done].
  - etrans; [exact Hs|]. by apply insert_subseteq.
  - intros l c' Hl Hc'. destruct (decide (fresh (dom h') = l)) as [<-|Hne].
    + rewrite lookup_insert_eq in Hc'. congruence.
    + rewrite lookup_insert_ne in Hc' by done. eauto.
Qed.

Lemma has_new_cells_insert (h h' g : gmap loc cell) (c : cell) :
  h ⊆ h' ->
  has_new_cells h (<[fresh (dom h') := c]> h') g ->
  has_new_cells h h' g /\ g !! fresh (dom h') = Some c.
Proof.
  intros Hs Hg.
  assert (Hfresh : h' !! fresh (dom h') = None)
    by (apply not_elem_of_dom, is_fresh).
  split.
  - intros l c' Hl Hc'. apply Hg; [done|].
    rewrite lookup_insert_ne; [done|]. intros <-. congruence.
  - apply Hg; [by eapply lookup_weaken_None | by rewrite lookup_insert_eq].
Qed.


Lemma has_new_cells_split (h h1 h2 g : gmap loc cell) :
  h ⊆ h1 -> h1 ⊆ h2 -> has_new_cells h h2 g ->
  has_new_cells h h1 g /\ has_new_cells h1 h2 g.
Proof.
  intros Hs1 Hs2 Hg. split; intros l c Hl Hc.
  - apply Hg; [done | by eapply lookup_weaken].
  - apply Hg; [by eapply lookup_weaken_None | done].
Qed.

Lemma extends_apart_refl (h : gmap loc cell) : extends_apart h h.
Proof. split; [done|]. intros l c Hl Hc. congruence. Qed.

Lemma alloc_items_spec (items : list value) :
  Forall alloc_spec items ->
  forall (h h' : gmap loc cell) (slots : list (option hval)),
    alloc_items alloc items h = (h', slots) ->
    extends_apart h h' /\
    Forall (fun s => match s with Some v => fresh_val h v | None => True end) slots /\
    forall (g : gmap loc cell) (fuel : nat),
      has_new_cells h h' g -> (depth_items depth items <= fuel)%nat ->
      option_all (fun slot => match slot with
                              | Some x => snapshot fuel g x
                              | None => Some JNull
                              end) slots = Some items.
Proof.
  induction 1 as [|x items Hx _ IH]; intros h h' slots Halloc; simpl in Halloc.
  - injection Halloc as <- <-. auto using extends_apart_refl.
  - destruct (alloc x h) as [h1 v] eqn:Ex.
    destruct (alloc_items alloc items h1) as [h2 vs] eqn:Eitems.
    injection Halloc as <- <-.
    destruct (Hx _ _ _ Ex) as (Hext1 & Hv & Hsnap1).
    destruct (IH _ _ _ Eitems) as (Hext2 & Hvs & Hsnap2).
    split; [by eapply extends_apart_trans|]. split.
    + constructor; [done|]. eapply Forall_impl; [exact Hvs|].
      intros [w|]; [|done]. apply fresh_val_weaken, Hext1.
    + intros g fuel Hg Hfuel.
      change (Nat.max (depth x) (depth_items depth items) <= fuel)%nat in Hfuel.
      destruct (has_new_cells_split h h1 h2 g) as [Hg1 Hg2];
        [apply Hext1 | apply Hext2 | done |].
      cbn [option_all]. rewrite Hsnap1 by (done || lia).
      rewrite Hsnap2 by (done || lia). done.
Qed.

Lemma alloc_fields_spec (fields : list (string * value)) :
  Forall (fun kv => alloc_spec (snd kv)) fields ->
  forall (h h' : gmap loc cell) (props : list (string * hval)),
    alloc_fields alloc fields h = (h', props) ->
    extends_apart h h' /\
    Forall (fun kv => fresh_val h (snd kv)) props /\
    forall (g : gmap loc cell) (fuel : nat),
      has_new_cells h h' g -> (depth_fields depth fields <= fuel)%nat ->
      option_all (fun kv => match snapshot fuel g (snd kv) with
                            | Some t => Some (fst kv, t)
                            | None => None
                            end) props = Some fields.
Proof.
  induction 1 as [|[k x] fields Hx _ IH]; intros h h' props Halloc; simpl in Halloc.
  - injection Halloc as <- <-. auto using extends_apart_refl.
  - destruct (alloc x h) as [h1 v] eqn:Ex.
    destruct (alloc_fields alloc fields h1) as [h2 vs] eqn:Efields.
    injection Halloc as <- <-.
    destruct (Hx _ _ _ Ex) as (Hext1 & Hv & Hsnap1).
    destruct (IH _ _ _ Efields) as (Hext2 & Hvs & Hsnap2).
    split; [by eapply extends_apart_trans|]. split.
    + constructor; [done|]. eapply Forall_impl; [exact Hvs|].
      intros kv. apply fresh_val_weaken, Hext1.
    + intros g fuel Hg Hfuel.
      change (Nat.max (depth x) (depth_fields depth fields) <= fuel)%nat in Hfuel.
      destruct (has_new_cells_split h h1 h2 g) as [Hg1 Hg2];
        [apply Hext1 | apply Hext2 | done |].
      cbn [snd] in Hsnap1.
      cbn [option_all snd fst]. rewrite Hsnap1 by (done || lia).
      rewrite Hsnap2 by (done || lia). done.
Qed.

(** [alloc] extends the store by cells that do not point into the old one,
    returns a value that does not either, and that value reads back as the
    tree in any store that has the new cells. *)
Lemma alloc_correct (t : value) : alloc_spec t.
Proof.
  induction t as [| b | n | s | items IH | fields IH] using value_ind';
    intros h h' v Halloc; simpl in Halloc;
    try (injection Halloc as <- <-; split; [apply extends_apart_refl|];
         split; [done|]; intros g [|fuel] _ _; reflexivity).
  - destruct (alloc_items alloc items h) as [h1 slots] eqn:E.
    injection Halloc as <- <-.
    destruct (alloc_items_spec items IH _ _ _ E) as (Hext & Hslots & Hsnap).
    destruct (extends_apart_insert h h1 (CArr slots) Hext Hslots) as [Hext' Hl].
    split; [done|]. split; [done|].
    intros g fuel Hg Hfuel. cbn [depth] in Hfuel.
    destruct fuel as [|fuel]; [lia|].
    apply has_new_cells_insert in Hg as [Hg Hgl]; [|apply Hext].
    simpl. rewrite Hgl, Hsnap by (done || lia). done.
  - destruct (alloc_fields alloc fields h) as [h1 props] eqn:E.
    injection Halloc as <- <-.
    destruct (alloc_fields_spec fields IH _ _ _ E) as (Hext & Hprops & Hsnap).
    destruct (extends_apart_insert h h1 (CObj props) Hext Hprops) as [Hext' Hl].
    split; [done|]. split; [done|].
    intros g fuel Hg Hfuel. cbn [depth] in Hfuel.
    destruct fuel as [|fuel]; [lia|].
    apply has_new_cells_insert in Hg as [Hg Hgl]; [|apply Hext].
    simpl. rewrite Hgl, Hsnap by (done || lia). done.
Qed.

Lemma option_all_ext {A B : Type} (f g : A -> option B) (l : list A) (r : list B) :
  (forall x y, f x = Some y -> g x = Some y) ->
  option_all f l = Some r -> option_all g l = Some r.
Proof.
  intros Hfg. revert r. induction l as [|x l IH]; intros r; simpl; [done|].
  destruct (f x) as [y|] eqn:Ex; [|done].
  destruct (option_all f l) as [ys|] eqn:El; [|done].
  intros [= <-]. by rewrite (Hfg _ _ Ex), (IH ys).
Qed.

Lemma snapshot_ref (fuel : nat) (h : gmap loc cell) (l : loc) :
  snapshot (S fuel) h (HRef l) =
  match h !! l with
  | Some (CArr items) =>
      JArr <$> option_all (fun slot =>
                 match slot with
                 | Some x => snapshot fuel h x
                 | None => Some JNull
                 end) items
  | Some (CObj fields) =>
      JObj <$> option_all (fun kv =>
                 match snapshot fuel h (snd kv) with
                 | Some t => Some (fst kv, t)
                 | None => None
                 end) fields
  | None => None
  end.
Proof. reflexivity. Qed.

Lemma snapshot_prim (fuel : nat) (h : gmap loc cell) (v : hval) :
  (forall l, v <> HRef l) ->
  snapshot fuel h v = Some match v with
                           | HBool b => JBool b
                           | HNum n => JNum n
                           | HStr s => JStr s
                           | _ => JNull
                           end.
Proof. destruct fuel, v; try reflexivity; intros H; by destruct (H l). Qed.

(** Reading a value is not affected by cells added to the store. *)
Lemma snapshot_weaken (fuel : nat) (h h' : gmap loc cell) :
  h ⊆ h' -> forall (v : hval) (t : value),
    snapshot fuel h v = Some t -> snapshot fuel h' v = Some t.
Proof.
  intros Hsub. induction fuel as [|fuel IH]; intros v t;
    (destruct v as [| | | |l]; [done..|]); [done|].
  rewrite !snapshot_ref.
  destruct (h !! l) as [c|] eqn:Hl; [|done].
  rewrite (lookup_weaken _ _ _ _ Hl Hsub).
  destruct c as [slots|props]; intros H;
    apply fmap_Some in H as (r & Hr & ->); apply fmap_Some; exists r;
    (split; [|reflexivity]); (eapply option_all_ext; [|exact Hr]).
  - intros [x|] y; cbv beta; [apply IH | done].
  - intros kv y. cbv beta. destruct (snapshot fuel h kv.2) as [t'|] eqn:E; [|done].
    by rewrite (IH _ _ E).
Qed.

(** With more fuel the same tree is read. *)
Lemma snapshot_more_fuel (h : gmap loc cell) (fuel : nat) :
  forall (v : hval) (t : value),
    snapshot fuel h v = Some t -> snapshot (S fuel) h v = Some t.
Proof.
  induction fuel as [|fuel IH]; intros v t;
    (destruct v as [| | | |l]; [done..|]); [done|].
  rewrite !snapshot_ref.
  destruct (h !! l) as [[slots|props]|]; [| |done]; intros H;
    apply fmap_Some in H as (r & Hr & ->); apply fmap_Some; exists r;
    (split; [|reflexivity]); (eapply option_all_ext; [|exact Hr]).
  - intros [x|] y; cbv beta; [apply IH | done].
  - intros kv y. cbv beta. destruct (snapshot fuel h kv.2) as [t'|] eqn:E; [|done].
    by rewrite (IH _ _ E).
Qed.

Lemma option_all_depth_items (fuel : nat) (h : gmap loc cell)
    (slots : list (option hval)) (items : list value) :
  (forall v t, snapshot fuel h v = Some t -> (depth t <= fuel)%nat) ->
  option_all (fun slot => match slot with
                          | Some x => snapshot fuel h x
                          | None => Some JNull
                          end) slots = Some items ->
  (depth_items depth items <= fuel)%nat.
Proof.
  intros IH. revert items. induction slots as [|s slots IHs]; intros items; simpl.
  - intros [= <-]. simpl. lia.
  - destruct s as [x|].
    + destruct (snapshot fuel h x) as [t|] eqn:E; [|done].
      destruct (option_all _ slots) as [ys|] eqn:El; [|done].
      intros [= <-]. specialize (IH _ _ E). specialize (IHs _ eq_refl).
      change (Nat.max (depth t) (depth_items depth ys) <= fuel)%nat. lia.
    + destruct (option_all _ slots) as [ys|] eqn:El; [|done].
      intros [= <-]. specialize (IHs _ eq_refl).
      change (Nat.max 0 (depth_items depth ys) <= fuel)%nat. lia.
Qed.

Lemma option_all_depth_fields (fuel : nat) (h : gmap loc cell)
    (props : list (string * hval)) (fields : list (string * value)) :
  (forall v t, snapshot fuel h v = Some t -> (depth t <= fuel)%nat) ->
  option_all (fun kv => match snapshot fuel h (snd kv) with
                        | Some t => Some (fst kv, t)
                        | None => None
                        end) props = Some fields ->
  (depth_fields depth fields <= fuel)%nat.
Proof.
  intros IH. revert fields. induction props as [|[k x] props IHs]; intros fields; simpl.
  - intros [= <-]. simpl. lia.
  - destruct (snapshot fuel h x) as [t|] eqn:E; [|done].
    destruct (option_all _ props) as [ys|] eqn:El; [|done].
    intros [= <-]. specialize (IH _ _ E). specialize (IHs _ eq_refl).
    change (Nat.max (depth t) (depth_fields depth ys) <= fuel)%nat. lia.
Qed.

(** The fuel that reads a tree bounds its depth. *)
Lemma snapshot_depth (fuel : nat) (h : gmap loc cell) :
  forall (v : hval) (t : value), snapshot fuel h v = Some t -> (depth t <= fuel)%nat.
Proof.
  induction fuel as [|fuel IH]; intros v t;
    (destruct v as [| | | |l]; [intros [= <-]; simpl; lia..|]); [done|].
  rewrite snapshot_ref.
  destruct (h !! l) as [[slots|props]|]; [| |done]; intros H;
    apply fmap_Some in H as (r & Hr & ->); cbn [depth].
  - apply option_all_depth_items in Hr; [lia | done].
  - apply option_all_depth_fields in Hr; [lia | done].
Qed.

(** The deep copy of a document that can be read: freshly allocated cells
    holding the same tree. *)
Lemma deep_clone_alloc (fuel : nat) (h : gmap loc cell) (config : hval) (t : value) :
  snapshot fuel h config = Some t ->
  deep_clone fuel h config = Some (fst (alloc t h), Returns (snd (alloc t h))).
Proof.
  intros Hsnap. unfold deep_clone, JSON_stringify. rewrite Hsnap.
  cbn [mbind outcome_bind]. rewrite JSON_parse_stringify.
  by destruct (alloc t h).
Qed.

(** ** The trial deletion touches only the copy *)

Lemma assoc_elem_of {A : Type} (k : string) (l : list (string * A)) (v : A) :
  assoc k l = Some v -> (k, v) ∈ l.
Proof.
  induction l as [|[k' v'] l IH]; simpl; [done|].
  destruct (String.eqb_spec k k') as [->|_].
  - intros [= ->]. by left.
  - intros H. right. by apply IH.
Qed.

Lemma hprop_fresh (h h1 : gmap loc cell) (c : hval) (k : string) (v : hval) :
  extends_apart h h1 -> fresh_val h c -> hprop h1 c k = Some v -> fresh_val h v.
Proof.
  intros [_ Hnew] Hc. destruct c as [| | |s|l]; simpl; try done.
  - destruct (String.eqb k "length"); [by intros [= <-]|].
    destruct (index_of_key k); [|done].
    destruct (string_nth _ _); simpl; [by intros [= <-] | done].
  - destruct (h1 !! l) as [[slots|props]|] eqn:Hl; [| |done];
      specialize (Hnew _ _ Hc Hl); simpl in Hnew.
    + destruct (String.eqb k "length"); [by intros [= <-]|].
      destruct (index_of_key k) as [i|]; [|done].
      destruct (slots !! i) as [[w|]|] eqn:Hi; simpl; [|done..].
      intros [= <-]. rewrite Forall_forall in Hnew.
      apply (Hnew (Some w)). by eapply list_elem_of_lookup_2.
    + intros H%assoc_elem_of. rewrite Forall_forall in Hnew. by apply (Hnew (k, v)).
Qed.

Lemma hqdot_fresh (h h1 : gmap loc cell) (o : option hval) (k : string) (v : hval) :
  extends_apart h h1 ->
  (forall c, o = Some c -> fresh_val h c) ->
  hqdot h1 o k = Some v -> fresh_val h v.
Proof.
  intros Hext Ho. destruct o as [c|]; [|done]. specialize (Ho c eq_refl).
  destruct c; try done; by apply (hprop_fresh h h1 _ k v Hext).
Qed.

Lemma delete_property_frame (h h1 h2 : gmap loc cell) (target : hval) (k : string) :
  h ⊆ h1 -> fresh_val h target ->
  delete_property h1 target k = Returns h2 -> h ⊆ h2.
Proof.
  intros Hsub Ht. destruct target as [| | |s|l]; simpl; try (by intros [= <-]).
  - destruct (String.eqb k "length"); [done|].
    destruct (index_of_key k) as [i|]; [|by intros [= <-]].
    destruct (i <? String.length s)%nat; [done | by intros [= <-]].
  - simpl in Ht. destruct (h1 !! l) as [[slots|props]|]; [| |by intros [= <-]].
    + destruct (String.eqb k "length"); [done|].
      destruct (index_of_key k) as [i|]; [|by intros [= <-]].
      destruct (i <? length slots)%nat; intros [= <-]; [|done].
      by apply insert_subseteq_r.
    + intros [= <-]. by apply insert_subseteq_r.
Qed.

Lemma delete_from_frame (h h1 h2 : gmap loc cell) (section : option hval) (k : string) :
  h ⊆ h1 -> (forall v, section = Some v -> fresh_val h v) ->
  delete_from h1 section k = Returns h2 -> h ⊆ h2.
Proof.
  intros Hsub Hs. unfold delete_from. destruct section as [v|]; [|by intros [= <-]].
  destruct (htruthy (Some v)); [|by intros [= <-]].
  apply delete_property_frame; auto.
Qed.

Lemma apply_deletion_frame (h h1 h2 : gmap loc cell) (c : hval) (ty key : string) :
  extends_apart h h1 -> fresh_val h c ->
  apply_deletion h1 c ty key = Some (Returns h2) -> h ⊆ h2.
Proof.
  intros Hext Hc.
  assert (Htop : forall s,
             (section ← hdot h1 (Some c) s; delete_from h1 section key) = Returns h2 ->
             h ⊆ h2).
  { intros s. destruct c; cbn [hdot mbind outcome_bind]; try done;
      apply delete_from_frame; try apply Hext; intros v Hv;
      by eapply (hprop_fresh h h1 _ s v Hext). }
  assert (Hres : forall s,
             (resources ← hdot h1 (Some c) "resources";
              delete_from h1 (hqdot h1 resources s) key) = Returns h2 ->
             h ⊆ h2).
  { intros s. destruct c; cbn [hdot mbind outcome_bind]; try done;
      apply delete_from_frame; try apply Hext; intros v Hv;
      (eapply (hqdot_fresh h h1 _ s v Hext); [|exact Hv]);
      intros r Hr; by eapply (hprop_fresh h h1 _ "resources" r Hext). }
  unfold apply_deletion. cbv zeta.
  repeat (destruct (String.eqb _ _); [intros [= H]; eauto|]).
  done.
Qed.

(** [validateConfig] returns: every exception of the serializer or of the
    parser is turned into a message, and [null] means both returned. *)
Lemma validateConfig_returns
    (generateYAML : gmap loc cell -> hval -> outcome string)
    (yaml_load : string -> outcome unit) (h : gmap loc cell) (c : hval) :
  exists d, validateConfig generateYAML yaml_load h c = Returns d /\
            (is_error d = false <-> d = None) /\
            (d = None <->
             exists s, generateYAML h c = Returns s /\ yaml_load s = Returns tt).
Proof.
  unfold validateConfig.
  destruct (generateYAML h c) as [s|e] eqn:Eg; cbn [mbind outcome_bind try_catch].
  - destruct (yaml_load s) as [[]|e] eqn:El; cbn [mbind outcome_bind try_catch mret outcome_ret].
    + exists None. repeat split; eauto.
    + destruct e as [m|]; [destruct (alias_match m)|]; eexists; (split; [reflexivity|]);
        (split; [split; [|done] | split; [done|]]); try done;
        intros (s' & [= <-] & ?); congruence.
  - destruct e as [m|]; [destruct (alias_match m)|]; eexists; (split; [reflexivity|]);
      (split; [split; [|done] | split; [done|]]); try done;
      intros (s' & ? & ?); congruence.
Qed.

(** [validateDeletion] on a document that can be read: it comes back, and
    every cell of the store it was given is where it was. *)
Lemma validateDeletion_frame
    (generateYAML : gmap loc cell -> hval -> outcome string)
    (yaml_load : string -> outcome unit)
    (fuel : nat) (h : gmap loc cell) (config : hval) (ty key : string) (t : value) :
  snapshot fuel h config = Some t ->
  exists h' r,
    validateDeletion generateYAML yaml_load fuel h config ty key = Some (h', r) /\
    h ⊆ h'.
Proof.
  intros Hsnap. unfold validateDeletion. rewrite (deep_clone_alloc _ _ _ _ Hsnap).
  destruct (alloc t h) as [h1 c] eqn:Ealloc. cbn [fst snd].
  destruct (alloc_correct t _ _ _ Ealloc) as (Hext & Hc & _).
  destruct (apply_deletion h1 c ty key) as [[h2|e]|] eqn:Edel.
  - eexists _, _. split; [reflexivity|]. by eapply apply_deletion_frame.
  - eexists _, _. split; [reflexivity|]. apply Hext.
  - eexists _, _. split; [reflexivity|]. apply Hext.
Qed.

(** ** Deletion Validator *)

Lemma apply_deletion_unlisted (h : gmap loc cell) (c : hval) (ty key : string) :
  ~ In (toLowerCase ty) (map fst deletion_sections) ->
  apply_deletion h c ty key = None.
Proof.
  intros Hnot. unfold apply_deletion. cbv zeta.
  repeat match goal with
         | |- context [String.eqb (toLowerCase ty) ?s] =>
             destruct (String.eqb_spec (toLowerCase ty) s) as [E|_];
             [exfalso; apply Hnot; rewrite E; unfold deletion_sections; simpl;
              repeat (first [left; reflexivity | right])|]
         end.
  reflexivity.
Qed.

Lemma validateDeletion_unlisted
    (generateYAML : gmap loc cell -> hval -> outcome string)
    (yaml_load : string -> outcome unit)
    (fuel : nat) (h : gmap loc cell) (config : hval) (ty key : string) (t : value) :
  snapshot fuel h config = Some t ->
  ~ In (toLowerCase ty) (map fst deletion_sections) ->
  validateDeletion generateYAML yaml_load fuel h config ty key
  = Some (fst (alloc t h), Returns None).
Proof.
  intros Hsnap Hnot. unfold validateDeletion.
  rewrite (deep_clone_alloc _ _ _ _ Hsnap), apply_deletion_unlisted by done.
  reflexivity.
Qed.

(** C5: [validateDeletion] leaves its input as it was.  For a document that
    can be read from the store, the call comes back with every cell of the
    store it was given unchanged, so the document reads as before; the
    deletion was tried on a copy made of new cells only, which reads as the
    document even with all the old cells taken away. *)
Theorem validateDeletion_leaves_document
    (generateYAML : gmap loc cell -> hval -> outcome string)
    (yaml_load : string -> outcome unit)
    (fuel : nat) (h : gmap loc cell) (config : hval) (ty key : string) (t : value) :
  snapshot fuel h config = Some t ->
  exists h' r,
    validateDeletion generateYAML yaml_load fuel h config ty key = Some (h', r) /\
    h ⊆ h' /\
    snapshot fuel h' config = Some t /\
    exists h1 c,
      deep_clone fuel h config = Some (h1, Returns c) /\
      snapshot fuel (h1 ∖ h) c = Some t.
Proof.
  intros Hsnap.
  destruct (validateDeletion_frame generateYAML yaml_load fuel h config ty key t Hsnap)
    as (h' & r & Hval & Hsub).
  exists h', r. split; [done|]. split; [done|].
  split; [by eapply snapshot_weaken|].
  destruct (alloc t h) as [h1 c] eqn:Ealloc.
  exists h1, c. split.
  - rewrite (deep_clone_alloc _ _ _ _ Hsnap), Ealloc. reflexivity.
  - destruct (alloc_correct t _ _ _ Ealloc) as (_ & _ & Hread).
    apply Hread; [|by eapply snapshot_depth].
    intros l cell Hl Hcell. by apply lookup_difference_Some.
Qed.

Lemma validateDeletion_leaves_document_witness :
  exists h' r,
    validateDeletion json_as_yaml accept_all 8 live_store live_root "LLM" "gpt_a"
    = Some (h', r) /\
    live_store ⊆ h' /\
    snapshot 8 h' live_root = Some two_llms /\
    exists h1 c,
      deep_clone 8 live_store live_root = Some (h1, Returns c) /\
      snapshot 8 (h1 ∖ live_store) c = Some two_llms.
Proof.
  apply (validateDeletion_leaves_document json_as_yaml accept_all
           8 live_store live_root "LLM" "gpt_a" two_llms).
  vm_compute. reflexivity.
Defined.

(** C6: a component type that is not one of the sixteen the validator lists
    is allowed: [validateDeletion] returns [null]. *)
Theorem validateDeletion_unknown_type
    (generateYAML : gmap loc cell -> hval -> outcome string)
    (yaml_load : string -> outcome unit)
    (fuel : nat) (h : gmap loc cell) (config : hval) (ty key : string) (t : value) :
  snapshot fuel h config = Some t ->
  ~ In (toLowerCase ty) (map fst deletion_sections) ->
  exists h',
    validateDeletion generateYAML yaml_load fuel h config ty key = Some (h', Returns None).
Proof.
  intros Hsnap Hnot. eexists. by apply validateDeletion_unlisted.
Qed.

Lemma validateDeletion_unknown_type_witness :
  exists h',
    validateDeletion json_as_yaml missing_alias 8 live_store live_root "Table" "orders"
    = Some (h', Returns None).
Proof.
  apply (validateDeletion_unknown_type json_as_yaml missing_alias
           8 live_store live_root "Table" "orders" two_llms).
  - vm_compute. reflexivity.
  - simpl. intuition discriminate.
Defined.

(** *** Reading the copy: the store against the tree *)

Lemma option_all_assoc (fuel : nat) (h : gmap loc cell) (k : string)
    (props : list (string * hval)) (fields : list (string * value)) :
  option_all (fun kv => match snapshot fuel h (snd kv) with
                        | Some t => Some (fst kv, t)
                        | None => None
                        end) props = Some fields ->
  match assoc k props with
  | Some v => exists t, assoc k fields = Some t /\ snapshot fuel h v = Some t
  | None => assoc k fields = None
  end.
Proof.
  revert fields. induction props as [|[k' v] props IH]; intros fields; simpl.
  - by intros [= <-].
  - destruct (snapshot fuel h v) as [t|] eqn:E; [|done].
    destruct (option_all _ props) as [ys|] eqn:El; [|done].
    intros [= <-]. simpl. destruct (String.eqb k k'); [eauto | by apply IH].
Qed.

Lemma option_all_lookup (fuel : nat) (h : gmap loc cell) (i : nat)
    (slots : list (option hval)) (items : list value) :
  option_all (fun slot => match slot with
                          | Some x => snapshot fuel h x
                          | None => Some JNull
                          end) slots = Some items ->
  length items = length slots /\
  match slots !! i with
  | Some (Some x) => exists t, items !! i = Some t /\ snapshot fuel h x = Some t
  | Some None => items !! i = Some JNull
  | None => items !! i = None
  end.
Proof.
  revert i items. induction slots as [|s slots IH]; intros i items; simpl.
  - by intros [= <-].
  - destruct (match s with Some x => snapshot fuel h x | None => Some JNull end)
      as [t|] eqn:E; [|done].
    destruct (option_all _ slots) as [ys|] eqn:El; [|done].
    intros [= <-]. destruct (IH (pred i) ys eq_refl) as [Hlen Hi].
    split; [simpl; lia|].
    destruct i as [|i]; simpl in *; [|done].
    destruct s as [x|]; [eauto | congruence].
Qed.

(** A property read on the store agrees with the read on the tree. *)
Lemma reads_prop (h : gmap loc cell) (o : option hval) (ot : option value) (k : string) :
  reads h o ot -> reads h (hqdot h o k) (qdot ot k).
Proof.
  destruct o as [v|], ot as [t|]; simpl; try done; [|by destruct t].
  intros [fuel Hsnap]. destruct v as [|b|n|s|l].
  - destruct fuel; injection Hsnap as <-; done.
  - destruct fuel; injection Hsnap as <-; done.
  - destruct fuel; injection Hsnap as <-; done.
  - assert (t = JStr s) as -> by (destruct fuel; by injection Hsnap as <-).
    simpl. destruct (String.eqb k "length"); [by exists O|].
    destruct (index_of_key k) as [i|]; [|done].
    destruct (string_nth i s); simpl; [by exists O | done].
  - destruct fuel as [|fuel]; [done|]. rewrite snapshot_ref in Hsnap.
    simpl. destruct (h !! l) as [[slots|props]|]; [| |done];
      apply fmap_Some in Hsnap as (r & Hr & ->); simpl.
    + destruct (option_all_lookup _ _ (default O (index_of_key k)) _ _ Hr) as [Hlen Hi].
      rewrite Hlen.
      destruct (String.eqb k "length"); [by exists O|].
      destruct (index_of_key k) as [i|]; [|done]. simpl in Hi.
      destruct (slots !! i) as [[x|]|]; simpl.
      * destruct Hi as (t & -> & Ht). by exists fuel.
      * by rewrite Hi.
      * by rewrite Hi.
    + pose proof (option_all_assoc _ _ k _ _ Hr) as Hk.
      destruct (assoc k props) as [v|].
      * destruct Hk as (t & -> & Ht). by exists fuel.
      * by rewrite Hk.
Qed.

Lemma reads_path (h : gmap loc cell) (path : list string) :
  forall (o : option hval) (ot : option value),
    reads h o ot ->
    reads h (fold_left (hqdot h) path o) (lookup_path ot path).
Proof.
  induction path as [|k path IH]; intros o ot Hr; simpl; [done|].
  by apply IH, reads_prop.
Qed.

Lemma safe_target_of_reads (h : gmap loc cell) (o : option hval) (ot : option value) :
  reads h o ot -> section_ok ot -> safe_target h o.
Proof.
  destruct o as [v|]; [|done]. destruct ot as [t|]; [|done].
  intros [fuel Hsnap]. destruct v as [| | |s|l]; simpl; try done.
  - assert (t = JStr s) as -> by (destruct fuel; by injection Hsnap as <-). done.
  - destruct fuel as [|fuel]; [done|]. rewrite snapshot_ref in Hsnap.
    destruct (h !! l) as [[slots|props]|]; [| |done];
      apply fmap_Some in Hsnap as (r & Hr & ->); [done | eauto].
Qed.

Lemma delete_from_safe (h : gmap loc cell) (o : option hval) (k : string) :
  safe_target h o -> exists h2, delete_from h o k = Returns h2.
Proof.
  unfold delete_from. destruct o as [v|]; [|eauto].
  destruct (htruthy (Some v)) eqn:Ht; [|eauto].
  destruct v as [| | |s|l]; simpl; try done; eauto.
  intros [props ->]. eauto.
Qed.

Lemma apply_deletion_safe (h : gmap loc cell) (c : hval) (t : value) (ty key : string) :
  reads h (Some c) (Some t) -> document_shape t ->
  forall e, apply_deletion h c ty key <> Some (Throws e).
Proof.
  intros Hr [[fields ->] Hshape] e.
  assert (exists l, c = HRef l) as [l ->].
  { destruct Hr as [fuel Hs]. destruct c; try (destruct fuel; discriminate). eauto. }
  assert (Hsec : forall ty' path,
             In (ty', path) deletion_sections ->
             exists h2, delete_from h (fold_left (hqdot h) path (Some (HRef l))) key
                        = Returns h2).
  { intros ty' path Hin. apply delete_from_safe.
    eapply safe_target_of_reads; [by apply reads_path|].
    apply (Hshape _ Hin). }
  unfold apply_deletion. cbv zeta. cbn [hdot mbind outcome_bind].
  repeat match goal with
         | |- context [String.eqb (toLowerCase ty) ?s] =>
             destruct (String.eqb (toLowerCase ty) s);
             [match goal with
              | |- Some (delete_from _ (hprop _ _ ?a) _) <> _ =>
                  destruct (Hsec s [a]) as [h2 E];
                  [unfold deletion_sections; simpl;
                   repeat (first [left; reflexivity | right])|];
                  cbn [fold_left hqdot] in E; rewrite E; done
              | |- Some (delete_from _ (hqdot _ (hprop _ _ ?a) ?b) _) <> _ =>
                  destruct (Hsec s [a; b]) as [h2 E];
                  [unfold deletion_sections; simpl;
                   repeat (first [left; reflexivity | right])|];
                  cbn [fold_left hqdot] in E; rewrite E; done
              end|]
         end.
  done.
Qed.

(** C4: [validateDeletion] is total on documents.  For a document that can
    be read from the store and has the shape of the data model (a mapping
    whose sections are not strings or sequences), and for every component
    type and key, the call returns a diagnostic or [null] and does not
    raise; and [validateConfig] turns every exception of the serializer and
    of the parser into a diagnostic, returning [null] exactly when both
    returned. *)
Theorem validateDeletion_total
    (generateYAML : gmap loc cell -> hval -> outcome string)
    (yaml_load : string -> outcome unit)
    (fuel : nat) (h : gmap loc cell) (config : hval) (ty key : string) (t : value) :
  snapshot fuel h config = Some t ->
  document_shape t ->
  (exists h' d,
     validateDeletion generateYAML yaml_load fuel h config ty key
     = Some (h', Returns d)) /\
  (forall h2 c, exists d,
     validateConfig generateYAML yaml_load h2 c = Returns d /\
     (d = None <->
      exists s, generateYAML h2 c = Returns s /\ yaml_load s = Returns tt)).
Proof.
  intros Hsnap Hshape. split.
  - unfold validateDeletion. rewrite (deep_clone_alloc _ _ _ _ Hsnap).
    destruct (alloc t h) as [h1 c] eqn:Ealloc. cbn [fst snd].
    destruct (alloc_correct t _ _ _ Ealloc) as (_ & _ & Hread).
    assert (Hr : reads h1 (Some c) (Some t)).
    { exists fuel. apply Hread; [by intros l cell _ ? | by eapply snapshot_depth]. }
    pose proof (apply_deletion_safe h1 c t ty key Hr Hshape) as Hsafe.
    destruct (apply_deletion h1 c ty key) as [[h2|e]|].
    + destruct (validateConfig_returns generateYAML yaml_load h2 c) as (d & -> & _).
      eauto.
    + by destruct (Hsafe e).
    + eauto.
  - intros h2 c.
    destruct (validateConfig_returns generateYAML yaml_load h2 c) as (d & Hd & _ & Hnone).
    eauto.
Qed.

Lemma two_llms_shape : document_shape two_llms.
Proof.
  split; [by eexists|]. unfold deletion_sections. intros entry Hin. simpl in Hin.
  repeat (destruct Hin as [<-|Hin]; [exact I|]). destruct Hin.
Qed.

Lemma validateDeletion_total_witness :
  exists h' d,
    validateDeletion json_as_yaml missing_alias 8 live_store live_root "LLM" "gpt_a"
    = Some (h', Returns d).
Proof.
  apply (validateDeletion_total json_as_yaml missing_alias
           8 live_store live_root "LLM" "gpt_a" two_llms).
  - vm_compute. reflexivity.
  - exact two_llms_shape.
Defined.

(** ** Deletion orchestration *)

Lemma notify_surfaced (now : nat -> Z) (rnd : nat -> string)
    (ty message : string) (details : option string) (w : World) :
  surfaced w (notify now rnd ty message details w) ty details.
Proof. repeat split. eexists. repeat split. Qed.

(** A diagnostic of [validateDeletion] is never the empty string, so
    [if (error)] takes it for an error. *)
Lemma validateDeletion_diagnostic
    (generateYAML : gmap loc cell -> hval -> outcome string)
    (yaml_load : string -> outcome unit)
    (fuel : nat) (h h' : gmap loc cell) (config : hval) (ty key : string)
    (d : option string) :
  validateDeletion generateYAML yaml_load fuel h config ty key = Some (h', Returns d) ->
  is_error d = match d with Some _ => true | None => false end.
Proof.
  unfold validateDeletion.
  destruct (deep_clone fuel h config) as [[h1 [c|e]]|]; [|done..].
  destruct (apply_deletion h1 c ty key) as [[h2|e]|]; [|done|].
  - destruct (validateConfig_returns generateYAML yaml_load h2 c) as (d' & E & [Herr _] & _).
    rewrite E. intros [= <- <-].
    destruct d' as [s|]; [|done]. destruct (is_error (Some s)); [done|].
    by discriminate Herr.
  - by intros [= <- <-].
Qed.

(** C7: [safeDelete] validates before it commits.  With a diagnostic from
    [validateDeletion] the callback is not called, an error notification
    carrying the diagnostic is shown and [false] is returned; with [null]
    the callback is called and [true] is returned after a success
    notification, unless the callback raises, in which case an error
    notification is shown and [false] is returned. *)
Theorem safeDelete_validates_first
    (generateYAML : gmap loc cell -> hval -> outcome string)
    (yaml_load : string -> outcome unit)
    (now : nat -> Z) (rnd : nat -> string)
    (fuel : nat) (w : World) (ty key : string)
    (deleteAction : World -> World * outcome unit)
    (h' : gmap loc cell) (error : option string) :
  validateDeletion generateYAML yaml_load fuel (objects w) (config w) ty key
  = Some (h', Returns error) ->
  let w1 := {| objects := h'; config := config w; notes := notes w |} in
  let result := safeDelete generateYAML yaml_load now rnd fuel w ty key deleteAction in
  match error with
  | Some diagnostic =>
      exists w', result = Some (w', false, Returns false) /\
                 surfaced w1 w' "error" (Some diagnostic)
  | None =>
      match deleteAction w1 with
      | (w2, Returns _) =>
          exists w', result = Some (w', true, Returns true) /\
                     surfaced w2 w' "success" None
      | (w2, Throws e) =>
          exists w' details, result = Some (w', true, Returns false) /\
                             surfaced w2 w' "error" (Some details)
      end
  end.
Proof.
  intros Hval w1 result. subst result. unfold safeDelete. rewrite Hval.
  rewrite (validateDeletion_diagnostic _ _ _ _ _ _ _ _ _ Hval).
  destruct error as [diagnostic|].
  - eexists. split; [reflexivity|]. apply notify_surfaced.
  - fold w1. destruct (deleteAction w1) as [w2 [[]|e]].
    + eexists. split; [reflexivity|]. apply notify_surfaced.
    + eexists _, _. split; [reflexivity|]. apply notify_surfaced.
Qed.

Lemma safeDelete_validates_first_witness :
  (exists w',
     safeDelete json_as_yaml missing_alias epoch constant_suffix 8 live_world
       "LLM" "gpt_a" no_action = Some (w', false, Returns false)) /\
  (exists w',
     safeDelete json_as_yaml accept_all epoch constant_suffix 8 live_world
       "LLM" "gpt_a" no_action = Some (w', true, Returns true)) /\
  (exists w',
     safeDelete json_as_yaml accept_all epoch constant_suffix 8 live_world
       "LLM" "gpt_a" failing_action = Some (w', true, Returns false)).
Proof.
  split; [|split].
  - assert (H := safeDelete_validates_first json_as_yaml missing_alias
                   epoch constant_suffix 8 live_world "LLM" "gpt_a" no_action
                   (store_after (validateDeletion json_as_yaml missing_alias 8
                                   live_store live_root "LLM" "gpt_a"))
                   (Some ("This component is referenced by " +:+
                          String dquote ("gpt_a" +:+
                          String dquote ". Remove that reference first.")))).
    destruct H as (w' & H & _); [vm_compute; reflexivity|]. by exists w'.
  - assert (H := safeDelete_validates_first json_as_yaml accept_all
                   epoch constant_suffix 8 live_world "LLM" "gpt_a" no_action
                   (store_after (validateDeletion json_as_yaml accept_all 8
                                   live_store live_root "LLM" "gpt_a"))
                   None).
    destruct H as (w' & H & _); [vm_compute; reflexivity|]. by exists w'.
  - assert (H := safeDelete_validates_first json_as_yaml accept_all
                   epoch constant_suffix 8 live_world "LLM" "gpt_a" failing_action
                   (store_after (validateDeletion json_as_yaml accept_all 8
                                   live_store live_root "LLM" "gpt_a"))
                   None).
    destruct H as (w' & d & H & _); [vm_compute; reflexivity|]. by exists w'.
Defined.

(** C10: deleting the memory configuration is never blocked.  [memory] is
    not a type the validator lists, so [validateDeletion] returns [null]
    for it whatever the document holds, and [safeDelete] runs the deletion
    callback on the application state: what it returns is the state the
    callback has left, with a success notification and [true] where the
    callback returned, with an error notification and [false] where it
    raised. *)
Theorem memory_deletion_not_validated
    (generateYAML : gmap loc cell -> hval -> outcome string)
    (yaml_load : string -> outcome unit)
    (now : nat -> Z) (rnd : nat -> string)
    (fuel : nat) (w : World) (key : string)
    (deleteAction : World -> World * outcome unit) (t : value) :
  snapshot fuel (objects w) (config w) = Some t ->
  exists h',
    validateDeletion generateYAML yaml_load fuel (objects w) (config w) "Memory" key
    = Some (h', Returns None) /\
    let w1 := {| objects := h'; config := config w; notes := notes w |} in
    let result :=
      safeDelete generateYAML yaml_load now rnd fuel w "Memory" key deleteAction in
    match deleteAction w1 with
    | (w2, Returns _) =>
        exists w', result = Some (w', true, Returns true) /\
                   surfaced w2 w' "success" None
    | (w2, Throws e) =>
        exists w' details, result = Some (w', true, Returns false) /\
                           surfaced w2 w' "error" (Some details)
    end.
Proof.
  intros Hsnap.
  assert (Hval := validateDeletion_unlisted generateYAML yaml_load fuel
                    (objects w) (config w) "Memory" key t Hsnap).
  specialize (Hval ltac:(simpl; intuition discriminate)).
  eexists. split; [exact Hval|]. cbv zeta. unfold safeDelete. rewrite Hval.
  cbn [is_error]. destruct (deleteAction _) as [w2 [[]|e]].
  - eexists. split; [reflexivity|]. apply notify_surfaced.
  - eexists _, _. split; [reflexivity|]. apply notify_surfaced.
Qed.

Lemma memory_deletion_not_validated_witness :
  exists h' w',
    validateDeletion json_as_yaml missing_alias 8
      (objects memory_world) (config memory_world) "Memory" "memory"
    = Some (h', Returns None) /\
    safeDelete json_as_yaml missing_alias epoch constant_suffix 8 memory_world
      "Memory" "memory" forget_memory = Some (w', true, Returns true) /\
    snapshot 8 (objects w') (config w')
    = Some (JObj [("agents", JObj [("helper", JObj [("memory", JStr "*memory")])])]).
Proof.
  destruct (memory_deletion_not_validated json_as_yaml missing_alias epoch
              constant_suffix 8 memory_world "memory" forget_memory with_memory)
    as (h' & Hval & Hdel); [vm_compute; reflexivity|].
  exists h'.
  assert (Hh : Some (h', @Returns (option string) None)
               = Some (store_after (validateDeletion json_as_yaml missing_alias 8
                                      (objects memory_world) (config memory_world)
                                      "Memory" "memory"), Returns None))
    by (rewrite Hval; reflexivity).
  injection Hh as ->. cbv zeta in Hdel.
  destruct (forget_memory _) as [w2 [[]|e]] eqn:Hact in Hdel.
  - destruct Hdel as (w' & Hres & Hobj & Hcfg & _). exists w'.
    split; [exact Hval|]. split; [exact Hres|].
    rewrite Hobj, Hcfg. vm_compute in Hact. injection Hact as <-. vm_compute. reflexivity.
  - vm_compute in Hact. discriminate Hact.
Defined.

(** ** Dependency Finder: the sites of the table *)

Lemma grows_ret (deps : list DependencyInfo) : grows deps (Returns deps).
Proof. exists []. by rewrite app_nil_r. Qed.

Lemma grows_push (deps : list DependencyInfo) (r : DependencyInfo) :
  grows deps (Returns (push deps r)).
Proof. by exists [r]. Qed.

Lemma gains_push (deps : list DependencyInfo) (r : DependencyInfo) :
  gains (name r) deps (Returns (push deps r)).
Proof. exists [r]. split; [done|]. exists r. split; [by left | done]. Qed.

Lemma gains_grows (A : string) (deps : list DependencyInfo)
    (m : outcome (list DependencyInfo)) :
  gains A deps m -> grows deps m.
Proof. intros (l & E & _). by exists l. Qed.

Lemma grows_bind (deps : list DependencyInfo) (m : outcome (list DependencyInfo))
    (K : list DependencyInfo -> outcome (list DependencyInfo)) :
  grows deps m -> extends K -> grows deps (m ≫= K).
Proof.
  intros [l ->] HK. destruct (HK (deps ++ l)%list) as [l' E].
  exists (l ++ l')%list. cbn [mbind outcome_bind]. by rewrite E, <- List.app_assoc.
Qed.



Lemma extends_for_of {X : Type} (es : list X)
    (body : X -> list DependencyInfo -> outcome (list DependencyInfo)) :
  (forall x, In x es -> extends (body x)) -> extends (for_of es body).
Proof.
  induction es as [|x es IH]; intros Hbody deps; cbn [for_of].
  - apply grows_ret.
  - apply grows_bind; [apply Hbody; by left|].
    apply IH. intros y Hy. apply Hbody. by right.
Qed.



(** *** The forms a site accepts *)

Lemma string_form_contains (key : string) (x : value) :
  string_form key x -> valueContainsRef (Some x) key = true.
Proof.
  unfold valueContainsRef. intros [-> | [-> | ->]].
  - by rewrite String.eqb_refl.
  - rewrite String.eqb_refl. by rewrite orb_true_r.
  - rewrite String.eqb_refl. by destruct (_ || _).
Qed.

Lemma expanded_form_matches (D : value) (category key : string) (x : value) :
  D <> JNull -> expanded_form D category key x ->
  objectMatchesKey (Some x) key D category = Returns true.
Proof.
  intros HD [Hobj Hc]. rewrite objectMatchesKey_component, Hobj, Hc by done.
  by rewrite String.eqb_refl, (object_truthy x).
Qed.

Lemma prototype_form_matches (D : value) (category key : string) (x : value) :
  D <> JNull -> prototype_form D category key x ->
  objectMatchesKey (Some x) key D category = Returns true.
Proof.
  intros HD [Hc [[Hp ->]|[Hp ->]]];
    by rewrite objectMatchesKey_component, Hc, Hp.
Qed.

(** [objectMatchesKey] returns [true] for the configured component in
    expanded form, for the prototype form, and for nothing else. *)
Lemma objectMatchesKey_forms (D : value) (category key : string) (x : value) :
  D <> JNull ->
  objectMatchesKey (Some x) key D category = Returns true <->
  expanded_form D category key x \/ prototype_form D category key x.
Proof.
  intros HD. split.
  - rewrite objectMatchesKey_component by done. intros [= H].
    apply andb_true_iff in H as [Hobj H].
    destruct (component D category key) as [cr|] eqn:Hc.
    + apply andb_true_iff in H as [_ H]. apply String.eqb_eq, stringify_inj in H.
      left. split; [done|by subst].
    + right. split; [done|].
      destruct (inherited D category key) as [p|]; [|done].
      apply String.eqb_eq in H.
      destruct p.
      * apply (stringify_inj x (JObj [])) in H. auto.
      * apply (stringify_inj x (JArr [])) in H. auto.
      * apply (stringify_inj x (JStr "")) in H. by subst.
      * apply (stringify_inj x (JNum 0)) in H. by subst.
      * apply (stringify_inj x (JBool false)) in H. by subst.
  - intros [H|H]; [by apply expanded_form_matches | by apply prototype_form_matches].
Qed.


Lemma assoc_In {X : Type} (k : string) (l : list (string * X)) (v : X) :
  assoc k l = Some v -> In (k, v) l.
Proof.
  induction l as [|[k' v'] l IH]; simpl; [done|].
  destruct (String.eqb_spec k k') as [->|_].
  - intros [= ->]. by left.
  - intros H. right. by apply IH.
Qed.

(** *** Single-field sites *)


Lemma for_field_extends (D : value) (section : option value)
    (kind fld key category : string) :
  D <> JNull -> components_ok section ->
  extends (for_field D section kind fld key category).
Proof. intros HD Hok deps. rewrite for_field_returns by done. by eexists. Qed.


Lemma for_part_extends (D : value) (part : option value)
    (kind part_name fld key category : string) :
  D <> JNull -> extends (for_part D part kind part_name fld key category).
Proof. intros HD deps. rewrite for_part_returns by done. by eexists. Qed.



(** *** What [finder_ready] provides *)

Lemma finder_ready_facts (D : value) :
  finder_ready D ->
  D <> JNull /\
  components_ok (qdot (prop D "resources") "tables") /\
  components_ok (qdot (prop D "resources") "volumes") /\
  components_ok (qdot (prop D "resources") "functions") /\
  components_ok (qdot (prop D "resources") "vector_stores") /\
  components_ok (prop D "prompts") /\
  components_ok (prop D "agents") /\
  components_ok (prop D "guardrails") /\
  components_ok (prop D "retrievers") /\
  components_ok (prop D "tools").
Proof.
  intros [HD H]. split; [done|].
  assert (Hq : forall k, qdot (Some D) k = prop D k) by (intros k; by destruct D).
  repeat split;
    match goal with
    | |- components_ok (qdot (prop D ?a) ?b) =>
        specialize (H [a; b]); cbn [lookup_path] in H; rewrite Hq in H
    | |- components_ok (prop D ?a) =>
        specialize (H [a]); cbn [lookup_path] in H; rewrite Hq in H
    end;
    apply H; unfold component_sections; simpl;
    repeat (first [left; reflexivity | right]).
Qed.

Lemma keyed_top (D : value) (s A : string) (comp : value) :
  D <> JNull -> keyed D [s] A comp ->
  exists fields, prop D s = Some (JObj fields) /\ assoc A fields = Some comp.
Proof.
  intros HD (fields & Hp & HA). exists fields. split; [|done].
  cbn [lookup_path] in Hp. by destruct D.
Qed.


(** [grow] discharges the goals that say a step returns and keeps the
    records found so far. *)
Ltac grow :=
  repeat first
    [ progress (rewrite ?get_not_null by assumption;
                cbn [mbind outcome_bind mret outcome_ret])
    | match goal with
      | |- extends _ => intros ?
      | |- grows _ (Returns (push _ _)) => apply grows_push
      | |- grows _ (Returns _) => apply grows_ret
      | |- grows _ (for_field _ _ _ _ _ _ _) => apply for_field_extends; assumption
      | |- grows _ (for_part _ _ _ _ _ _ _ _) => apply for_part_extends; assumption
      | |- grows _ (_ ≫= _) => apply grows_bind
      end ].


(** *** The schema finder as a chain of steps *)

Lemma falsy_resources (r : option value) (s : string) :
  truthy r = false -> String.eqb s "length" = false -> index_of_key s = None ->
  qdot r s = None.
Proof.
  intros Ht Hlen Hidx. destruct r as [[| | |str| |]|]; try done.
  simpl. by rewrite Hlen, Hidx.
Qed.

Lemma findSchemaDependencies_steps (D : value) (key : string) :
  D <> JNull ->
  findSchemaDependencies D key =
  (deps ←
     (deps ← for_field D (qdot (prop D "resources") "tables")
               "table" "schema" key "schema" [];
      deps ← for_field D (qdot (prop D "resources") "volumes")
               "volume" "schema" key "schema" deps;
      deps ← for_field D (qdot (prop D "resources") "functions")
               "function" "schema" key "schema" deps;
      for_vector_store_schemas D (qdot (prop D "resources") "vector_stores") key deps);
   deps ← for_field D (prop D "prompts") "prompt" "schema" key "schema" deps;
   let registered_model := qdot (prop D "app") "registered_model" in
   if truthy registered_model then
     schema ← dot registered_model "schema";
     mret (if valueContainsRef schema key
           then push deps {| type := "app"; name := "registered_model"; field := "schema" |}
           else deps)
   else mret deps).
Proof.
  intros HD. unfold findSchemaDependencies.
  rewrite !get_not_null by done. cbn [mbind outcome_bind].
  destruct (truthy (prop D "resources")) eqn:Ht.
  - destruct (prop D "resources") as [r|]; [|done].
    assert (Hr : r <> JNull) by (intros ->; done).
    rewrite !dot_not_null by done. cbn [mbind outcome_bind].
    by rewrite !qdot_some.
  - rewrite !(falsy_resources (prop D "resources")) by done.
    reflexivity.
Qed.

(** *** The walker finds every string form that occurs *)

Lemma refs_of_items_found (f : value -> string -> list string) (path : string)
    (items : list value) (v : value) :
  In v items -> (forall p, f v p <> []) ->
  forall index, refs_of_items f path items index <> [].
Proof.
  intros Hin Hv. induction items as [|y items IH]; intros index; [done|].
  cbn [refs_of_items]. destruct Hin as [->|Hin].
  - intros E. apply app_eq_nil in E as [E _]. by apply (Hv _ E).
  - intros E. apply app_eq_nil in E as [_ E]. by apply (IH Hin (S index)).
Qed.

Lemma refs_of_entries_found (f : value -> string -> list string) (key path : string)
    (fields : list (string * value)) (k : string) (v : value) :
  In (k, v) fields -> (forall p, f v p <> []) ->
  refs_of_entries f key path fields <> [].
Proof.
  intros Hin Hv. induction fields as [|[k' y] fields IH]; [done|].
  cbn [refs_of_entries fst snd]. destruct Hin as [[= -> ->]|Hin].
  - intros E. apply app_eq_nil in E as [E _].
    destruct (is_string (Some v) && valueContainsRef (Some v) key); [done|].
    by apply (Hv _ E).
  - intros E. apply app_eq_nil in E as [_ E]. by apply IH.
Qed.

Lemma findRefsInObject_found (key : string) (x v : value) :
  occurs x v -> string_form key x ->
  forall path, findRefsInObject v key path <> [].
Proof.
  intros Hocc Hform. induction Hocc as [|items v Hin _ IH|fields k v Hin _ IH];
    intros path.
  - pose proof (string_form_contains key x Hform) as Hc.
    destruct Hform as [-> | [-> | ->]]; cbn [findRefsInObject]; by rewrite Hc.
  - cbn [findRefsInObject]. by eapply refs_of_items_found.
  - cbn [findRefsInObject]. by eapply refs_of_entries_found.
Qed.

Lemma found_length (refs : list string) : refs <> [] -> (0 <? length refs)%nat = true.
Proof. by destruct refs. Qed.

(** *** The vector-store step of the schema finder *)

Lemma objectMatchesKey_returns (v : option value) (key : string) (D : value) (c : string) :
  D <> JNull -> exists b, objectMatchesKey v key D c = Returns b.
Proof.
  intros HD. destruct v as [o|]; [|by eexists].
  rewrite objectMatchesKey_component by done. by eexists.
Qed.

Lemma and_then_returns (a : bool) (v : option value) (key : string) (D : value)
    (c : string) :
  D <> JNull -> exists b, and_then a (objectMatchesKey v key D c) = Returns b.
Proof.
  intros HD. destruct a; [by apply objectMatchesKey_returns | by eexists].
Qed.


Lemma Object_entries_truthy (section : option value) :
  truthy section = true ->
  exists s, section = Some s /\ Object_entries section = Returns (entries s).
Proof. destruct section as [[]|]; try done; by eexists. Qed.

Lemma grows_push2 (deps : list DependencyInfo) (r1 r2 : DependencyInfo) :
  grows deps (Returns (push (push deps r1) r2)).
Proof. exists [r1; r2]. unfold push. by rewrite <- List.app_assoc. Qed.



(** One pass of the vector-store loop on a component that is not [null]. *)
Lemma vector_store_pass_grows (D : value) (key k : string) (item : value)
    (deps : list DependencyInfo) :
  D <> JNull -> item <> JNull ->
  grows deps
    (let refs := findRefsInObject item key "" in
     if (0 <? length refs)%nat then
       mret (push deps {| type := "vector_store"; name := k; field := first_path refs |})
     else
       source_table ← dot (Some item) "source_table";
       let source_schema := qdot source_table "schema" in
       hit ← and_then (truthy source_schema)
               (objectMatchesKey source_schema key D "schema");
       let deps :=
         if (hit : bool) then push deps {| type := "vector_store"; name := k;
                                           field := "source_table.schema" |}
         else deps in
       index ← dot (Some item) "index";
       let index_schema := qdot index "schema" in
       hit ← and_then (truthy index_schema)
               (objectMatchesKey index_schema key D "schema");
       mret (if (hit : bool) then push deps {| type := "vector_store"; name := k;
                                               field := "index.schema" |}
             else deps)).
Proof.
  intros HD Hitem. cbv zeta.
  destruct (0 <? length (findRefsInObject item key ""))%nat; [apply grows_push|].
  rewrite !dot_not_null by done. cbn [mbind outcome_bind].
  destruct (and_then_returns (truthy (qdot (prop item "source_table") "schema"))
              (qdot (prop item "source_table") "schema") key D "schema" HD) as [b1 ->].
  cbn [mbind outcome_bind].
  destruct (and_then_returns (truthy (qdot (prop item "index") "schema"))
              (qdot (prop item "index") "schema") key D "schema" HD) as [b2 ->].
  cbn [mbind outcome_bind mret outcome_ret].
  destruct b1, b2; first [apply grows_push2 | apply grows_push | apply grows_ret].
Qed.

Lemma components_ok_In (fields : list (string * value)) (k : string) (item : value) :
  components_ok (Some (JObj fields)) -> In (k, item) fields -> item <> JNull.
Proof.
  simpl. rewrite Forall_forall. intros Hok Hin.
  apply (Hok (k, item)). by apply list_elem_of_In.
Qed.

Lemma components_ok_entries (s : value) (k : string) (item : value) :
  components_ok (Some s) -> In (k, item) (entries s) -> item <> JNull.
Proof.
  simpl. rewrite Forall_forall. intros Hok Hin.
  apply (Hok (k, item)). by apply list_elem_of_In.
Qed.

Lemma for_vector_store_schemas_extends (D : value) (vs : option value) (key : string) :
  D <> JNull -> components_ok vs ->
  extends (for_vector_store_schemas D vs key).
Proof.
  intros HD Hok deps. unfold for_vector_store_schemas.
  destruct (truthy vs) eqn:Ht; [|apply grows_ret].
  destruct (Object_entries_truthy vs Ht) as (s & -> & ->).
  cbn [mbind outcome_bind]. apply extends_for_of.
  intros [k item] Hin deps'.
  apply vector_store_pass_grows; eauto using components_ok_entries.
Qed.



(** *** Steps over the tools and the databases *)

Lemma for_tool_functions_extends (D : value)
    (body : string -> value -> list DependencyInfo -> outcome (list DependencyInfo)) :
  D <> JNull -> components_ok (prop D "tools") ->
  (forall k fn, extends (body k fn)) ->
  extends (for_tool_functions D body).
Proof.
  intros HD Hok Hbody deps. unfold for_tool_functions.
  rewrite get_not_null by done. cbn [mbind outcome_bind].
  destruct (truthy (prop D "tools")) eqn:Ht; [|apply grows_ret].
  destruct (Object_entries_truthy _ Ht) as (s & Hs & ->). rewrite Hs in Hok.
  cbn [mbind outcome_bind]. apply extends_for_of.
  intros [k tool] Hin deps'.
  rewrite dot_not_null by eauto using components_ok_entries.
  cbn [mbind outcome_bind].
  destruct (prop tool "function") as [f|]; [|apply grows_ret].
  destruct (is_object (Some f)); [apply Hbody | apply grows_ret].
Qed.


(** The body that records a tool when the walker finds a path. *)
Lemma walk_body_extends (key kind k : string) (fld : list string -> string) (fn : value) :
  extends (fun deps =>
             let refs := findRefsInObject fn key "" in
             mret (if (0 <? length refs)%nat
                   then push deps {| type := kind; name := k; field := fld refs |}
                   else deps)).
Proof.
  intros deps. cbv zeta. cbn [mret outcome_ret].
  destruct (0 <? length _)%nat; [apply grows_push | apply grows_ret].
Qed.


Lemma tool_arg_body_extends (D : value) (key arg kind k : string) (fn : value) :
  D <> JNull -> extends (tool_arg_body D key arg kind k fn).
Proof.
  intros HD deps. unfold tool_arg_body.
  destruct (0 <? length _)%nat; [apply grows_push|].
  destruct (and_then_returns (truthy (qdot (prop fn "args") arg))
              (qdot (prop fn "args") arg) key D kind HD) as [b ->].
  cbn [mbind outcome_bind mret outcome_ret].
  destruct b; [apply grows_push | apply grows_ret].
Qed.



Lemma function_body_extends (key k : string) (fn : value) :
  extends (fun deps =>
    let deps :=
      match prop fn "__MERGE__" with
      | Some (JStr m) =>
          if String.eqb m key
          then push deps {| type := "tool"; name := k; field := "function (merge key)" |}
          else deps
      | _ => deps
      end in
    let refs := findRefsInObject fn key "" in
    mret (if (0 <? length refs)%nat
          then push deps {| type := "tool"; name := k; field := first_path refs |}
          else deps)).
Proof.
  intros deps. cbv zeta. cbn [mret outcome_ret].
  destruct (prop fn "__MERGE__") as [[| | |m| |]|];
    try (destruct (0 <? length _)%nat; [apply grows_push | apply grows_ret]).
  destruct (String.eqb m key), (0 <? length _)%nat;
    first [apply grows_push2 | apply grows_push | apply grows_ret].
Qed.


Lemma for_database_refs_extends (D : value) (key : string) :
  D <> JNull -> extends (for_database_refs D key).
Proof.
  intros HD deps. unfold for_database_refs.
  rewrite get_not_null by done. cbn [mbind outcome_bind].
  destruct (truthy (qdot (prop D "resources") "databases")) eqn:Ht; [|apply grows_ret].
  destruct (Object_entries_truthy _ Ht) as (s & Hs & ->).
  cbn [mbind outcome_bind]. apply extends_for_of.
  intros [k db] Hin deps'. cbn [mret outcome_ret].
  destruct (0 <? length _)%nat; [apply grows_push | apply grows_ret].
Qed.


(** *** Lists of references *)

Lemma first_reference_grows (D : value) (items : list value) (key kind : string)
    (d : DependencyInfo) :
  D <> JNull -> extends (first_reference D items key kind d).
Proof.
  intros HD. unfold first_reference.
  induction items as [|y items IH]; intros deps; cbn [for_of_break]; [apply grows_ret|].
  destruct (is_string (Some y)).
  - cbn [mbind outcome_bind mret outcome_ret].
    destruct (valueContainsRef (Some y) key); [apply grows_push | apply IH].
  - destruct (is_object (Some y)); [|apply IH].
    destruct (objectMatchesKey_returns (Some y) key D kind HD) as [b ->].
    cbn [mbind outcome_bind mret outcome_ret].
    destruct b; [apply grows_push | apply IH].
Qed.

Lemma first_reference_gains (D : value) (items : list value) (key kind : string)
    (d : DependencyInfo) (x : value) :
  D <> JNull -> In x items -> matched_form D kind key x ->
  adds (name d) (first_reference D items key kind d).
Proof.
  intros HD Hin Hmatched.
  assert (Hform : string_form key x \/
                  (is_object (Some x) = true /\
                   objectMatchesKey (Some x) key D kind = Returns true)).
  { destruct Hmatched as [[Hs|Hexp]|Hproto]; [by left|right..].
    - split; [apply Hexp | by apply expanded_form_matches].
    - split; [|by apply prototype_form_matches].
      by destruct Hproto as [_ [[_ ->]|[_ ->]]]. }
  clear Hmatched. unfold first_reference.
  induction items as [|y items IH]; intros deps; [done|]. cbn [for_of_break].
  destruct (is_string (Some y)) eqn:Hstr.
  - cbn [mbind outcome_bind mret outcome_ret].
    destruct (valueContainsRef (Some y) key) eqn:Hc; [apply gains_push|].
    destruct Hin as [->|Hin]; [|by apply IH].
    destruct Hform as [Hs|[Hobj _]].
    + by rewrite string_form_contains in Hc.
    + by destruct x.
  - destruct (is_object (Some y)) eqn:Hobj.
    + destruct (objectMatchesKey_returns (Some y) key D kind HD) as [b Hb].
      rewrite Hb. cbn [mbind outcome_bind mret outcome_ret].
      destruct b; [apply gains_push|].
      destruct Hin as [->|Hin]; [|by apply IH].
      destruct Hform as [Hs|[_ Hexp]].
      * destruct Hs as [-> | [-> | ->]]; discriminate.
      * rewrite Hexp in Hb. discriminate.
    + destruct Hin as [->|Hin]; [|by apply IH].
      destruct Hform as [Hs|[Hobj' _]]; [|congruence].
      destruct Hs as [-> | [-> | ->]]; discriminate.
Qed.

(** *** The finders, site by site *)


Lemma registered_model_extends (D : value) (key : string) :
  extends (fun deps =>
    if truthy (qdot (prop D "app") "registered_model") then
      schema ← dot (qdot (prop D "app") "registered_model") "schema";
      mret (if valueContainsRef schema key
            then push deps {| type := "app"; name := "registered_model";
                              field := "schema" |}
            else deps)
    else mret deps).
Proof.
  intros deps. destruct (truthy _) eqn:Ht; [|apply grows_ret].
  destruct (qdot (prop D "app") "registered_model") as [rm|]; [|done].
  rewrite dot_not_null by (intros ->; done).
  cbn [mbind outcome_bind mret outcome_ret].
  destruct (valueContainsRef _ _); [apply grows_push | apply grows_ret].
Qed.

(** [grow], extended with the steps proved since. *)
Ltac grow ::=
  repeat first
    [ progress (rewrite ?get_not_null by assumption;
                cbn [mbind outcome_bind mret outcome_ret])
    | match goal with
      | |- extends (for_tool_functions _ _) => apply for_tool_functions_extends
      | |- extends (tool_arg_body _ _ _ _ _ _) => apply tool_arg_body_extends
      | |- extends _ => intros ?
      | |- exists l, ?m = Returns (?d ++ l)%list => change (grows d m)
      | |- forall _, _ => intros ?
      | |- _ <> JNull => assumption
      | |- components_ok _ => assumption
      | |- grows _ (Returns (push _ _)) => apply grows_push
      | |- grows _ (Returns _) => apply grows_ret
      | |- grows _ (for_field _ _ _ _ _ _ _) => apply for_field_extends
      | |- grows _ (for_part _ _ _ _ _ _ _ _) => apply for_part_extends
      | |- grows _ (for_vector_store_schemas _ _ _ _) =>
          apply for_vector_store_schemas_extends
      | |- grows _ (for_database_refs _ _ _) => apply for_database_refs_extends
      | |- grows _ (for_tool_functions _ _ _) => apply for_tool_functions_extends
      | |- grows _ (first_reference _ _ _ _ _ _) => apply first_reference_grows
      | |- grows _ (if truthy (qdot (prop _ "app") "registered_model") then _ else _) =>
          apply registered_model_extends
      | |- grows _ (_ ≫= _) => apply grows_bind
      end ].





(** The environment-variable step of the variable finder. *)
Lemma environment_vars_extends (env : option value) (key : string) :
  extends (fun deps =>
    if truthy env then
      es ← Object_entries env;
      for_of es (fun '(k, v) deps =>
        mret (if valueContainsRef (Some v) key
              then push deps {| type := "environment_var"; name := k; field := "value" |}
              else deps)) deps
    else mret deps).
Proof.
  intros deps. destruct (truthy env) eqn:Ht; [|apply grows_ret].
  destruct (Object_entries_truthy _ Ht) as (s & Hs & ->).
  cbn [mbind outcome_bind]. apply extends_for_of.
  intros [k v] _ deps'. cbn [mret outcome_ret].
  destruct (valueContainsRef _ _); [apply grows_push | apply grows_ret].
Qed.

(** [grow] once more, with the blocks of the variable finder. *)
Ltac grow ::=
  repeat first
    [ progress (rewrite ?get_not_null by assumption;
                cbn [mbind outcome_bind mret outcome_ret])
    | match goal with
      | |- extends (for_tool_functions _ _) => apply for_tool_functions_extends
      | |- extends (tool_arg_body _ _ _ _ _ _) => apply tool_arg_body_extends
      | |- extends _ => intros ?
      | |- exists l, ?m = Returns (?d ++ l)%list => change (grows d m)
      | |- forall _, _ => intros ?
      | |- _ <> JNull => assumption
      | |- components_ok _ => assumption
      | |- grows _ (Returns (push _ _)) => apply grows_push
      | |- grows _ (Returns _) => apply grows_ret
      | |- grows ?d (mret ?x) => change (grows d (Returns x))
      | |- grows ?d (Returns (if ?b then _ else _)) => destruct b
      | |- grows _ (for_field _ _ _ _ _ _ _) => apply for_field_extends
      | |- grows _ (for_part _ _ _ _ _ _ _ _) => apply for_part_extends
      | |- grows _ (for_vector_store_schemas _ _ _ _) =>
          apply for_vector_store_schemas_extends
      | |- grows _ (for_database_refs _ _ _) => apply for_database_refs_extends
      | |- grows _ (for_tool_functions _ _ _) => apply for_tool_functions_extends
      | |- grows _ (tool_arg_body _ _ _ _ _ _ _) => apply tool_arg_body_extends
      | |- grows _ (first_reference _ _ _ _ _ _) => apply first_reference_grows
      | |- grows _ (if truthy (qdot (prop _ "app") "registered_model") then _ else _) =>
          apply registered_model_extends
      | |- grows _ (if truthy (qdot (prop _ "app") "environment_vars") then _ else _) =>
          apply environment_vars_extends
      | |- grows _ (if (0 <? length _)%nat then _ else _) =>
          destruct (0 <? length _)%nat
      | |- grows _ (match prop ?fn "__MERGE__" with _ => _ end) =>
          apply function_body_extends
      | |- grows _ (_ ≫= _) => apply grows_bind
      end ].









(** * The finders beyond the claims *)

(** ** The Graph Walker finds the string references, and only those *)

Lemma contains_string_form (key : string) (x : value) :
  valueContainsRef (Some x) key = true -> string_form key x.
Proof.
  destruct x as [| | |s| |]; try discriminate. unfold valueContainsRef, string_form.
  destruct (String.eqb_spec s ("__REF__" +:+ key)) as [->|_]; [auto|].
  destruct (String.eqb_spec s ("*" +:+ key)) as [->|_]; [auto|].
  destruct (String.eqb_spec s key) as [->|_]; [auto|discriminate].
Qed.

Lemma refs_of_items_origin (f : value -> string -> list string) (path : string)
    (items : list value) :
  forall index, refs_of_items f path items index <> [] ->
                exists v p, In v items /\ f v p <> [].
Proof.
  induction items as [|item items IH]; intros index; cbn [refs_of_items]; [done|].
  destruct (f item _) eqn:Hf.
  - intros H. destruct (IH _ H) as (v & p & Hin & Hv). exists v, p. split; [by right|done].
  - intros _. eexists item, _. split; [by left|]. by rewrite Hf.
Qed.

Lemma refs_of_entries_origin (f : value -> string -> list string) (key path : string)
    (fields : list (string * value)) :
  refs_of_entries f key path fields <> [] ->
  exists k v, In (k, v) fields /\
              (valueContainsRef (Some v) key = true \/ exists p, f v p <> []).
Proof.
  induction fields as [|[k v] fields IH]; cbn [refs_of_entries]; [done|].
  cbn [fst snd].
  destruct (is_string (Some v) && valueContainsRef (Some v) key) eqn:Hs.
  - intros _. apply andb_true_iff in Hs as [_ Hs]. exists k, v. split; [by left|by left].
  - destruct (f v _) eqn:Hf.
    + intros H. destruct (IH H) as (k' & v' & Hin & Hv).
      exists k', v'. split; [by right|done].
    + intros _. exists k, v. split; [by left|]. right. eexists. by rewrite Hf.
Qed.

Lemma findRefsInObject_origin (key : string) (v : value) :
  forall path, findRefsInObject v key path <> [] ->
               exists x, occurs x v /\ string_form key x.
Proof.
  induction v as [| | |s|items IH|fields IH] using value_ind';
    intros path; cbn [findRefsInObject]; try done.
  - destruct (valueContainsRef _ _) eqn:Hc; [|done]. intros _.
    exists (JStr s). split; [constructor | by apply contains_string_form].
  - intros H. apply refs_of_items_origin in H as (v & p & Hin & Hv).
    rewrite Forall_forall in IH.
    destruct (IH v (proj2 (list_elem_of_In _ _) Hin) p Hv) as (x & Hocc & Hform).
    exists x. split; [by eapply occurs_item|done].
  - intros H. apply refs_of_entries_origin in H as (k & v & Hin & [Hc|[p Hv]]).
    + exists v. split; [|by apply contains_string_form].
      eapply occurs_entry; [exact Hin|constructor].
    + rewrite Forall_forall in IH.
      destruct (IH (k, v) (proj2 (list_elem_of_In _ _) Hin) p Hv) as (x & Hocc & Hform).
      exists x. split; [by eapply occurs_entry|done].
Qed.

Lemma walk_hit_origin (key : string) (v : value) :
  (0 <? length (findRefsInObject v key ""))%nat = true ->
  exists x, occurs x v /\ string_form key x.
Proof.
  intros Hlen. apply (findRefsInObject_origin key v "").
  by destruct (findRefsInObject v key "").
Qed.

(** X1: [findRefsInObject] returns a path exactly when a string somewhere in
    the value is one of the three string forms of the key; the starting path
    plays no part in that. *)
Theorem findRefsInObject_exact (key : string) (v : value) (path : string) :
  findRefsInObject v key path <> [] <->
  exists x, occurs x v /\ string_form key x.
Proof.
  split; [apply findRefsInObject_origin|].
  intros (x & Hocc & Hform). by eapply findRefsInObject_found.
Qed.

(** ** [formatDependencyMessage] *)

Lemma join_occurs (sep line : string) (lines : list string) :
  In line lines -> occurs_in line (join sep lines).
Proof.
  induction lines as [|l lines IH]; [done|]. intros [->|Hin].
  - destruct lines as [|l' lines]; cbn [join].
    + exists "", "". by rewrite append_empty_r.
    + exists "", (sep +:+ join sep (l' :: lines)). reflexivity.
  - destruct (IH Hin) as (a & b & E). destruct lines as [|l' lines]; [done|].
    cbn [join] in *. rewrite E.
    exists (l +:+ sep +:+ a), b. by rewrite !append_assoc.
Qed.

(** X2: [formatDependencyMessage] returns the empty string exactly for the
    empty list, and otherwise a text in which the line of every record
    occurs. *)
Theorem formatDependencyMessage_lists_all (deps : list DependencyInfo) :
  (formatDependencyMessage deps = "" <-> deps = []) /\
  forall d, In d deps -> occurs_in (dependency_line d) (formatDependencyMessage deps).
Proof.
  split.
  - destruct deps; [done|]. split; discriminate.
  - intros d Hin. destruct deps as [|d0 deps]; [done|].
    unfold formatDependencyMessage. cbn [length Nat.eqb]. cbv zeta.
    destruct (join_occurs newline (dependency_line d) (map dependency_line (d0 :: deps)))
      as (a & b & E); [by apply in_map|].
    rewrite E.
    exists ("This component is referenced by:" +:+ newline +:+ a),
           (b +:+ newline +:+ newline +:+
            "Please remove these references before deleting.").
    by rewrite !append_assoc.
Qed.

(** ** The finders return on documents without null components *)

Lemma for_agent_lists_grows (D : value) (key fld kind : string) :
  D <> JNull -> components_ok (prop D "agents") ->
  grows [] (for_agent_lists D key fld kind).
Proof.
  intros HD Hok. unfold for_agent_lists. rewrite get_not_null by done.
  cbn [mbind outcome_bind].
  destruct (truthy (prop D "agents")) eqn:Ht; [|apply grows_ret].
  destruct (Object_entries_truthy _ Ht) as (s & Hs & ->). rewrite Hs in Hok.
  cbn [mbind outcome_bind]. apply extends_for_of.
  intros [k agent] Hin deps.
  rewrite dot_not_null by eauto using components_ok_entries.
  cbn [mbind outcome_bind].
  destruct (prop agent fld) as [[| | | |l|]|]; try apply grows_ret.
  by apply first_reference_grows.
Qed.

Lemma findPromptDependencies_grows (D : value) (key : string) :
  D <> JNull -> components_ok (prop D "agents") ->
  grows [] (findPromptDependencies D key).
Proof.
  intros HD Hok. unfold findPromptDependencies. rewrite get_not_null by done.
  cbn [mbind outcome_bind].
  destruct (truthy (prop D "agents")) eqn:Ht; [|apply grows_ret].
  destruct (Object_entries_truthy _ Ht) as (s & Hs & ->). rewrite Hs in Hok.
  cbn [mbind outcome_bind]. apply extends_for_of.
  intros [k agent] Hin deps.
  rewrite dot_not_null by eauto using components_ok_entries.
  cbn [mbind outcome_bind mret outcome_ret].
  destruct (valueContainsRef _ _); [apply grows_push | apply grows_ret].
Qed.

Lemma findAgentDependencies_grows (D : value) (key : string) :
  D <> JNull -> grows [] (findAgentDependencies D key).
Proof.
  intros HD. unfold findAgentDependencies. rewrite get_not_null by done.
  cbn [mbind outcome_bind].
  destruct (qdot (prop D "app") "agents") as [[| | | |items|]|]; try apply grows_ret.
  by apply first_reference_grows.
Qed.

Lemma find_grows (D : value) (key : string) (c : category) :
  finder_ready D -> grows [] (find c D key).
Proof.
  intros Hready.
  destruct (finder_ready_facts D Hready)
    as (HD & Htab & Hvol & Hfun & Hvs & Hpr & Hag & Hgu & Hre & Hto).
  destruct c; cbn [find].
  - rewrite findSchemaDependencies_steps by done. cbv zeta. grow.
  - unfold findLlmDependencies. grow.
  - unfold findVariableDependencies. rewrite !get_not_null by done.
    cbn [mbind outcome_bind]. cbv zeta. grow.
  - unfold findRetrieverDependencies. grow.
  - unfold findGenieRoomDependencies. grow.
  - unfold findVectorStoreDependencies. grow.
  - unfold findFunctionDependencies. apply for_tool_functions_extends; try done.
    intros k f. apply function_body_extends.
  - by apply for_agent_lists_grows.
  - by apply for_agent_lists_grows.
  - by apply findPromptDependencies_grows.
  - by apply findAgentDependencies_grows.
  - unfold findDatabaseDependencies. grow.
  - unfold findServicePrincipalDependencies. grow.
  - unfold findConnectionDependencies, for_tool_refs.
    apply for_tool_functions_extends; try done.
    intros k f. apply (walk_body_extends key "tool" k (fun _ => "connection") f).
  - unfold findWarehouseDependencies, for_tool_refs.
    apply for_tool_functions_extends; try done.
    intros k f. apply (walk_body_extends key "tool" k (fun _ => "warehouse") f).
Qed.

(** X3: on a document none of whose components is [null], each of the
    fifteen finders returns a list; none raises. *)
Theorem finders_return (D : value) (key : string) (c : category) :
  finder_ready D -> exists l, find c D key = Returns l.
Proof.
  intros Hready. destruct (find_grows D key c Hready) as [l E]. by exists l.
Qed.

Lemma finders_return_witness :
  exists l, find K_Tool two_llms "search" = Returns l.
Proof.
  apply (finders_return two_llms "search" K_Tool).
  split; [done|].
  intros path Hin. unfold component_sections in Hin. simpl in Hin.
  repeat destruct Hin as [<-|Hin]; try destruct Hin; cbn; auto.
Defined.

(** ** A null component makes a finder raise *)

Lemma for_field_null (D : value) (section : option value)
    (kind fld key refKind : string) (deps : list DependencyInfo) :
  D <> JNull -> ~ components_ok section ->
  for_field D section kind fld key refKind deps = Throws TypeError.
Proof.
  intros HD Hbad. destruct section as [s|]; [|by destruct Hbad].
  cbn [components_ok] in Hbad. unfold for_field.
  assert (Ht : truthy (Some s) = true).
  { destruct s as [| | |str| |]; try (by destruct Hbad; constructor); try done.
    destruct str; [by destruct Hbad; constructor|done]. }
  rewrite Ht. destruct (Object_entries_truthy _ Ht) as (s' & [= <-] & ->).
  cbn [mbind outcome_bind]. clear Ht.
  revert Hbad deps. generalize (entries s). intros es.
  induction es as [|[k item] es IH]; intros Hbad deps.
  - destruct Hbad. constructor.
  - cbn [for_of]. destruct (decide (item = JNull)) as [->|Hitem]; [reflexivity|].
    rewrite dot_not_null by done. cbn [mbind outcome_bind].
    rewrite refers_returns by done. cbn [mbind outcome_bind mret outcome_ret].
    apply IH. intros H. apply Hbad. by constructor.
Qed.

(** X4: [findLlmDependencies] returns a list exactly on the documents whose
    root is not [null] and whose agents, guardrails and vector stores have
    no [null] component; on every other document it raises a [TypeError]. *)
Theorem findLlmDependencies_raises (D : value) (key : string) :
  let ready : Prop :=
    D <> JNull /\ components_ok (prop D "agents") /\
    components_ok (prop D "guardrails") /\
    components_ok (qdot (prop D "resources") "vector_stores") in
  (ready -> exists l, findLlmDependencies D key = Returns l) /\
  (~ ready -> findLlmDependencies D key = Throws TypeError).
Proof.
  cbv zeta. split.
  - intros (HD & Hag & Hgu & Hvs). rewrite findLlmDependencies_returns by done. eauto.
  - intros Hbad. destruct D as [| | | | |]; try reflexivity;
      unfold findLlmDependencies; rewrite !get_not_null by done;
      cbn [mbind outcome_bind].
    all: match goal with |- context [for_field ?D _ "agent" _ _ _ _] =>
           set (doc := D) in * end.
    all: assert (HD : doc <> JNull) by done.
    all: destruct (decide (components_ok (prop doc "agents"))) as [Hag|Hag];
      [|by rewrite for_field_null].
    all: rewrite for_field_returns by done; cbn [mbind outcome_bind].
    all: destruct (decide (components_ok (prop doc "guardrails"))) as [Hgu|Hgu];
      [|by rewrite for_field_null].
    all: rewrite for_field_returns by done; cbn [mbind outcome_bind].
    all: do 2 (rewrite for_part_returns by done; cbn [mbind outcome_bind]).
    all: apply for_field_null; [done|]; intros Hvs; apply Hbad; done.
Qed.

(** ** A merge key is reported twice *)

Lemma for_of_inserts {X : Type} (es : list X)
    (body : X -> list DependencyInfo -> outcome (list DependencyInfo))
    (x : X) (ins : list DependencyInfo) :
  (forall y, In y es -> extends (body y)) -> In x es ->
  (forall d, body x d = Returns (d ++ ins)%list) ->
  forall d, exists before after,
    for_of es body d = Returns (d ++ before ++ ins ++ after)%list.
Proof.
  induction es as [|y es IH]; intros Hext Hin Hx d; [done|]. cbn [for_of].
  destruct Hin as [->|Hin].
  - rewrite Hx. cbn [mbind outcome_bind].
    destruct (extends_for_of es body (fun z Hz => Hext z (or_intror Hz)) (d ++ ins)%list)
      as [after E].
    exists [], after. rewrite E. by rewrite <- app_assoc.
  - destruct (Hext y (or_introl eq_refl) d) as [l E]. rewrite E.
    cbn [mbind outcome_bind].
    destruct (IH (fun z Hz => Hext z (or_intror Hz)) Hin Hx (d ++ l)%list)
      as (before & after & E').
    exists (l ++ before)%list, after. rewrite E'. by rewrite <- !app_assoc.
Qed.

(** X6: a tool whose function carries the queried key as its merge key is
    reported twice by [findFunctionDependencies]: once for the merge key and
    once more, right after, because the walk through the function finds the
    same string. *)
Theorem findFunctionDependencies_merge_key_twice (D : value) (key A : string)
    (comp fn : value) :
  finder_ready D ->
  keyed D ["tools"] A comp -> prop comp "function" = Some fn ->
  prop fn "__MERGE__" = Some (JStr key) ->
  exists before path after,
    findFunctionDependencies D key =
    Returns (before ++
             [{| type := "tool"; name := A; field := "function (merge key)" |};
              {| type := "tool"; name := A; field := path |}] ++ after)%list.
Proof.
  intros Hready Hkeyed Hfn Hmerge.
  destruct (finder_ready_facts D Hready)
    as (HD & Htab & Hvol & Hfun & Hvs & Hpr & Hag & Hgu & Hre & Hto).
  destruct (keyed_top D "tools" A comp HD Hkeyed) as (fields & Htools & Hcomp).
  assert (Hobj : exists members, fn = JObj members).
  { destruct fn as [| | | | |members]; try (by vm_compute in Hmerge). by exists members. }
  destruct Hobj as [members ->].
  unfold findFunctionDependencies, for_tool_functions.
  rewrite get_not_null by done. rewrite Htools in *.
  cbn [mbind outcome_bind truthy Object_entries].
  edestruct (for_of_inserts (entries (JObj fields))) as (before & after & E);
    [| by apply assoc_In | | rewrite E; by eauto].
  - intros [k tool] Hin d.
    rewrite dot_not_null by eauto using components_ok_entries.
    cbn [mbind outcome_bind].
    destruct (prop tool "function") as [f|]; [|apply grows_ret].
    destruct (is_object (Some f)); [apply function_body_extends | apply grows_ret].
  - intros d. cbv beta iota.
    rewrite dot_not_null by eauto using components_ok_In, assoc_In.
    cbn [mbind outcome_bind]. rewrite Hfn. cbn [is_object typeof_object negb andb].
    rewrite Hmerge, String.eqb_refl. cbv zeta.
    rewrite found_length.
    + cbn [mret outcome_ret]. unfold push. by rewrite <- app_assoc.
    + apply (findRefsInObject_found key (JStr key)); [|right; by right].
      eapply occurs_entry; [by apply assoc_In|constructor].
Qed.

Lemma two_llms_ready : finder_ready two_llms.
Proof.
  split; [done|].
  intros path Hin. unfold component_sections in Hin. simpl in Hin.
  repeat destruct Hin as [<-|Hin]; try destruct Hin; cbn; auto.
Qed.

(** * The finders report nothing but references *)

Section soundness.
Variable P : DependencyInfo -> Prop.

Lemma within_ret (deps : list DependencyInfo) : within P deps (Returns deps).
Proof. exists []. by rewrite app_nil_r. Qed.

Lemma within_push (deps : list DependencyInfo) (r : DependencyInfo) :
  P r -> within P deps (Returns (push deps r)).
Proof. intros Hr. exists [r]. split; [done|]. by constructor. Qed.

Lemma within_bind (deps : list DependencyInfo) (m : outcome (list DependencyInfo))
    (K : list DependencyInfo -> outcome (list DependencyInfo)) :
  within P deps m -> (forall d, within P d (K d)) -> within P deps (m ≫= K).
Proof.
  intros (l & -> & Hl) HK. cbn [mbind outcome_bind].
  destruct (HK (deps ++ l)%list) as (l' & -> & Hl'). exists (l ++ l')%list.
  split; [by rewrite app_assoc|]. by apply Forall_app.
Qed.

Lemma within_for_of {X : Type} (es : list X)
    (body : X -> list DependencyInfo -> outcome (list DependencyInfo)) :
  (forall x, In x es -> forall d, within P d (body x d)) ->
  forall d, within P d (for_of es body d).
Proof.
  induction es as [|x es IH]; intros H d; cbn [for_of]; [apply within_ret|].
  apply within_bind; [apply H; by left|]. intros d'. apply IH. intros y Hy. apply H. by right.
Qed.

Lemma within_if (b : bool) (deps : list DependencyInfo) (r : DependencyInfo) :
  (b = true -> P r) -> within P deps (Returns (if b then push deps r else deps)).
Proof. destruct b; intros H; [apply within_push; auto | apply within_ret]. Qed.

End soundness.

Lemma same_text_expanded (D : value) (kind key : string) (v : value) :
  key <> "__proto__" -> same_text D kind key v = true -> component D kind key = Some v.
Proof.
  intros Hkey. unfold same_text. rewrite inherited_none by done.
  destruct (component D kind key) as [cr|]; [|done].
  intros H. apply andb_true_iff in H as [_ H].
  apply String.eqb_eq in H. apply stringify_inj in H. by subst.
Qed.

Lemma refers_to_form (D : value) (x : option value) (key kind : string) :
  key <> "__proto__" ->
  refers_to D x key kind = true ->
  exists v, x = Some v /\ reference_form D kind key v.
Proof.
  intros Hkey. unfold refers_to. destruct x as [v|]; [|done]. intros H.
  exists v. split; [done|].
  apply orb_true_iff in H as [H|H]; [left; by apply contains_string_form|].
  apply andb_true_iff in H as [H1 H2].
  right. split; [done|]. by apply same_text_expanded.
Qed.

Lemma matches_expanded (D : value) (o : option value) (key kind : string) :
  D <> JNull -> key <> "__proto__" -> objectMatchesKey o key D kind = Returns true ->
  exists v, o = Some v /\ expanded_form D kind key v.
Proof.
  intros HD Hkey. destruct o as [v|]; [|by rewrite objectMatchesKey_undefined].
  rewrite objectMatchesKey_same_text by done. intros [= H]. exists v. split; [done|].
  apply andb_true_iff in H as [H1 H].
  split; [done|]. by apply same_text_expanded.
Qed.

(** Under a key other than [__proto__] the forms matched are the
    reference forms. *)
Lemma matched_reference (D : value) (kind key : string) (x : value) :
  key <> "__proto__" -> matched_form D kind key x -> reference_form D kind key x.
Proof.
  intros Hkey [H|[_ [[H _]|[H _]]]]; [done|..]; by rewrite inherited_none in H.
Qed.

Lemma NoDup_assoc {X : Type} (k : string) (v : X) (l : list (string * X)) :
  NoDup (map fst l) -> In (k, v) l -> assoc k l = Some v.
Proof.
  induction l as [|[k' v'] l IH]; [done|]. cbn [map fst assoc].
  intros Hnd [[= -> ->]|Hin].
  - by rewrite String.eqb_refl.
  - apply NoDup_cons in Hnd as [Hk Hnd].
    destruct (String.eqb_spec k k') as [->|_]; [|by apply IH].
    destruct Hk. apply list_elem_of_In. by apply (in_map fst l (k', v)).
Qed.

Lemma keyed_of_entry (D : value) (path : list string) (s : value) (k : string)
    (item : value) :
  lookup_path (Some D) path = Some s -> keyed_section (Some s) ->
  In (k, item) (entries s) -> keyed D path k item.
Proof.
  intros Hs Hk Hin. destruct s as [| | | | |fields]; try done.
  exists fields. split; [done|]. by apply NoDup_assoc.
Qed.

Lemma lookup_path_snoc (v : option value) (path : list string) (k : string) :
  lookup_path v (path ++ [k])%list = qdot (lookup_path v path) k.
Proof. revert v. induction path as [|s path IH]; intros v; [done|]. apply IH. Qed.

Lemma for_field_within (P : DependencyInfo -> Prop) (D : value) (section : option value)
    (kind fld key refKind : string) :
  D <> JNull -> key <> "__proto__" -> components_ok section ->
  (forall s k item x,
     section = Some s -> In (k, item) (entries s) -> prop item fld = Some x ->
     reference_form D refKind key x ->
     P {| type := kind; name := k; field := fld |}) ->
  forall deps, within P deps (for_field D section kind fld key refKind deps).
Proof.
  intros HD Hkey Hok HP deps. rewrite for_field_returns by done. eexists. split; [done|].
  unfold section_hits. destruct section as [s|]; [|constructor].
  destruct (truthy (Some s)); [|constructor].
  assert (Hes : forall k item, In (k, item) (entries s) -> In (k, item) (entries s)) by auto.
  revert Hes. generalize (entries s) at 1 3. intros es Hes.
  induction es as [|[k item] es IH]; [constructor|]. cbn [field_hits flat_map].
  apply Forall_app. split; [|apply IH; intros; apply Hes; by right].
  destruct (refers_to D (prop item fld) key refKind) eqn:Hr; [|constructor].
  apply refers_to_form in Hr as (x & Hx & Hform); [|done].
  constructor; [|constructor]. eapply HP; eauto. apply Hes. by left.
Qed.

Lemma for_part_within (P : DependencyInfo -> Prop) (D : value) (part : option value)
    (kind part_name fld key refKind : string) :
  D <> JNull -> key <> "__proto__" ->
  (forall x, qdot part fld = Some x -> reference_form D refKind key x ->
             P {| type := kind; name := part_name; field := fld |}) ->
  forall deps, within P deps (for_part D part kind part_name fld key refKind deps).
Proof.
  intros HD Hkey HP deps. rewrite for_part_returns by done. eexists. split; [done|].
  unfold part_hits. destruct part as [p|]; [|constructor].
  destruct (truthy (Some p)) eqn:Ht; [|constructor]. cbn [andb].
  destruct (refers_to D (prop p fld) key refKind) eqn:Hr; [|constructor].
  apply refers_to_form in Hr as (x & Hx & Hform); [|done].
  constructor; [|constructor]. apply (HP x); [|done]. by destruct p.
Qed.

Lemma for_tool_functions_within (P : DependencyInfo -> Prop) (D : value)
    (body : string -> value -> list DependencyInfo -> outcome (list DependencyInfo)) :
  D <> JNull -> components_ok (prop D "tools") -> keyed_section (prop D "tools") ->
  (forall k comp fn,
     keyed D ["tools"] k comp -> prop comp "function" = Some fn ->
     is_object (Some fn) = true -> forall d, within P d (body k fn d)) ->
  forall d, within P d (for_tool_functions D body d).
Proof.
  intros HD Hok Hkeyed Hbody d. unfold for_tool_functions.
  rewrite get_not_null by done. cbn [mbind outcome_bind].
  destruct (truthy (prop D "tools")) eqn:Ht; [|apply within_ret].
  destruct (Object_entries_truthy _ Ht) as (s & Hs & ->).
  cbn [mbind outcome_bind]. apply within_for_of.
  intros [k tool] Hin d'. rewrite Hs in Hok, Hkeyed.
  rewrite dot_not_null by eauto using components_ok_entries.
  cbn [mbind outcome_bind].
  destruct (prop tool "function") as [f|] eqn:Hf; [|apply within_ret].
  destruct (is_object (Some f)) eqn:Hobj; [|apply within_ret].
  apply (Hbody k tool f); try done.
  apply (keyed_of_entry D ["tools"] s); try done.
  cbn [lookup_path]. by rewrite qdot_some.
Qed.

Lemma walk_body_within (P : DependencyInfo -> Prop) (key kind k : string)
    (fld : list string -> string) (fn : value) :
  (forall f, (exists x, occurs x fn /\ string_form key x) ->
             P {| type := kind; name := k; field := f |}) ->
  forall deps,
    within P deps
      (let refs := findRefsInObject fn key "" in
       mret (if (0 <? length refs)%nat
             then push deps {| type := kind; name := k; field := fld refs |}
             else deps)).
Proof.
  intros HP deps. cbv zeta. cbn [mret outcome_ret]. apply within_if.
  intros Hlen. apply HP. by apply walk_hit_origin.
Qed.

Lemma tool_arg_body_within (P : DependencyInfo -> Prop) (D : value)
    (key arg kind k : string) (fn : value) :
  D <> JNull -> key <> "__proto__" ->
  ((exists x, occurs x fn /\ string_form key x) ->
   P {| type := "tool"; name := k; field := arg |}) ->
  (forall x, qdot (prop fn "args") arg = Some x -> expanded_form D kind key x ->
             P {| type := "tool"; name := k; field := arg |}) ->
  forall deps, within P deps (tool_arg_body D key arg kind k fn deps).
Proof.
  intros HD Hkey Hwalk Hexp deps. unfold tool_arg_body.
  destruct (0 <? length _)%nat eqn:Hlen.
  - apply within_push. apply Hwalk. by apply walk_hit_origin.
  - destruct (truthy (qdot (prop fn "args") arg)); cbn [and_then];
      [|cbn [mbind outcome_bind mret outcome_ret]; apply within_ret].
    destruct (objectMatchesKey_returns (qdot (prop fn "args") arg) key D kind HD)
      as [b Hb].
    rewrite Hb. cbn [mbind outcome_bind mret outcome_ret]. apply within_if.
    intros ->. apply matches_expanded in Hb as (x & Hx & Hform); [|done..]. eauto.
Qed.

Lemma for_database_refs_within (P : DependencyInfo -> Prop) (D : value) (key : string) :
  D <> JNull -> keyed_section (qdot (prop D "resources") "databases") ->
  (forall k comp f,
     keyed D ["resources"; "databases"] k comp ->
     (exists x, occurs x comp /\ string_form key x) ->
     P {| type := "database"; name := k; field := f |}) ->
  forall d, within P d (for_database_refs D key d).
Proof.
  intros HD Hkeyed HP d. unfold for_database_refs.
  rewrite get_not_null by done. cbn [mbind outcome_bind].
  destruct (truthy (qdot (prop D "resources") "databases")) eqn:Ht; [|apply within_ret].
  destruct (Object_entries_truthy _ Ht) as (s & Hs & ->). rewrite Hs in Hkeyed.
  cbn [mbind outcome_bind]. apply within_for_of.
  intros [k db] Hin d'. cbn [mret outcome_ret]. apply within_if.
  intros Hlen. apply HP with (comp := db).
  - apply (keyed_of_entry D ["resources"; "databases"] s); try done.
    cbn [lookup_path]. by rewrite qdot_some.
  - by apply walk_hit_origin.
Qed.

Lemma first_reference_within (P : DependencyInfo -> Prop) (D : value)
    (items : list value) (key kind : string) (d : DependencyInfo) :
  D <> JNull ->
  ((exists x, In x items /\ matched_form D kind key x) -> P d) ->
  forall deps, within P deps (first_reference D items key kind d deps).
Proof.
  intros HD. unfold first_reference.
  induction items as [|y items IH]; intros HP deps; cbn [for_of_break];
    [apply within_ret|].
  assert (Hrest : (exists x, In x items /\ matched_form D kind key x) -> P d).
  { intros (x & Hin & Hform). apply HP. exists x. split; [by right|done]. }
  destruct (is_string (Some y)).
  - cbn [mbind outcome_bind mret outcome_ret].
    destruct (valueContainsRef (Some y) key) eqn:Hc; [|by apply IH].
    apply within_push. apply HP. exists y. split; [by left|].
    left. left. by apply contains_string_form.
  - destruct (is_object (Some y)); [|by apply IH].
    destruct (objectMatchesKey_returns (Some y) key D kind HD) as [b Hb].
    rewrite Hb. cbn [mbind outcome_bind mret outcome_ret].
    destruct b; [|by apply IH].
    apply within_push. apply HP.
    apply objectMatchesKey_forms in Hb as [Hform|Hform]; [| |done].
    + exists y. split; [by left|]. left. by right.
    + exists y. split; [by left|]. by right.
Qed.

Lemma for_agent_lists_within (P : DependencyInfo -> Prop) (D : value)
    (key fld kind : string) :
  D <> JNull -> key <> "__proto__" ->
  components_ok (prop D "agents") -> keyed_section (prop D "agents") ->
  (forall k comp items x,
     keyed D ["agents"] k comp -> prop comp fld = Some (JArr items) ->
     In x items -> reference_form D kind key x ->
     P {| type := "agent"; name := k; field := fld |}) ->
  within P [] (for_agent_lists D key fld kind).
Proof.
  intros HD Hkey Hok Hkeyed HP. unfold for_agent_lists.
  rewrite get_not_null by done. cbn [mbind outcome_bind].
  destruct (truthy (prop D "agents")) eqn:Ht; [|apply within_ret].
  destruct (Object_entries_truthy _ Ht) as (s & Hs & ->). rewrite Hs in Hok, Hkeyed.
  cbn [mbind outcome_bind]. apply within_for_of.
  intros [k agent] Hin d.
  rewrite dot_not_null by eauto using components_ok_entries.
  cbn [mbind outcome_bind].
  destruct (prop agent fld) as [[| | | |items|]|] eqn:Hfld; try apply within_ret.
  apply first_reference_within; [done|].
  intros (x & Hx & Hform). apply matched_reference in Hform; [|done].
  apply (HP k agent items x); try done.
  apply (keyed_of_entry D ["agents"] s); try done.
  cbn [lookup_path]. by rewrite qdot_some.
Qed.

Lemma and_then_true (a : bool) (m : outcome bool) :
  and_then a m = Returns true -> m = Returns true.
Proof. by destruct a. Qed.

Lemma for_vector_store_schemas_within (P : DependencyInfo -> Prop) (D : value)
    (vs : option value) (key : string) :
  D <> JNull -> key <> "__proto__" -> components_ok vs -> keyed_section vs ->
  vs = lookup_path (Some D) ["resources"; "vector_stores"] ->
  (forall k comp f,
     keyed D ["resources"; "vector_stores"] k comp ->
     (exists x, occurs x comp /\ string_form key x) \/
     (exists part x, In part ["source_table"; "index"] /\
                     qdot (prop comp part) "schema" = Some x /\
                     expanded_form D "schema" key x) ->
     P {| type := "vector_store"; name := k; field := f |}) ->
  forall d, within P d (for_vector_store_schemas D vs key d).
Proof.
  intros HD Hkey Hok Hkeyed Hvs HP d. unfold for_vector_store_schemas.
  destruct (truthy vs) eqn:Ht; [|apply within_ret].
  destruct (Object_entries_truthy _ Ht) as (s & Hs & ->). rewrite Hs in Hok, Hkeyed.
  cbn [mbind outcome_bind]. apply within_for_of.
  intros [k item] Hin d'.
  assert (Hk : keyed D ["resources"; "vector_stores"] k item).
  { apply (keyed_of_entry D _ s); try done. by rewrite <- Hvs. }
  assert (Hitem : item <> JNull) by eauto using components_ok_entries.
  cbv zeta. destruct (0 <? length _)%nat eqn:Hlen.
  - apply within_push. apply (HP k item); [done|]. left. by apply walk_hit_origin.
  - rewrite !dot_not_null by done. cbn [mbind outcome_bind].
    destruct (and_then_returns (truthy (qdot (prop item "source_table") "schema"))
                (qdot (prop item "source_table") "schema") key D "schema" HD)
      as [b1 Hb1].
    destruct (and_then_returns (truthy (qdot (prop item "index") "schema"))
                (qdot (prop item "index") "schema") key D "schema" HD)
      as [b2 Hb2].
    rewrite Hb1. cbn [mbind outcome_bind]. rewrite Hb2.
    cbn [mbind outcome_bind mret outcome_ret].
    assert (H1 : b1 = true ->
                 P {| type := "vector_store"; name := k; field := "source_table.schema" |}).
    { intros ->. apply and_then_true in Hb1.
      apply matches_expanded in Hb1 as (x & Hx & Hform); [|done..].
      apply (HP k item); [done|]. right. exists "source_table", x. simpl. auto. }
    assert (H2 : b2 = true ->
                 P {| type := "vector_store"; name := k; field := "index.schema" |}).
    { intros ->. apply and_then_true in Hb2.
      apply matches_expanded in Hb2 as (x & Hx & Hform); [|done..].
      apply (HP k item); [done|]. right. exists "index", x. simpl. auto. }
    destruct b1, b2.
    + eexists [_; _]. split; [unfold push; by rewrite <- app_assoc|]. repeat constructor; auto.
    + apply within_push; auto.
    + apply within_push; auto.
    + apply within_ret.
Qed.

Lemma enumerated_keyed (D : value) (path : list string) (section : option value) :
  mapping_sections D -> In path enumerated_sections ->
  section = lookup_path (Some D) path -> keyed_section section.
Proof. intros Hmap Hin ->. by apply Hmap. Qed.

Ltac listed := solve [unfold enumerated_sections, component_sections, field_sites,
                       part_sites, tool_walkers, database_walkers, tool_arg_sites,
                       agent_list_sites;
                     simpl; auto 20].

Ltac located D := cbn [lookup_path]; by rewrite ?(qdot_some D).

Section sites.
Variable D : value.
Variable key : string.
Variable c : category.
Hypothesis HD : D <> JNull.
Hypothesis Hkey : key <> "__proto__".
Hypothesis Hmap : mapping_sections D.

Let reported (r : DependencyInfo) : Prop := modeled_reference D key c (name r).

Lemma field_site_sound (path : list string) (fld kind : string) (section : option value) :
  In path enumerated_sections -> In (c, path, fld) field_sites ->
  section = lookup_path (Some D) path -> components_ok section ->
  forall d, within reported d (for_field D section kind fld key (resource_type c) d).
Proof.
  intros Hpath Hsite Hsec Hok. apply for_field_within; try done.
  intros s k item x Hs Hin Hfld Hform. unfold reported. cbn [name].
  apply (ref_field D key c path fld k item x); try done.
  apply (keyed_of_entry D path s); try done; [congruence|].
  rewrite <- Hs. by apply (enumerated_keyed D path).
Qed.

Lemma part_site_sound (path : list string) (part_name fld kind : string)
    (part : option value) :
  In (c, path, part_name, fld) part_sites ->
  part = lookup_path (Some D) path ->
  forall d, within reported d
              (for_part D part kind part_name fld key (resource_type c) d).
Proof.
  intros Hsite Hpart. apply for_part_within; try done.
  intros x Hx Hform. unfold reported. cbn [name].
  apply (ref_part D key c path part_name fld x); try done.
  rewrite lookup_path_snoc. by rewrite <- Hpart.
Qed.

Lemma tool_walk_sound (kind : string) (fld : list string -> string) :
  In c tool_walkers -> components_ok (prop D "tools") ->
  forall d,
    within reported d
      (for_tool_functions D (fun k fn deps =>
         let refs := findRefsInObject fn key "" in
         mret (if (0 <? length refs)%nat
               then push deps {| type := kind; name := k; field := fld refs |}
               else deps)) d).
Proof.
  intros Hc Hok. apply for_tool_functions_within; try done.
  - apply (enumerated_keyed D ["tools"]); [done|listed|located D].
  - intros k comp fn Hk Hfn Hobj. apply walk_body_within.
    intros f (x & Hocc & Hform). unfold reported. cbn [name].
    by apply (ref_tool_walk D key c k comp fn x).
Qed.

Lemma tool_arg_sound (arg : string) :
  In c tool_walkers -> In (c, arg) tool_arg_sites -> components_ok (prop D "tools") ->
  forall d,
    within reported d
      (for_tool_functions D (tool_arg_body D key arg (resource_type c)) d).
Proof.
  intros Hc Hsite Hok. apply for_tool_functions_within; try done.
  - apply (enumerated_keyed D ["tools"]); [done|listed|located D].
  - intros k comp fn Hk Hfn Hobj. apply tool_arg_body_within; [done..| |].
    + intros (x & Hocc & Hform). unfold reported. cbn [name].
      by apply (ref_tool_walk D key c k comp fn x).
    + intros x Hx Hform. unfold reported. cbn [name].
      by apply (ref_tool_arg D key c arg k comp fn x).
Qed.

Lemma database_walk_sound :
  In c database_walkers ->
  forall d, within reported d (for_database_refs D key d).
Proof.
  intros Hc. apply for_database_refs_within; try done.
  - apply (enumerated_keyed D ["resources"; "databases"]); [done|listed|located D].
  - intros k comp f Hk (x & Hocc & Hform). unfold reported. cbn [name].
    by apply (ref_database_walk D key c k comp x).
Qed.

Lemma agent_list_sound (fld : string) :
  In (c, fld) agent_list_sites -> components_ok (prop D "agents") ->
  within reported [] (for_agent_lists D key fld (resource_type c)).
Proof.
  intros Hsite Hok. apply for_agent_lists_within; try done.
  - apply (enumerated_keyed D ["agents"]); [done|listed|located D].
  - intros k comp items x Hk Hfld Hx Hform. unfold reported. cbn [name].
    by apply (ref_agent_list D key c fld k comp items x).
Qed.

End sites.

Lemma function_body_within (P : DependencyInfo -> Prop) (key k : string) (fn : value) :
  (forall f, (exists x, occurs x fn /\ string_form key x) ->
             P {| type := "tool"; name := k; field := f |}) ->
  forall deps,
    within P deps
      (let deps :=
         match prop fn "__MERGE__" with
         | Some (JStr m) =>
             if String.eqb m key
             then push deps {| type := "tool"; name := k; field := "function (merge key)" |}
             else deps
         | _ => deps
         end in
       let refs := findRefsInObject fn key "" in
       mret (if (0 <? length refs)%nat
             then push deps {| type := "tool"; name := k; field := first_path refs |}
             else deps)).
Proof.
  intros HP deps. cbv zeta. cbn [mret outcome_ret].
  assert (Hwalk : (0 <? length (findRefsInObject fn key ""))%nat = true ->
                  P {| type := "tool"; name := k;
                       field := first_path (findRefsInObject fn key "") |}).
  { intros Hlen. apply HP. by apply walk_hit_origin. }
  destruct (prop fn "__MERGE__") as [[| | |m| |]|] eqn:Hm; try by apply within_if.
  destruct (String.eqb_spec m key) as [->|_]; [|by apply within_if].
  assert (Hmerge : P {| type := "tool"; name := k; field := "function (merge key)" |}).
  { apply HP. exists (JStr key). split; [|right; by right].
    destruct fn as [| | | | |fields]; try (by vm_compute in Hm).
    eapply occurs_entry; [by apply assoc_In|constructor]. }
  destruct (0 <? length _)%nat.
  - eexists [_; _]. split; [unfold push; by rewrite <- app_assoc|].
    repeat constructor; auto.
  - by apply within_push.
Qed.

Lemma environment_vars_within (P : DependencyInfo -> Prop) (D : value) (key : string) :
  D <> JNull -> keyed_section (qdot (prop D "app") "environment_vars") ->
  (forall k x, keyed D ["app"; "environment_vars"] k x -> string_form key x ->
               P {| type := "environment_var"; name := k; field := "value" |}) ->
  forall deps,
    within P deps
      (if truthy (qdot (prop D "app") "environment_vars") then
         es ← Object_entries (qdot (prop D "app") "environment_vars");
         for_of es (fun '(k, v) deps =>
           mret (if valueContainsRef (Some v) key
                 then push deps {| type := "environment_var"; name := k;
                                   field := "value" |}
                 else deps)) deps
       else mret deps).
Proof.
  intros HD Hkeyed HP deps.
  destruct (truthy (qdot (prop D "app") "environment_vars")) eqn:Ht; [|apply within_ret].
  destruct (Object_entries_truthy _ Ht) as (s & Hs & ->). rewrite Hs in Hkeyed.
  cbn [mbind outcome_bind]. apply within_for_of.
  intros [k v] Hin d. cbn [mret outcome_ret]. apply within_if.
  intros Hc. apply (HP k v); [|by apply contains_string_form].
  apply (keyed_of_entry D ["app"; "environment_vars"] s); try done.
  cbn [lookup_path]. by rewrite qdot_some.
Qed.

Lemma registered_model_within (P : DependencyInfo -> Prop) (D : value) (key : string) :
  D <> JNull ->
  (forall x, lookup_path (Some D) ["app"; "registered_model"; "schema"] = Some x ->
             string_form key x ->
             P {| type := "app"; name := "registered_model"; field := "schema" |}) ->
  forall deps,
    within P deps
      (if truthy (qdot (prop D "app") "registered_model") then
         schema ← dot (qdot (prop D "app") "registered_model") "schema";
         mret (if valueContainsRef schema key
               then push deps {| type := "app"; name := "registered_model";
                                 field := "schema" |}
               else deps)
       else mret deps).
Proof.
  intros HD HP deps.
  destruct (truthy (qdot (prop D "app") "registered_model")) eqn:Ht; [|apply within_ret].
  destruct (qdot (prop D "app") "registered_model") as [rm|] eqn:Hrm; [|done].
  rewrite dot_not_null by (intros ->; done).
  cbn [mbind outcome_bind mret outcome_ret]. apply within_if.
  intros Hc. destruct (prop rm "schema") as [x|] eqn:Hx; [|done].
  apply (HP x); [|by apply contains_string_form].
  cbn [lookup_path]. rewrite qdot_some, Hrm by done. by destruct rm.
Qed.

Lemma findPromptDependencies_within (P : DependencyInfo -> Prop) (D : value)
    (key : string) :
  D <> JNull -> components_ok (prop D "agents") -> keyed_section (prop D "agents") ->
  (forall k comp x, keyed D ["agents"] k comp -> prop comp "prompt" = Some x ->
                    string_form key x ->
                    P {| type := "agent"; name := k; field := "prompt" |}) ->
  within P [] (findPromptDependencies D key).
Proof.
  intros HD Hok Hkeyed HP. unfold findPromptDependencies.
  rewrite get_not_null by done. cbn [mbind outcome_bind].
  destruct (truthy (prop D "agents")) eqn:Ht; [|apply within_ret].
  destruct (Object_entries_truthy _ Ht) as (s & Hs & ->). rewrite Hs in Hok, Hkeyed.
  cbn [mbind outcome_bind]. apply within_for_of.
  intros [k agent] Hin d.
  rewrite dot_not_null by eauto using components_ok_entries.
  cbn [mbind outcome_bind mret outcome_ret]. apply within_if.
  intros Hc. destruct (prop agent "prompt") as [x|] eqn:Hx; [|done].
  apply (HP k agent x); [|done|by apply contains_string_form].
  apply (keyed_of_entry D ["agents"] s); try done.
  cbn [lookup_path]. by rewrite qdot_some.
Qed.

Lemma find_within (D : value) (key : string) (c : category) :
  finder_ready D -> mapping_sections D -> key <> "__proto__" ->
  within (fun r => modeled_reference D key c (name r)) [] (find c D key).
Proof.
  intros Hready Hmap Hkey.
  destruct (finder_ready_facts D Hready)
    as (HD & Htab & Hvol & Hfun & Hvs & Hpr & Hag & Hgu & Hre & Hto).
  destruct c; cbn [find].
  - (* schema *)
    rewrite findSchemaDependencies_steps by done. cbv zeta.
    apply within_bind; [apply within_bind; [|intros d1; apply within_bind;
      [|intros d2; apply within_bind; [|intros d3]]]
      | intros d4; apply within_bind; [|intros d5]].
    + apply (field_site_sound D key K_Schema HD Hkey Hmap ["resources"; "tables"]);
        first [done | listed | located D].
    + apply (field_site_sound D key K_Schema HD Hkey Hmap ["resources"; "volumes"]);
        first [done | listed | located D].
    + apply (field_site_sound D key K_Schema HD Hkey Hmap ["resources"; "functions"]);
        first [done | listed | located D].
    + apply for_vector_store_schemas_within; try done.
      * apply (enumerated_keyed D ["resources"; "vector_stores"]);
          [done|listed|located D].
      * located D.
      * intros k comp f Hk [(x & Hocc & Hform)|(part & x & Hpart & Hx & Hform)];
          cbn [name].
        -- by apply (ref_vector_store_walk D key k comp x).
        -- by apply (ref_vector_store_schema D key part k comp x).
    + apply (field_site_sound D key K_Schema HD Hkey Hmap ["prompts"]);
        first [done | listed | located D].
    + apply registered_model_within; [done|].
      intros x Hx Hform. cbn [name]. by apply (ref_registered_model D key x).
  - (* llm *)
    unfold findLlmDependencies. rewrite !get_not_null by done.
    cbn [mbind outcome_bind].
    apply within_bind; [|intros d1; apply within_bind;
      [|intros d2; apply within_bind; [|intros d3; apply within_bind; [|intros d4]]]].
    + apply (field_site_sound D key K_Llm HD Hkey Hmap ["agents"]);
        first [done | listed | located D].
    + apply (field_site_sound D key K_Llm HD Hkey Hmap ["guardrails"]);
        first [done | listed | located D].
    + apply (part_site_sound D key K_Llm HD Hkey ["memory"; "store"]);
        first [done | listed | located D].
    + apply (part_site_sound D key K_Llm HD Hkey ["app"; "orchestration"; "supervisor"]);
        first [done | listed | located D].
    + apply (field_site_sound D key K_Llm HD Hkey Hmap ["resources"; "vector_stores"]);
        first [done | listed | located D].
  - (* variable *)
    unfold findVariableDependencies. rewrite !get_not_null by done.
    cbn [mbind outcome_bind]. cbv zeta.
    apply within_bind; [|intros d1; apply within_bind; [|intros d2]].
    + apply environment_vars_within; [done| |].
      * apply (enumerated_keyed D ["app"; "environment_vars"]);
          [done|listed|located D].
      * intros k x Hk Hform. cbn [name]. by apply (ref_environment_var D key k x).
    + apply (tool_walk_sound D key K_Variable HD Hmap "tool" first_path);
        first [done | listed].
    + apply (database_walk_sound D key K_Variable HD Hmap); listed.
  - (* retriever *)
    unfold findRetrieverDependencies.
    apply (tool_arg_sound D key K_Retriever HD Hkey Hmap "retriever");
      first [done | listed].
  - (* genie room *)
    unfold findGenieRoomDependencies.
    apply (tool_arg_sound D key K_GenieRoom HD Hkey Hmap "genie_room");
      first [done | listed].
  - (* vector store *)
    unfold findVectorStoreDependencies. rewrite !get_not_null by done.
    cbn [mbind outcome_bind].
    apply (field_site_sound D key K_VectorStore HD Hkey Hmap ["retrievers"]);
      first [done | listed | located D].
  - (* function *)
    unfold findFunctionDependencies. apply for_tool_functions_within; try done.
    + apply (enumerated_keyed D ["tools"]); [done|listed|located D].
    + intros k comp fn Hk Hfn Hobj. apply function_body_within.
      intros f (x & Hocc & Hform). cbn [name].
      apply (ref_tool_walk D key K_Function k comp fn x); first [done | listed].
  - (* tool *)
    apply (agent_list_sound D key K_Tool HD Hkey Hmap "tools"); first [done | listed].
  - (* guardrail *)
    apply (agent_list_sound D key K_Guardrail HD Hkey Hmap "guardrails");
      first [done | listed].
  - (* prompt *)
    apply findPromptDependencies_within; try done.
    + apply (enumerated_keyed D ["agents"]); [done|listed|located D].
    + intros k comp x Hk Hx Hform. cbn [name]. by apply (ref_prompt D key k comp x).
  - (* agent *)
    unfold findAgentDependencies. rewrite get_not_null by done.
    cbn [mbind outcome_bind].
    destruct (qdot (prop D "app") "agents") as [[| | | |items|]|] eqn:Hitems;
      try apply within_ret.
    apply first_reference_within; [done|].
    intros (x & Hx & Hform). apply matched_reference in Hform; [|done]. cbn [name].
    apply (ref_app_agents D key items x); try done. located D.
  - (* database *)
    unfold findDatabaseDependencies. rewrite !get_not_null by done.
    cbn [mbind outcome_bind].
    apply within_bind; [|intros d1].
    + apply (part_site_sound D key K_Database HD Hkey ["memory"; "checkpointer"]);
        first [done | listed | located D].
    + apply (part_site_sound D key K_Database HD Hkey ["memory"; "store"]);
        first [done | listed | located D].
  - (* service principal *)
    unfold findServicePrincipalDependencies.
    apply within_bind; [|intros d1].
    + apply (tool_walk_sound D key K_ServicePrincipal HD Hmap "tool" first_path);
        first [done | listed].
    + apply (database_walk_sound D key K_ServicePrincipal HD Hmap); listed.
  - (* connection *)
    unfold findConnectionDependencies, for_tool_refs.
    apply (tool_walk_sound D key K_Connection HD Hmap "tool" (fun _ => "connection"));
      first [done | listed].
  - (* warehouse *)
    unfold findWarehouseDependencies, for_tool_refs.
    apply (tool_walk_sound D key K_Warehouse HD Hmap "tool" (fun _ => "warehouse"));
      first [done | listed].
Qed.

(** X5: the finders report nothing but references.  On a document whose
    components are not [null] and whose sections are mappings, and for a
    key other than [__proto__], every record a finder returns names a
    component (or part) that holds, at one of the sites of the finder's
    table, a reference to the queried key in a form the finder tests
    there. *)
Theorem finders_report_references (D : value) (key : string) (c : category) :
  finder_ready D -> mapping_sections D -> key <> "__proto__" ->
  exists l, find c D key = Returns l /\
            forall r, In r l -> modeled_reference D key c (name r).
Proof.
  intros Hready Hmap Hkey.
  destruct (find_within D key c Hready Hmap Hkey) as (l & E & Hl).
  exists l. split; [done|]. intros r Hr. rewrite Forall_forall in Hl.
  apply Hl. by apply list_elem_of_In.
Qed.

(** ** One record per agent *)

Lemma first_reference_once (D : value) (items : list value) (key kind : string)
    (d : DependencyInfo) (deps : list DependencyInfo) :
  D <> JNull ->
  first_reference D items key kind d deps = Returns deps \/
  first_reference D items key kind d deps = Returns (push deps d).
Proof.
  intros HD. unfold first_reference.
  induction items as [|y items IH]; cbn [for_of_break]; [by left|].
  destruct (is_string (Some y)).
  - cbn [mbind outcome_bind mret outcome_ret].
    destruct (valueContainsRef (Some y) key); [by right|done].
  - destruct (is_object (Some y)); [|done].
    destruct (objectMatchesKey_returns (Some y) key D kind HD) as [b ->].
    cbn [mbind outcome_bind mret outcome_ret]. destruct b; [by right|done].
Qed.

Lemma for_of_sublist {X : Type} (es : list (string * X)) (mk : string -> DependencyInfo)
    (body : string * X -> list DependencyInfo -> outcome (list DependencyInfo)) :
  (forall kv, In kv es -> forall d,
     body kv d = Returns d \/ body kv d = Returns (push d (mk (fst kv)))) ->
  forall d, exists ks,
    sublist ks (map fst es) /\ for_of es body d = Returns (d ++ map mk ks)%list.
Proof.
  induction es as [|kv es IH]; intros Hbody d; cbn [for_of].
  - exists []. split; [constructor|by rewrite app_nil_r].
  - destruct (Hbody kv (or_introl eq_refl) d) as [-> | ->]; cbn [mbind outcome_bind].
    + destruct (IH (fun z Hz => Hbody z (or_intror Hz)) d) as (ks & Hsub & ->).
      exists ks. split; [by apply sublist_cons|done].
    + destruct (IH (fun z Hz => Hbody z (or_intror Hz)) (push d (mk (fst kv))))
        as (ks & Hsub & ->).
      exists (fst kv :: ks). split; [by apply sublist_skip|].
      unfold push. by rewrite <- app_assoc.
Qed.

(** X7: the tool finder and the guardrail finder report an agent at most
    once, however many of its list entries refer to the key: the records
    returned are those of a subsequence of the agents, in the order of the
    document. *)
Theorem agent_lists_report_once (D : value) (key : string) (c : category)
    (fld : string) (agents : list (string * value)) :
  finder_ready D -> In (c, fld) agent_list_sites ->
  prop D "agents" = Some (JObj agents) ->
  exists ks,
    sublist ks (map fst agents) /\
    find c D key =
    Returns (map (fun k => {| type := "agent"; name := k; field := fld |}) ks).
Proof.
  intros Hready Hsite Hagents.
  destruct (finder_ready_facts D Hready)
    as (HD & Htab & Hvol & Hfun & Hvs & Hpr & Hag & Hgu & Hre & Hto).
  assert (Hloop : forall kind,
            exists ks, sublist ks (map fst agents) /\
                       for_agent_lists D key fld kind =
                       Returns (map (fun k => {| type := "agent"; name := k;
                                                 field := fld |}) ks)).
  { intros kind. unfold for_agent_lists. rewrite get_not_null by done.
    rewrite Hagents in *. cbn [mbind outcome_bind truthy Object_entries entries].
    apply (for_of_sublist agents
             (fun k => {| type := "agent"; name := k; field := fld |})).
    intros [k agent] Hin d.
    rewrite dot_not_null by eauto using components_ok_In.
    cbn [mbind outcome_bind fst].
    destruct (prop agent fld) as [[| | | |items|]|]; try by left.
    by apply first_reference_once. }
  unfold agent_list_sites in Hsite. simpl in Hsite.
  destruct Hsite as [[= <- <-]|[[= <- <-]|[]]]; cbn [find]; apply Hloop.
Qed.

(** ** The agent finder *)

(** X8: [findAgentDependencies] returns on every document whose root is not
    [null], and returns at most the one record for the application's agent
    list: that record exactly when some entry of [app.agents] is a string
    form of the key, the configured agent in expanded form or, under the
    key [__proto__] with no agent of that name, the empty mapping that the
    section of agents inherits as its prototype (the empty sequence where
    that section is a sequence). *)
Theorem findAgentDependencies_once (D : value) (key : string) :
  D <> JNull ->
  let referenced : Prop :=
    exists items x,
      lookup_path (Some D) ["app"; "agents"] = Some (JArr items) /\
      In x items /\ matched_form D "agent" key x in
  (referenced /\
   findAgentDependencies D key =
   Returns [{| type := "app"; name := "agents"; field := "agents list" |}]) \/
  (~ referenced /\ findAgentDependencies D key = Returns []).
Proof.
  intros HD. cbv zeta. cbn [lookup_path]. rewrite qdot_some by done.
  unfold findAgentDependencies. rewrite get_not_null by done.
  cbn [mbind outcome_bind].
  destruct (qdot (prop D "app") "agents") as [[| | | |items|]|] eqn:Hitems;
    try (right; split; [by intros (items & x & [=] & _)|done]).
  set (d := {| type := "app"; name := "agents"; field := "agents list" |}).
  destruct (first_reference_once D items key "agent" d [] HD) as [E|E]; rewrite E.
  - right. split; [|done]. intros (items' & x & [= <-] & Hx & Hform).
    destruct (first_reference_gains D items key "agent" d x HD Hx Hform [])
      as (l & E' & r & Hr & _).
    rewrite E in E'. injection E' as E'. destruct l; [done|discriminate].
  - left. split; [|done].
    destruct (first_reference_within
                (fun _ => exists x, In x items /\ matched_form D "agent" key x)
                D items key "agent" d HD (fun H => H) []) as (l & E' & Hl).
    rewrite E in E'. injection E' as E'. cbn in E'. subst l.
    apply Forall_cons in Hl as [(x & Hx & Hform) _]. by exists items, x.
Qed.

(** * The diagnostics of [validateConfig] *)

Lemma lower_char_dquote (c : ascii) :
  Ascii.eqb (lower_char c) dquote = Ascii.eqb c dquote.
Proof. destruct c as [[] [] [] [] [] [] [] []]; reflexivity. Qed.

Lemma unquoted_toLowerCase (s : string) : unquoted (toLowerCase s) = unquoted s.
Proof.
  induction s as [|c s IH]; [done|]. cbn [toLowerCase unquoted].
  by rewrite lower_char_dquote, IH.
Qed.

Lemma unquoted_append (a b : string) :
  unquoted (a +:+ b) = unquoted a && unquoted b.
Proof.
  induction a as [|c a IH]; [done|]. cbn [String.append unquoted].
  rewrite IH. by rewrite andb_assoc.
Qed.

Lemma lower_char_idem (c : ascii) : lower_char (lower_char c) = lower_char c.
Proof. destruct c as [[] [] [] [] [] [] [] []]; reflexivity. Qed.

(** [prefix_ci] succeeds exactly on the texts that begin with the pattern,
    up to letter case. *)
Lemma prefix_ci_split (p s r : string) :
  prefix_ci p s = Some r ->
  exists s1, s = s1 +:+ r /\ toLowerCase s1 = toLowerCase p.
Proof.
  revert s. induction p as [|a p IH]; intros s; cbn [prefix_ci].
  - intros [= ->]. by exists "".
  - destruct s as [|b s]; [done|].
    destruct (Ascii.eqb_spec (lower_char a) (lower_char b)) as [E|_]; [|done].
    intros H. destruct (IH s H) as (s1 & -> & Hs1).
    exists (String b s1). split; [done|]. cbn [toLowerCase]. by rewrite E, Hs1.
Qed.

Lemma prefix_ci_append (p s1 r : string) :
  toLowerCase s1 = toLowerCase p -> prefix_ci p (s1 +:+ r) = Some r.
Proof.
  revert s1. induction p as [|a p IH]; intros s1; destruct s1 as [|b s1];
    cbn [toLowerCase]; try done.
  intros [= E Hs1]. cbn [String.append prefix_ci].
  rewrite E, Ascii.eqb_refl. by apply IH.
Qed.

Lemma span_unquoted_run (x y : string) :
  unquoted x = true -> span_unquoted (x +:+ String dquote y) = (x, String dquote y).
Proof.
  induction x as [|c x IH]; cbn [unquoted String.append span_unquoted].
  - intros _. by rewrite Ascii.eqb_refl.
  - intros [Hc Hx]%andb_true_iff. apply negb_true_iff in Hc. rewrite Hc.
    by rewrite IH.
Qed.

Lemma span_unquoted_all (x : string) :
  unquoted x = true -> span_unquoted x = (x, "").
Proof.
  induction x as [|c x IH]; cbn [unquoted span_unquoted]; [done|].
  intros [Hc Hx]%andb_true_iff. apply negb_true_iff in Hc. rewrite Hc. by rewrite IH.
Qed.

Lemma toLowerCase_length (t : string) :
  String.length (toLowerCase t) = String.length t.
Proof. induction t as [|c t IH]; [done|]. cbn. by rewrite IH. Qed.

Lemma toLowerCase_quoted (q s1 : string) :
  toLowerCase s1 = q +:+ String dquote "" ->
  exists s0, s1 = s0 +:+ String dquote "" /\ toLowerCase s0 = q.
Proof.
  revert s1. induction q as [|a q IH]; intros s1; destruct s1 as [|b s1];
    cbn [toLowerCase String.append]; try done.
  - intros [= Hb Hs1]. destruct s1; [|done]. exists "". split; [|done].
    cbn [String.append]. f_equal. apply Ascii.eqb_eq.
    rewrite <- lower_char_dquote, Hb. apply Ascii.eqb_refl.
  - intros [= Hb Hs1]. destruct (IH s1 Hs1) as (s0 & -> & Hs0).
    exists (String b s0). split; [done|]. cbn [toLowerCase]. by rewrite Hb, Hs0.
Qed.

(** A match begins with sixteen characters free of double quotes and then a
    double quote. *)
Lemma alias_match_here_shape (s group : string) :
  alias_match_here s = Some group ->
  exists s0 r, s = s0 +:+ String dquote r /\ unquoted s0 = true /\ String.length s0 = 16.
Proof.
  unfold alias_match_here.
  destruct (prefix_ci _ s) as [rest|] eqn:Hp; [|done]. intros _.
  apply prefix_ci_split in Hp as (s1 & -> & Hs1).
  apply (toLowerCase_quoted "undefined alias ") in Hs1 as (s0 & -> & Hs0).
  exists s0, rest. split; [by rewrite append_assoc|].
  split.
  - by rewrite <- unquoted_toLowerCase, Hs0.
  - by rewrite <- toLowerCase_length, Hs0.
Qed.

Lemma first_quote_unique (x y x' y' : string) :
  x +:+ String dquote y = x' +:+ String dquote y' ->
  unquoted x = true -> unquoted x' = true -> x = x'.
Proof.
  intros E Hx Hx'. apply (f_equal span_unquoted) in E.
  rewrite !span_unquoted_run in E by done. by injection E.
Qed.

Lemma alias_match_unquoted (m : string) : unquoted m = true -> alias_match m = None.
Proof.
  induction m as [|c m IH]; intros Hm.
  - reflexivity.
  - cbn [alias_match].
    destruct (alias_match_here (String c m)) as [g|] eqn:Hh.
    + apply alias_match_here_shape in Hh as (s0 & r & E & _ & _).
      rewrite E, unquoted_append in Hm. cbn [unquoted] in Hm.
      rewrite Ascii.eqb_refl in Hm. cbn in Hm. by rewrite andb_false_r in Hm.
    + apply IH. cbn [unquoted] in Hm. by apply andb_true_iff in Hm as [_ Hm].
Qed.

Lemma alias_match_found (before phrase alias after : string) :
  unquoted before = true -> toLowerCase phrase = "undefined alias " ->
  alias <> "" -> unquoted alias = true ->
  alias_match (before +:+ phrase +:+ String dquote (alias +:+ String dquote after))
  = Some alias.
Proof.
  intros Hb Hphrase Hne Ha.
  assert (Hpq : unquoted phrase = true) by (by rewrite <- unquoted_toLowerCase, Hphrase).
  assert (Hhere : alias_match_here
                    (phrase +:+ String dquote (alias +:+ String dquote after))
                  = Some alias).
  { unfold alias_match_here.
    replace (phrase +:+ String dquote (alias +:+ String dquote after))
      with ((phrase +:+ String dquote "") +:+ (alias +:+ String dquote after))
      by (by rewrite append_assoc).
    rewrite prefix_ci_append.
    - rewrite span_unquoted_run by done.
      destruct alias as [|c alias]; [done|]. by rewrite Ascii.eqb_refl.
    - clear -Hphrase. revert Hphrase. generalize "undefined alias ". intros q <-.
      induction phrase as [|c p IH]; [done|]. cbn [String.append toLowerCase].
      by rewrite IH, lower_char_idem. }
  induction before as [|b before IH].
  - cbn [String.append]. destruct phrase; cbn [String.append alias_match] in *;
      by rewrite Hhere.
  - cbn [String.append alias_match].
    destruct (alias_match_here
                (String b (before +:+ phrase +:+
                           String dquote (alias +:+ String dquote after))))
      as [g|] eqn:Hh.
    + apply alias_match_here_shape in Hh as (s0 & r & E & Hs0 & Hlen).
      assert (E' : (String b before +:+ phrase) +:+
                   String dquote (alias +:+ String dquote after)
                   = s0 +:+ String dquote r).
      { rewrite <- E, append_assoc. reflexivity. }
      apply first_quote_unique in E'; [|by rewrite unquoted_append, Hb, Hpq|done].
      apply (f_equal String.length) in E'.
      rewrite Hlen, length_append in E'.
      assert (String.length phrase = 16)
        by (by rewrite <- toLowerCase_length, Hphrase).
      cbn [String.length] in E'. lia.
    + apply IH. cbn [unquoted] in Hb. by apply andb_true_iff in Hb as [_ Hb].
Qed.

Lemma validateConfig_catch
    (generateYAML : gmap loc cell -> hval -> outcome string)
    (yaml_load : string -> outcome unit) (h : gmap loc cell) (c : hval) (e : exn) :
  round_trip_raises generateYAML yaml_load h c e ->
  validateConfig generateYAML yaml_load h c =
  match e with
  | JsError message =>
      match alias_match message with
      | Some alias => Returns (Some (referenced_by alias))
      | None => Returns (Some ("Validation failed: " +:+ message))
      end
  | NonError => Returns (Some "Unknown validation error")
  end.
Proof.
  unfold validateConfig, round_trip_raises, referenced_by.
  intros [->|(y & -> & Hload)]; cbn [mbind outcome_bind try_catch]; [done|].
  rewrite Hload. cbn [mbind outcome_bind try_catch]. done.
Qed.

(** X9: when the serializer round trip raises an [Error] whose message
    holds, after a run of characters free of double quotes, the words
    [undefined alias] in any letter case, a space, and a non-empty name
    between double quotes, [validateConfig] returns the diagnostic that
    quotes that name. *)
Theorem validateConfig_names_alias
    (generateYAML : gmap loc cell -> hval -> outcome string)
    (yaml_load : string -> outcome unit) (h : gmap loc cell) (c : hval)
    (before phrase alias after : string) :
  unquoted before = true -> toLowerCase phrase = "undefined alias " ->
  alias <> "" -> unquoted alias = true ->
  round_trip_raises generateYAML yaml_load h c
    (JsError (before +:+ phrase +:+ String dquote (alias +:+ String dquote after))) ->
  validateConfig generateYAML yaml_load h c =
  Returns (Some ("This component is referenced by " +:+
                 String dquote (alias +:+ String dquote ". Remove that reference first."))).
Proof.
  intros Hb Hphrase Hne Ha Hraise.
  rewrite (validateConfig_catch _ _ _ _ _ Hraise).
  by rewrite alias_match_found.
Qed.

(** X10: when the round trip raises an [Error] whose message holds no
    double quote, [validateConfig] returns the message behind the words
    [Validation failed: ]; when it raises a value that is not an [Error], it
    returns [Unknown validation error]. *)
Theorem validateConfig_reports_message
    (generateYAML : gmap loc cell -> hval -> outcome string)
    (yaml_load : string -> outcome unit) (h : gmap loc cell) (c : hval) :
  (forall message,
     unquoted message = true ->
     round_trip_raises generateYAML yaml_load h c (JsError message) ->
     validateConfig generateYAML yaml_load h c =
     Returns (Some ("Validation failed: " +:+ message))) /\
  (round_trip_raises generateYAML yaml_load h c NonError ->
   validateConfig generateYAML yaml_load h c = Returns (Some "Unknown validation error")).
Proof.
  split.
  - intros message Hm Hraise. rewrite (validateConfig_catch _ _ _ _ _ Hraise).
    by rewrite alias_match_unquoted.
  - intros Hraise. by rewrite (validateConfig_catch _ _ _ _ _ Hraise).
Qed.

(** * What [validateDeletion] validates *)

Lemma all_alloc_spec (fields : list (string * value)) :
  Forall (fun kv => alloc_spec (snd kv)) fields.
Proof. apply Forall_forall. intros kv _. apply alloc_correct. Qed.

Lemma option_all_app {A B : Type} (f : A -> option B) (a b : list A) (x y : list B) :
  option_all f a = Some x -> option_all f b = Some y ->
  option_all f (a ++ b) = Some (x ++ y)%list.
Proof.
  revert x. induction a as [|e a IH]; intros x; cbn [option_all app].
  - by intros [= <-].
  - destruct (f e) as [z|]; [|done]. destruct (option_all f a) as [zs|] eqn:E; [|done].
    intros [= <-] Hb. by rewrite (IH zs eq_refl Hb).
Qed.

Lemma option_all_remove_key (fuel : nat) (g : gmap loc cell) (k : string)
    (props : list (string * hval)) (fields : list (string * value)) :
  option_all (fun kv => match snapshot fuel g (snd kv) with
                        | Some t => Some (fst kv, t)
                        | None => None
                        end) props = Some fields ->
  option_all (fun kv => match snapshot fuel g (snd kv) with
                        | Some t => Some (fst kv, t)
                        | None => None
                        end) (remove_key k props) = Some (remove_key k fields).
Proof.
  revert fields. induction props as [|[k' v] props IH]; intros fields;
    cbn [option_all remove_key fst snd].
  - by intros [= <-].
  - destruct (snapshot fuel g v) as [t|] eqn:Hv; [|done].
    destruct (option_all _ props) as [fs|] eqn:E; [|done].
    intros [= <-]. cbn [remove_key].
    destruct (String.eqb k k'); [by apply IH|].
    cbn [option_all fst snd]. rewrite Hv. by rewrite (IH fs eq_refl).
Qed.

Lemma update_key_none (s : string) (f : value -> value) (fields : list (string * value)) :
  assoc s fields = None -> update_key s f fields = fields.
Proof.
  induction fields as [|[k v] fields IH]; [done|]. cbn [assoc update_key].
  destruct (String.eqb s k); [done|]. intros H. by rewrite IH.
Qed.

Lemma update_key_app (s : string) (f : value -> value)
    (fpre fpost : list (string * value)) (t : value) :
  assoc s fpre = None ->
  update_key s f (fpre ++ (s, t) :: fpost) = (fpre ++ (s, f t) :: fpost)%list.
Proof.
  induction fpre as [|[k v] fpre IH]; cbn [assoc update_key app].
  - by rewrite String.eqb_refl.
  - destruct (String.eqb s k); [done|]. intros H. by rewrite IH.
Qed.

Lemma assoc_app_found {X : Type} (s : string) (pre post : list (string * X)) (x : X) :
  assoc s pre = None -> assoc s (pre ++ (s, x) :: post) = Some x.
Proof.
  induction pre as [|[k v] pre IH]; cbn [assoc app].
  - by rewrite String.eqb_refl.
  - destruct (String.eqb s k); [done|]. apply IH.
Qed.

(** Where [alloc_fields] has put the member a key reads. *)
Lemma alloc_fields_split (fields : list (string * value)) :
  forall (h h1 : gmap loc cell) (props : list (string * hval)) (s : string),
    alloc_fields alloc fields h = (h1, props) ->
    match assoc s props with
    | Some vs =>
        exists fpre ts fpost pre post ha hb,
          fields = (fpre ++ (s, ts) :: fpost)%list /\
          props = (pre ++ (s, vs) :: post)%list /\
          assoc s fpre = None /\
          alloc_fields alloc fpre h = (ha, pre) /\
          alloc ts ha = (hb, vs) /\
          alloc_fields alloc fpost hb = (h1, post)
    | None => assoc s fields = None
    end.
Proof.
  induction fields as [|[k t] fields IH]; intros h h1 props s; cbn [alloc_fields fst snd].
  - by intros [= <- <-].
  - destruct (alloc t h) as [ha v] eqn:Ht.
    destruct (alloc_fields alloc fields ha) as [hb vs] eqn:Hrest.
    intros [= <- <-]. cbn [assoc].
    destruct (String.eqb_spec s k) as [->|Hne].
    + exists [], t, fields, [], vs, h, ha. by repeat split.
    + specialize (IH ha hb vs s Hrest).
      destruct (assoc s vs) as [x|]; [|done].
      destruct IH as (fpre & ts & fpost & pre & post & hc & hd & -> & -> & Hn & Hp & Ha & Hq).
      exists ((k, t) :: fpre), ts, fpost, ((k, v) :: pre), post, hc, hd.
      repeat split; try done.
      * cbn [assoc]. by destruct (String.eqb_spec s k).
      * cbn [alloc_fields fst snd]. by rewrite Ht, Hp.
Qed.

Lemma fold_hqdot_none (g : gmap loc cell) (path : list string) :
  fold_left (hqdot g) path None = None.
Proof. induction path; [done|]. cbn [fold_left hqdot]. done. Qed.

(** A store that differs from [g] only inside the cells allocated between
    [a] and [b] still has the cells allocated elsewhere. *)
Lemma has_new_cells_before (h ha hb g g2 : gmap loc cell) :
  h ⊆ ha ->
  has_new_cells h ha g ->
  (forall l, (ha !! l = None -> hb !! l = None) -> g2 !! l = g !! l) ->
  has_new_cells h ha g2.
Proof.
  intros Hs Hg Hframe l c Hl Hc. rewrite Hframe; [by apply Hg|].
  intros Hn. congruence.
Qed.

Lemma has_new_cells_after (ha hb h1 g g2 : gmap loc cell) :
  has_new_cells hb h1 g ->
  (forall l, (ha !! l = None -> hb !! l = None) -> g2 !! l = g !! l) ->
  has_new_cells hb h1 g2.
Proof.
  intros Hg Hframe l c Hl Hc. rewrite Hframe; [by apply Hg|]. done.
Qed.

Lemma depth_fields_app (a b : list (string * value)) :
  depth_fields depth (a ++ b) = Nat.max (depth_fields depth a) (depth_fields depth b).
Proof.
  induction a as [|kv a IH]; [done|]. cbn [app depth_fields]. rewrite IH. lia.
Qed.

Lemma delete_nothing (key : string) (path : list string) (t : value)
    (h h' : gmap loc cell) (v : hval) (g : gmap loc cell) :
  alloc t h = (h', v) -> has_new_cells h h' g ->
  delete_from g (fold_left (hqdot g) path (Some v)) key = Returns g ->
  without t path key = t ->
  exists g2,
    delete_from g (fold_left (hqdot g) path (Some v)) key = Returns g2 /\
    (forall l, (h !! l = None -> h' !! l = None) -> g2 !! l = g !! l) /\
    (forall fuel, (depth t <= fuel)%nat ->
                  snapshot fuel g2 v = Some (without t path key)).
Proof.
  intros Halloc Hg Hdel Hsame. exists g. split; [done|]. split; [done|].
  intros fuel Hfuel. rewrite Hsame.
  destruct (alloc_correct t h h' v Halloc) as (_ & _ & Hsnap). by apply Hsnap.
Qed.

Lemma plain_unread (g : gmap loc cell) (v : hval) (s : string) :
  plain s ->
  match v with
  | HRef l => match g !! l with Some (CObj _) => False | _ => True end
  | _ => True
  end ->
  hqdot g (Some v) s = None.
Proof.
  intros [Hlen Hidx] Hv. destruct v as [| | |str|l]; cbn [hqdot hprop]; try done.
  - by rewrite Hlen, Hidx.
  - destruct (g !! l) as [[items|props]|]; try done. by rewrite Hlen, Hidx.
Qed.

(** [delete] at the end of a path of property names, performed on a freshly
    allocated copy of the tree [t]: it changes no cell outside the copy, and
    the copy then reads as [t] without the key. *)
Lemma delete_in_clone (key : string) (path : list string) :
  Forall plain path ->
  forall (t : value) (h h' : gmap loc cell) (v : hval) (g : gmap loc cell),
    alloc t h = (h', v) -> has_new_cells h h' g ->
    section_ok (lookup_path (Some t) path) ->
    exists g2,
      delete_from g (fold_left (hqdot g) path (Some v)) key = Returns g2 /\
      (forall l, (h !! l = None -> h' !! l = None) -> g2 !! l = g !! l) /\
      (forall fuel, (depth t <= fuel)%nat ->
                    snapshot fuel g2 v = Some (without t path key)).
Proof.
  induction path as [|s rest IH]; intros Hplain t h h' v g Halloc Hg Hok.
  - (* the section itself *)
    cbn [fold_left lookup_path] in *.
    destruct t as [|b|n|str|items|fields]; try done;
      try (apply (delete_nothing key [] _ h h' v g); try done;
           simpl in Halloc; injection Halloc as <- <-;
           cbn [fold_left delete_from htruthy delete_property];
           by repeat match goal with |- context [if ?b then _ else _] => destruct b end).
    pose proof Halloc as Halloc'. simpl in Halloc.
    destruct (alloc_fields alloc fields h) as [h1 props] eqn:E.
    injection Halloc as <- <-.
    destruct (alloc_fields_spec fields (all_alloc_spec fields) _ _ _ E)
      as (Hext & Hprops & Hsnap).
    destruct (extends_apart_insert h h1 (CObj props) Hext Hprops) as [Hext' Hl].
    apply has_new_cells_insert in Hg as [Hg Hgl]; [|apply Hext].
    assert (Hfresh : h1 !! fresh (dom h1) = None) by (apply not_elem_of_dom, is_fresh).
    exists (<[fresh (dom h1) := CObj (remove_key key props)]> g).
    split; [cbn [delete_from htruthy delete_property]; by rewrite Hgl|].
    split.
    + intros l' Hl'. rewrite lookup_insert_ne; [done|]. intros <-.
      specialize (Hl' Hl). by rewrite lookup_insert_eq in Hl'.
    + intros [|fuel] Hfuel; [cbn [depth] in Hfuel; lia|].
      rewrite snapshot_ref, lookup_insert_eq. cbn [without].
      rewrite (option_all_remove_key fuel _ key props fields); [done|].
      apply Hsnap; [|cbn [depth] in Hfuel; lia].
      intros l' c Hl' Hc. rewrite lookup_insert_ne; [by apply Hg|].
      intros <-. congruence.
  - (* one step down *)
    apply Forall_cons in Hplain as [Hs Hplain]. cbn [fold_left].
    assert (Hstop : hqdot g (Some v) s = None -> without t (s :: rest) key = t ->
                    exists g2,
                      delete_from g (fold_left (hqdot g) rest (hqdot g (Some v) s)) key
                      = Returns g2 /\
                      (forall l, (h !! l = None -> h' !! l = None) -> g2 !! l = g !! l) /\
                      (forall fuel, (depth t <= fuel)%nat ->
                                    snapshot fuel g2 v = Some (without t (s :: rest) key))).
    { intros Hnone Hsame.
      apply (delete_nothing key (s :: rest) t h h' v g); try done.
      cbn [fold_left]. by rewrite Hnone, fold_hqdot_none. }
    destruct t as [|b|n|str|items|fields];
      try (apply Hstop; [|done]; simpl in Halloc; injection Halloc as <- <-;
           by apply plain_unread).
    + (* a sequence has no such property *)
      apply Hstop; [|done]. simpl in Halloc.
      destruct (alloc_items alloc items h) as [h1 slots] eqn:E.
      injection Halloc as <- <-.
      destruct (alloc_items_spec items) with (h := h) (h' := h1) (slots := slots)
        as (Hext & _ & _); [apply Forall_forall; intros; apply alloc_correct|done|].
      apply has_new_cells_insert in Hg as [Hg Hgl]; [|apply Hext].
      apply plain_unread; [done|]. by rewrite Hgl.
    + pose proof Halloc as Halloc'. simpl in Halloc.
      destruct (alloc_fields alloc fields h) as [h1 props] eqn:E.
      injection Halloc as <- <-.
      destruct (alloc_fields_spec fields (all_alloc_spec fields) _ _ _ E)
        as (Hext & Hprops & Hsnap).
      destruct (extends_apart_insert h h1 (CObj props) Hext Hprops) as [Hext' Hl].
      pose proof Hg as Hg'.
      apply has_new_cells_insert in Hg as [Hg Hgl]; [|apply Hext].
      assert (Hfresh : h1 !! fresh (dom h1) = None) by (apply not_elem_of_dom, is_fresh).
      assert (Hread : hqdot g (Some (HRef (fresh (dom h1)))) s = assoc s props)
        by (cbn [hqdot hprop]; by rewrite Hgl).
      pose proof (alloc_fields_split fields h h1 props s E) as Hsplit.
      destruct (assoc s props) as [vs|] eqn:Hvs.
      * destruct Hsplit as (fpre & ts & fpost & pre & post & ha & hb &
                            -> & -> & Hn & Hpre & Hts & Hpost).
        destruct (alloc_fields_spec fpre (all_alloc_spec fpre) _ _ _ Hpre)
          as ([Hs1 _] & _ & Hsnap1).
        destruct (alloc_correct ts _ _ _ Hts) as ([Hs2 _] & _ & _).
        destruct (alloc_fields_spec fpost (all_alloc_spec fpost) _ _ _ Hpost)
          as ([Hs3 _] & _ & Hsnap3).
        destruct (has_new_cells_split h ha h1 g) as [Hg1 Hg23];
          [done | by etrans | done |].
        destruct (has_new_cells_split ha hb h1 g) as [Hg2 Hg3]; [done..|].
        assert (Hok' : section_ok (lookup_path (Some ts) rest)).
        { cbn [lookup_path qdot prop] in Hok. by rewrite assoc_app_found in Hok. }
        destruct (IH Hplain ts ha hb vs g Hts Hg2 Hok') as (g2 & Hdel & Hframe & Hsnap2).
        exists g2. rewrite Hread. split; [exact Hdel|]. split.
        -- intros l' Hl'. apply Hframe. intros Ha.
           assert (Hh : h !! l' = None) by exact (lookup_weaken_None h ha l' Ha Hs1).
           specialize (Hl' Hh). apply lookup_insert_None in Hl' as [Hl' _].
           exact (lookup_weaken_None hb h1 l' Hl' Hs3).
        -- intros [|fuel] Hfuel; [cbn [depth] in Hfuel; lia|].
           cbn [depth] in Hfuel. rewrite depth_fields_app in Hfuel.
           cbn [depth_fields snd] in Hfuel.
           rewrite snapshot_ref.
           rewrite Hframe by (intros _; exact (lookup_weaken_None hb h1 _ Hfresh Hs3)).
           rewrite Hgl. cbn [without]. rewrite update_key_app by done.
           erewrite option_all_app; [done| |].
           ++ apply Hsnap1; [|lia]. by eapply has_new_cells_before.
           ++ cbn [option_all fst snd]. rewrite Hsnap2 by lia.
              rewrite Hsnap3; [done| |lia]. by eapply has_new_cells_after.
      * apply Hstop; [by rewrite Hread|]. cbn [without]. by rewrite update_key_none.
Qed.

Lemma apply_deletion_listed (h : gmap loc cell) (l : loc) (ty key : string)
    (path : list string) :
  In (toLowerCase ty, path) deletion_sections ->
  apply_deletion h (HRef l) ty key =
  Some (delete_from h (fold_left (hqdot h) path (Some (HRef l))) key).
Proof.
  intros Hin. unfold deletion_sections in Hin. simpl in Hin.
  unfold apply_deletion. cbv zeta.
  repeat destruct Hin as [[= <- <-]|Hin]; try done; reflexivity.
Qed.

Lemma deletion_paths_plain (entry : string * list string) :
  In entry deletion_sections -> Forall plain (snd entry).
Proof.
  intros Hin. unfold deletion_sections in Hin. simpl in Hin.
  repeat destruct Hin as [<-|Hin]; try done; repeat constructor.
Qed.

(** The deletion step of [validateDeletion], on the copy [alloc] has made
    of a document. *)
Lemma clone_deletion (h h1 : gmap loc cell) (c : hval) (ty key : string) (t : value)
    (path : list string) :
  alloc t h = (h1, c) ->
  document_shape t ->
  In (toLowerCase ty, path) deletion_sections ->
  exists h2,
    apply_deletion h1 c ty key = Some (Returns h2) /\
    h ⊆ h2 /\
    forall fuel, (depth t <= fuel)%nat -> snapshot fuel h2 c = Some (without t path key).
Proof.
  intros Halloc [[fields ->] Hshape] Hin.
  destruct (alloc_correct _ _ _ _ Halloc) as ([Hsub _] & _ & _).
  assert (exists l, c = HRef l) as [l ->].
  { simpl in Halloc. destruct (alloc_fields alloc fields h). injection Halloc as _ <-. eauto. }
  rewrite (apply_deletion_listed h1 l ty key path Hin).
  destruct (delete_in_clone key path (deletion_paths_plain _ Hin)
              (JObj fields) h h1 (HRef l) h1 Halloc)
    as (h2 & Hdel & Hframe & Hread).
  { by intros l' c' _ Hc'. }
  { apply (Hshape _ Hin). }
  rewrite Hdel. exists h2. split; [done|]. split; [|done].
  apply map_subseteq_spec. intros l' x Hx.
  rewrite Hframe by (intros Hn; congruence).
  by eapply lookup_weaken.
Qed.

(** X11: for a listed component type, the document [validateDeletion] hands
    to [validateConfig] is the input with the key removed from the mapping
    of that type's section and nothing else changed; the result of the call
    is [validateConfig]'s verdict on it.  If the section is absent or not a
    mapping, the document is validated as it is. *)
Theorem validateDeletion_validates_remainder
    (generateYAML : gmap loc cell -> hval -> outcome string)
    (yaml_load : string -> outcome unit)
    (fuel : nat) (h : gmap loc cell) (config : hval) (ty key : string) (t : value)
    (path : list string) :
  snapshot fuel h config = Some t ->
  document_shape t ->
  In (toLowerCase ty, path) deletion_sections ->
  exists h2 c,
    validateDeletion generateYAML yaml_load fuel h config ty key
    = Some (h2, validateConfig generateYAML yaml_load h2 c) /\
    h ⊆ h2 /\
    snapshot fuel h2 c = Some (without t path key).
Proof.
  intros Hsnap Hshape Hin.
  unfold validateDeletion. rewrite (deep_clone_alloc fuel h config _ Hsnap).
  destruct (alloc t h) as [h1 c] eqn:Halloc. cbn [fst snd].
  destruct (clone_deletion h h1 c ty key t path Halloc Hshape Hin)
    as (h2 & -> & Hsub & Hread).
  exists h2, c. split; [done|]. split; [done|].
  apply Hread. by eapply snapshot_depth.
Qed.

Lemma assoc_remove_key {X : Type} (k key : string) (fields : list (string * X)) :
  assoc k (remove_key key fields) = if String.eqb k key then None else assoc k fields.
Proof.
  induction fields as [|[k' v] fields IH]; cbn [remove_key assoc].
  - by destruct (String.eqb k key).
  - destruct (String.eqb_spec key k') as [<-|Hne].
    + rewrite IH. by destruct (String.eqb_spec k key).
    + cbn [assoc]. destruct (String.eqb_spec k k') as [->|_]; [|done].
      by destruct (String.eqb_spec k' key) as [->|_].
Qed.

Lemma assoc_update_key (s : string) (f : value -> value) (fields : list (string * value)) :
  assoc s (update_key s f fields) = f <$> assoc s fields.
Proof.
  induction fields as [|[k v] fields IH]; [done|]. cbn [update_key assoc].
  destruct (String.eqb_spec s k) as [->|Hne]; cbn [assoc].
  - by rewrite String.eqb_refl.
  - by destruct (String.eqb_spec s k).
Qed.

Lemma lookup_path_none (path : list string) : lookup_path None path = None.
Proof. induction path; [done|]. cbn [lookup_path qdot]. done. Qed.

Lemma plain_qdot (v : value) (s : string) :
  plain s -> (forall fields, v <> JObj fields) -> qdot (Some v) s = None.
Proof.
  intros [Hlen Hidx] Hv. destruct v as [| | |str|items|fields]; cbn [qdot prop]; try done.
  - by rewrite Hlen, Hidx.
  - by rewrite Hlen, Hidx.
  - by destruct (Hv fields).
Qed.

(** Reading below the section of a tree from which a key was removed. *)
Lemma without_lookup (key k : string) (path : list string) :
  Forall plain path ->
  forall t, section_ok (lookup_path (Some t) path) ->
            lookup_path (Some (without t path key)) (path ++ [k]) =
            if String.eqb k key then None else lookup_path (Some t) (path ++ [k]).
Proof.
  induction path as [|s rest IH]; intros Hplain t Hok.
  - cbn [lookup_path app] in *.
    destruct t as [| | |str|items|fields]; cbn [without qdot prop]; try done;
      try by destruct (String.eqb k key).
    apply assoc_remove_key.
  - apply Forall_cons in Hplain as [Hs Hplain]. cbn [app lookup_path] in *.
    destruct t as [| | |str|items|fields]; cbn [without];
      try (rewrite plain_qdot by done; rewrite lookup_path_none;
           by destruct (String.eqb k key)).
    cbn [qdot prop] in *. rewrite assoc_update_key.
    destruct (assoc s fields) as [ts|]; cbn [fmap option_fmap option_map].
    + by apply IH.
    + rewrite lookup_path_none. by destruct (String.eqb k key).
Qed.

(** X12: in the document [validateDeletion] validates, the component with
    the deleted key is gone from its section and every other component of
    that section is as it was in the input. *)
Theorem validateDeletion_removes_component
    (generateYAML : gmap loc cell -> hval -> outcome string)
    (yaml_load : string -> outcome unit)
    (fuel : nat) (h : gmap loc cell) (config : hval) (ty key : string) (t : value)
    (path : list string) :
  snapshot fuel h config = Some t ->
  document_shape t ->
  In (toLowerCase ty, path) deletion_sections ->
  exists h2 c t',
    validateDeletion generateYAML yaml_load fuel h config ty key
    = Some (h2, validateConfig generateYAML yaml_load h2 c) /\
    snapshot fuel h2 c = Some t' /\
    lookup_path (Some t') (path ++ [key]) = None /\
    forall k, k <> key ->
              lookup_path (Some t') (path ++ [k]) = lookup_path (Some t) (path ++ [k]).
Proof.
  intros Hsnap Hshape Hin.
  unfold validateDeletion. rewrite (deep_clone_alloc fuel h config _ Hsnap).
  destruct (alloc t h) as [h1 c] eqn:Halloc. cbn [fst snd].
  destruct (clone_deletion h h1 c ty key t path Halloc Hshape Hin)
    as (h2 & -> & _ & Hread).
  exists h2, c, (without t path key). split; [done|].
  split; [apply Hread; by eapply snapshot_depth|].
  assert (Hok : section_ok (lookup_path (Some t) path)) by apply (proj2 Hshape _ Hin).
  pose proof (deletion_paths_plain _ Hin) as Hplain. cbn [snd] in Hplain.
  split.
  - rewrite without_lookup by done. by rewrite String.eqb_refl.
  - intros k Hk. rewrite without_lookup by done.
    by destruct (String.eqb_spec k key).
Qed.

(** ** Outside the shape of a document *)

Lemma apply_deletion_null (h : gmap loc cell) (ty key : string) :
  In (toLowerCase ty) (map fst deletion_sections) ->
  apply_deletion h HNull ty key = Some (Throws TypeError).
Proof.
  intros Hin. unfold deletion_sections in Hin. simpl in Hin.
  unfold apply_deletion. cbv zeta.
  repeat destruct Hin as [<-|Hin]; try done; reflexivity.
Qed.

(** X19: outside that shape [validateDeletion] can raise.  For a listed
    component type it raises a [TypeError] when the document is [null], and
    when the section of the type is a sequence and the key to delete is
    [length]. *)
Theorem validateDeletion_raises
    (generateYAML : gmap loc cell -> hval -> outcome string)
    (yaml_load : string -> outcome unit)
    (fuel : nat) (h : gmap loc cell) (config : hval) (ty : string) (t : value)
    (path : list string) :
  snapshot fuel h config = Some t ->
  In (toLowerCase ty, path) deletion_sections ->
  (t = JNull ->
   forall key, exists h1,
     validateDeletion generateYAML yaml_load fuel h config ty key
     = Some (h1, Throws TypeError)) /\
  ((exists fields, t = JObj fields) ->
   (exists items, lookup_path (Some t) path = Some (JArr items)) ->
   exists h1,
     validateDeletion generateYAML yaml_load fuel h config ty "length"
     = Some (h1, Throws TypeError)).
Proof.
  intros Hsnap Hin. unfold validateDeletion.
  rewrite (deep_clone_alloc fuel h config _ Hsnap).
  destruct (alloc t h) as [h1 c] eqn:Halloc. cbn [fst snd]. split.
  - intros -> key. simpl in Halloc. injection Halloc as <- <-.
    rewrite apply_deletion_null; [by eexists|].
    apply (in_map fst) in Hin. exact Hin.
  - intros [fields ->] [items Hitems].
    destruct (alloc_correct _ _ _ _ Halloc) as (_ & _ & Hread).
    assert (exists l, c = HRef l) as [l ->].
    { simpl in Halloc. destruct (alloc_fields alloc fields h).
      injection Halloc as _ <-. eauto. }
    rewrite (apply_deletion_listed h1 l ty "length" path Hin).
    assert (Hr : reads h1 (Some (HRef l)) (Some (JObj fields))).
    { exists fuel. apply Hread; [by intros l' c' _ Hc'|by eapply snapshot_depth]. }
    apply (reads_path h1 path) in Hr. rewrite Hitems in Hr.
    destruct (fold_left (hqdot h1) path (Some (HRef l))) as [v|]; [|done].
    destruct Hr as [fuel' Hv].
    destruct v as [| | |s|l']; try (destruct fuel'; discriminate).
    destruct fuel' as [|fuel']; [done|]. rewrite snapshot_ref in Hv.
    destruct (h1 !! l') as [[slots|props]|] eqn:Hl; [| |done].
    + exists h1. cbn [delete_from htruthy delete_property]. by rewrite Hl.
    + by apply fmap_Some in Hv as (r & _ & [=]).
Qed.

(** * Deletion and the live document *)

(** X13: [safeDelete] leaves the live document alone.  Whatever
    [validateDeletion] answers, the document the configuration store holds
    reads afterwards as it did before; when the answer is a diagnostic the
    outcome is that of [showDeletionError] on that world, and when it is
    [null] the callback runs on that world and, if it returns, the outcome is
    that of [showDeletionSuccess]. *)
Theorem safeDelete_keeps_document
    (generateYAML : gmap loc cell -> hval -> outcome string)
    (yaml_load : string -> outcome unit)
    (now : nat -> Z) (rnd : nat -> string)
    (fuel : nat) (w : World) (ty key : string)
    (deleteAction : World -> World * outcome unit)
    (t : value) (h' : gmap loc cell) (error : option string) :
  snapshot fuel (objects w) (config w) = Some t ->
  validateDeletion generateYAML yaml_load fuel (objects w) (config w) ty key
  = Some (h', Returns error) ->
  let w1 := {| objects := h'; config := config w; notes := notes w |} in
  snapshot fuel (objects w1) (config w1) = Some t /\
  objects w ⊆ objects w1 /\
  match error with
  | Some diagnostic =>
      safeDelete generateYAML yaml_load now rnd fuel w ty key deleteAction
      = Some (showDeletionError now rnd ty key diagnostic w1, false, Returns false)
  | None =>
      forall w2 r, deleteAction w1 = (w2, Returns r) ->
        safeDelete generateYAML yaml_load now rnd fuel w ty key deleteAction
        = Some (showDeletionSuccess now rnd ty key w2, true, Returns true)
  end.
Proof.
  intros Hsnap Hval w1.
  destruct (validateDeletion_frame generateYAML yaml_load fuel (objects w) (config w)
              ty key t Hsnap) as (h2 & r & E & Hsub).
  rewrite Hval in E. injection E as <- <-.
  split; [by eapply snapshot_weaken|]. split; [done|].
  unfold safeDelete. rewrite Hval.
  rewrite (validateDeletion_diagnostic _ _ _ _ _ _ _ _ _ Hval).
  destruct error as [diagnostic|]; [done|].
  intros w2 r Hact. fold w1. by rewrite Hact.
Qed.

(** * The notification store *)

Lemma In_cancel (x y : string) (timers : list string) :
  x <> y -> In x timers -> In x (cancel y timers).
Proof.
  intros Hne. induction timers as [|t timers IH]; [done|]. cbn [cancel].
  destruct (String.eqb_spec t y) as [->|Hty].
  - intros [->|Hin]; [done|done].
  - intros [->|Hin]; [by left|right; by apply IH].
Qed.

(** X14: whatever sequence of calls and timer firings the notification
    store has gone through since it was created, every notification on
    display that is not an error still has its removal pending: only error
    notifications stay until they are dismissed. *)
Theorem only_errors_stay (now : nat -> Z) (rnd : nat -> string)
    (st : notificationStore.NotificationState) :
  store_reaches now rnd st ->
  forall n, In n (notificationStore.notifications st) ->
            notificationStore.type n <> "error" ->
            In (notificationStore.id n) (notificationStore.timers st).
Proof.
  induction 1 as [|st st' _ IH Hstep]; [done|].
  destruct Hstep as [ty message details st|id st|st|id st Hid];
    cbn [notificationStore.notifications notificationStore.timers
         notificationStore.addNotification removeNotification clearAll timer_fires];
    intros n Hn Hty.
  - apply in_app_or in Hn as [Hn|[<-|[]]].
    + specialize (IH n Hn Hty).
      destruct (String.eqb ty "error"); [done|]. apply in_or_app. by left.
    + cbn [notificationStore.type notificationStore.id] in *.
      destruct (String.eqb_spec ty "error") as [->|_]; [done|].
      apply in_or_app. right. by left.
  - apply list_elem_of_In, list_elem_of_filter in Hn as [_ Hn].
    apply IH; [by apply list_elem_of_In|done].
  - done.
  - apply list_elem_of_In, list_elem_of_filter in Hn as [Hne Hn].
    apply In_cancel; [done|]. apply IH; [by apply list_elem_of_In|done].
Qed.

(** X15: dismissing the notification that was just added gives back the
    notifications there were before, provided none of them carries the
    identifier the new one was given. *)
Theorem dismiss_after_add (now : nat -> Z) (rnd : nat -> string)
    (ty message : string) (details : option string)
    (st : notificationStore.NotificationState) :
  exists n,
    notificationStore.notifications
      (notificationStore.addNotification now rnd ty message details st)
    = (notificationStore.notifications st ++ [n])%list /\
    ((forall m, In m (notificationStore.notifications st) ->
                notificationStore.id m <> notificationStore.id n) ->
     notificationStore.notifications
       (removeNotification (notificationStore.id n)
          (notificationStore.addNotification now rnd ty message details st))
     = notificationStore.notifications st).
Proof.
  eexists. split; [reflexivity|]. intros Hfresh.
  cbn [notificationStore.notifications notificationStore.addNotification
       removeNotification notificationStore.id].
  rewrite filter_app. rewrite filter_cons_False by (intros H; by apply H).
  rewrite filter_nil, app_nil_r.
  induction (notificationStore.notifications st) as [|m l IH]; [done|].
  rewrite filter_cons_True by (apply Hfresh; by left).
  f_equal. apply IH. intros m' Hm'. apply Hfresh. by right.
Qed.

(** * One reference, one key *)

Lemma prefix_append (p s : string) : String.prefix p (p +:+ s) = true.
Proof.
  induction p as [|c p IH]; [by destruct s|]. cbn [String.append String.prefix].
  destruct (ascii_dec c c); [done|done].
Qed.

Lemma append_inj (p a b : string) : p +:+ a = p +:+ b -> a = b.
Proof. induction p as [|c p IH]; [done|]. intros [= H]. by apply IH. Qed.

(** X16: for keys that do not themselves begin with a marker, a string
    refers to at most one key: if [valueContainsRef] accepts the same value
    for two such keys, the keys are equal. *)
Theorem reference_names_one_key (v : option value) (k1 k2 : string) :
  marker_free k1 -> marker_free k2 ->
  valueContainsRef v k1 = true -> valueContainsRef v k2 = true -> k1 = k2.
Proof.
  intros [Hs1 Hr1] [Hs2 Hr2] H1 H2.
  destruct v as [[| | |s| |]|]; try done.
  apply contains_string_form in H1. apply contains_string_form in H2.
  assert (Hstar : forall k, String.prefix "*" ("*" +:+ k) = true)
    by (intros k; apply prefix_append).
  assert (Href : forall k, String.prefix "__REF__" ("__REF__" +:+ k) = true)
    by (intros k; apply prefix_append).
  destruct H1 as [[= ->]|[[= ->]|[= ->]]], H2 as [[= E]|[[= E]|[= E]]];
    try (by apply append_inj in E); try done;
    try (rewrite <- E in *; congruence);
    try (rewrite E in *; congruence).
  all: subst;
    match goal with
    | H : String.prefix ?p (String ?c ?s) = false |- _ =>
        assert (Hp : String.prefix p (String c s) = true)
          by (first [apply (prefix_append "*") | apply (prefix_append "__REF__")]);
        congruence
    end.
Qed.

(** * [safeDelete] does not raise *)

Lemma validateDeletion_returns
    (generateYAML : gmap loc cell -> hval -> outcome string)
    (yaml_load : string -> outcome unit)
    (fuel : nat) (h : gmap loc cell) (config : hval) (ty key : string) (t : value) :
  snapshot fuel h config = Some t -> document_shape t ->
  exists h' d,
    validateDeletion generateYAML yaml_load fuel h config ty key = Some (h', Returns d).
Proof.
  intros Hsnap Hshape.
  destruct (in_dec string_dec (toLowerCase ty) (map fst deletion_sections)) as [Hin|Hout].
  - apply in_map_iff in Hin as ([ty' path] & Hty & Hin). cbn [fst] in Hty. subst ty'.
    unfold validateDeletion. rewrite (deep_clone_alloc fuel h config _ Hsnap).
    destruct (alloc t h) as [h1 c] eqn:Halloc. cbn [fst snd].
    destruct (clone_deletion h h1 c ty key t path Halloc Hshape Hin) as (h2 & -> & _).
    destruct (validateConfig_returns generateYAML yaml_load h2 c) as (d & -> & _).
    eauto.
  - rewrite (validateDeletion_unlisted _ _ _ _ _ _ _ _ Hsnap Hout). eauto.
Qed.

(** X20: on a document of the data model's shape [safeDelete] returns a
    boolean and never raises, whatever the serializer, the parser and the
    callback do; and it returns [true] only if it has called the callback. *)
Theorem safeDelete_returns
    (generateYAML : gmap loc cell -> hval -> outcome string)
    (yaml_load : string -> outcome unit)
    (now : nat -> Z) (rnd : nat -> string)
    (fuel : nat) (w : World) (ty key : string)
    (deleteAction : World -> World * outcome unit) (t : value) :
  snapshot fuel (objects w) (config w) = Some t -> document_shape t ->
  exists w' called b,
    safeDelete generateYAML yaml_load now rnd fuel w ty key deleteAction
    = Some (w', called, Returns b) /\
    (b = true -> called = true).
Proof.
  intros Hsnap Hshape.
  destruct (validateDeletion_returns generateYAML yaml_load fuel (objects w) (config w)
              ty key t Hsnap Hshape) as (h' & d & E).
  unfold safeDelete. rewrite E.
  destruct (is_error d); [by eexists _, _, _|].
  destruct (deleteAction _) as [w2 [r|e]]; by eexists _, _, _.
Qed.

Lemma safeDelete_returns_witness :
  exists w' called b,
    safeDelete json_as_yaml missing_alias epoch constant_suffix 8 live_world
      "LLM" "gpt_a" failing_action
    = Some (w', called, Returns b) /\
    (b = true -> called = true).
Proof.
  apply (safeDelete_returns json_as_yaml missing_alias epoch constant_suffix 8 live_world
           "LLM" "gpt_a" failing_action two_llms).
  - vm_compute. reflexivity.
  - apply two_llms_shape.
Defined.

(** * [MemorySection]: the key of a database *)

Lemma strict_equal_true (a b : option hval) : strict_equal a b = true <-> a = b.
Proof.
  split.
  - destruct a as [[| | | |]|], b as [[| | | |]|]; cbn [strict_equal]; try done.
    + intros H. apply Bool.eqb_prop in H. by subst.
    + intros H. apply Z.eqb_eq in H. by subst.
    + intros H. apply String.eqb_eq in H. by subst.
    + intros H. apply Pos.eqb_eq in H. by subst.
  - intros <-. destruct a as [[| | | |]|]; cbn [strict_equal]; try done.
    + apply Bool.eqb_reflx.
    + apply Z.eqb_refl.
    + apply String.eqb_refl.
    + apply Pos.eqb_refl.
Qed.

Lemma same_field_outcome (h : gmap loc cell) (d cdb : hval) (fld : string) :
  cdb <> HNull ->
  same_field h d cdb fld =
  Returns (htruthy (hprop h d fld) && strict_equal (hprop h cdb fld) (hprop h d fld)).
Proof.
  intros Hc. unfold same_field.
  destruct (htruthy (hprop h d fld)); cbn [and_then andb]; [|done].
  by destruct cdb.
Qed.

Lemma same_field_true (h : gmap loc cell) (d cdb : hval) (fld : string) :
  same_field h d cdb fld = Returns true ->
  htruthy (hprop h d fld) = true /\ hprop h cdb fld = hprop h d fld.
Proof.
  unfold same_field. destruct (htruthy (hprop h d fld)); cbn [and_then]; [|done].
  assert (Hread : hdot h (Some cdb) fld = Throws TypeError \/
                  hdot h (Some cdb) fld = Returns (hprop h cdb fld))
    by (destruct cdb; auto).
  destruct Hread as [-> | ->]; cbn [mbind outcome_bind mret outcome_ret]; [done|].
  intros [= H]. by apply strict_equal_true in H.
Qed.

Lemma find_key_origin (h : gmap loc cell) (d : hval) (es : list (string * hval))
    (k : string) :
  for_of_break es (fun '(key, configuredDb) (found : string) =>
    by_instance ← same_field h d configuredDb "instance_name";
    if (by_instance : bool) then mret (Break key)
    else
      by_name ← same_field h d configuredDb "name";
      mret (if (by_name : bool) then Break key else Next found)) "" = Returns k ->
  k = "" \/
  exists cdb fld,
    In (k, cdb) es /\ In fld ["instance_name"; "name"] /\
    htruthy (hprop h d fld) = true /\ hprop h cdb fld = hprop h d fld.
Proof.
  induction es as [|[key cdb] es IH]; cbn [for_of_break].
  - intros [= <-]. by left.
  - destruct (same_field h d cdb "instance_name") as [[|]|e] eqn:E1;
      cbn [mbind outcome_bind mret outcome_ret]; [| |done].
    + intros [= <-]. right. exists cdb, "instance_name".
      apply same_field_true in E1 as [Ht Heq]. simpl. auto.
    + destruct (same_field h d cdb "name") as [[|]|e] eqn:E2;
        cbn [mbind outcome_bind mret outcome_ret]; [| |done].
      * intros [= <-]. right. exists cdb, "name".
        apply same_field_true in E2 as [Ht Heq]. simpl. auto.
      * intros H. destruct (IH H) as [->|(c & fld & Hin & Hrest)]; [by left|].
        right. exists c, fld. split; [by right|done].
Qed.

(** X17: [findDatabaseKey] answers the empty string for a value that is
    absent or falsy, and any other key it answers is the key of a configured
    database whose [instance_name] or whose [name] is that of the value
    (and is truthy there). *)
Theorem findDatabaseKey_sound (h : gmap loc cell) (configured db : option hval) :
  (htruthy db = false -> findDatabaseKey h configured db = Returns "") /\
  forall k, findDatabaseKey h configured db = Returns k -> k <> "" ->
    exists d databases cdb fld,
      db = Some d /\ configured = Some databases /\
      In (k, cdb) (hentries h databases) /\ In fld ["instance_name"; "name"] /\
      htruthy (hprop h d fld) = true /\ hprop h cdb fld = hprop h d fld.
Proof.
  split.
  - unfold findDatabaseKey. destruct db as [d|]; [|done]. by intros ->.
  - intros k. unfold findDatabaseKey. cbv zeta.
    destruct db as [d|]; [|by intros [= <-]].
    destruct (htruthy (Some d)); cbn [negb]; [|by intros [= <-]].
    intros H Hk. apply find_key_origin in H as [->|(cdb & fld & Hin & Hfld & Ht & Heq)];
      [done|].
    destruct configured as [v|]; [|done].
    destruct (htruthy (Some v)); [|done].
    by exists d, v, cdb, fld.
Qed.

(** X18: looking up a configured database gives back its key when instance
    names tell the databases apart: if the value carries a truthy
    [instance_name] that is the one configured under [k], no database under
    another key has that [instance_name] or, where the value has a truthy
    [name], that [name], and no configured database is [null], then
    [findDatabaseKey] answers [k]. *)
Theorem findDatabaseKey_round_trip (h : gmap loc cell) (databases d cdb : hval)
    (k : string) :
  htruthy (Some databases) = true ->
  In (k, cdb) (hentries h databases) ->
  htruthy (hprop h d "instance_name") = true ->
  hprop h cdb "instance_name" = hprop h d "instance_name" ->
  (forall k' c', In (k', c') (hentries h databases) ->
     c' <> HNull /\
     (k' <> k ->
      hprop h c' "instance_name" <> hprop h d "instance_name" /\
      (htruthy (hprop h d "name") = true -> hprop h c' "name" <> hprop h d "name"))) ->
  findDatabaseKey h (Some databases) (Some d) = Returns k.
Proof.
  intros Hdbs Hin Ht Heq Hothers. unfold findDatabaseKey. cbv zeta. rewrite Hdbs.
  assert (Hd : htruthy (Some d) = true).
  { by destruct d. }
  rewrite Hd. cbn [negb].
  induction (hentries h databases) as [|[k' c'] es IH]; [done|]. cbn [for_of_break].
  destruct (Hothers k' c' (or_introl eq_refl)) as [Hc Hne].
  rewrite !same_field_outcome by done. rewrite Ht. cbn [andb mbind outcome_bind].
  destruct (strict_equal (hprop h c' "instance_name") (hprop h d "instance_name"))
    eqn:E1.
  - cbn [mret outcome_ret]. f_equal. apply strict_equal_true in E1.
    destruct (String.eqb_spec k' k) as [->|Hk]; [done|]. by destruct (Hne Hk).
  - cbn [mret outcome_ret mbind outcome_bind].
    destruct Hin as [[= -> ->]|Hin].
    { apply strict_equal_true in Heq. congruence. }
    destruct (htruthy (hprop h d "name")) eqn:Hn; cbn [andb].
    + destruct (strict_equal (hprop h c' "name") (hprop h d "name")) eqn:E2.
      * f_equal. apply strict_equal_true in E2.
        destruct (String.eqb_spec k' k) as [->|Hk]; [done|].
        destruct (Hne Hk) as [_ Hname]. by destruct (Hname eq_refl).
      * apply IH; [done|]. intros k2 c2 H2. apply Hothers. by right.
    + apply IH; [done|]. intros k2 c2 H2. apply Hothers. by right.
Qed.

(** * The properties above, on the examples *)

Lemma two_llms_mapping : mapping_sections two_llms.
Proof.
  intros path Hin. unfold enumerated_sections, component_sections in Hin. simpl in Hin.
  repeat destruct Hin as [<-|Hin]; try destruct Hin; cbn; auto.
  apply NoDup_cons. split; [by intros []%elem_of_nil|apply NoDup_nil_2].
Qed.

Lemma findLlmDependencies_raises_witness :
  findLlmDependencies null_agent "gpt_a" = Throws TypeError.
Proof.
  apply (findLlmDependencies_raises null_agent "gpt_a").
  intros (_ & Hagents & _). cbn in Hagents.
  apply Forall_cons in Hagents as [H _]. by apply H.
Defined.

Lemma finders_report_references_witness :
  exists l, find K_Llm two_llms "gpt_a" = Returns l /\
            forall r, In r l -> modeled_reference two_llms "gpt_a" K_Llm (name r).
Proof.
  apply (finders_report_references two_llms "gpt_a" K_Llm).
  - apply two_llms_ready.
  - apply two_llms_mapping.
  - discriminate.
Defined.

Lemma merged_tool_ready : finder_ready merged_tool.
Proof.
  split; [done|].
  intros path Hin. unfold component_sections in Hin. simpl in Hin.
  repeat destruct Hin as [<-|Hin]; try destruct Hin; cbn; auto.
Qed.

Lemma findFunctionDependencies_merge_key_twice_witness :
  exists before path after,
    findFunctionDependencies merged_tool "find_order" =
    Returns (before ++
             [{| type := "tool"; name := "lookup"; field := "function (merge key)" |};
              {| type := "tool"; name := "lookup"; field := path |}] ++ after)%list.
Proof.
  apply (findFunctionDependencies_merge_key_twice merged_tool "find_order" "lookup"
           (JObj [("name", JStr "lookup");
                  ("function", JObj [("__MERGE__", JStr "find_order");
                                     ("type", JStr "unity_catalog")])])
           (JObj [("__MERGE__", JStr "find_order"); ("type", JStr "unity_catalog")])).
  - apply merged_tool_ready.
  - eexists. split; reflexivity.
  - reflexivity.
  - reflexivity.
Defined.

Lemma twice_listed_ready : finder_ready twice_listed.
Proof.
  split; [done|].
  intros path Hin. unfold component_sections in Hin. simpl in Hin.
  repeat destruct Hin as [<-|Hin]; try destruct Hin; cbn; auto.
Qed.

Lemma agent_lists_report_once_witness :
  exists ks,
    sublist ks ["helper"] /\
    find K_Tool twice_listed "search" =
    Returns (map (fun k => {| type := "agent"; name := k; field := "tools" |}) ks).
Proof.
  apply (agent_lists_report_once twice_listed "search" K_Tool "tools"
           [("helper", JObj [("tools", JArr [JStr "*search"; JStr "search"])])]).
  - apply twice_listed_ready.
  - unfold agent_list_sites. simpl. auto.
  - reflexivity.
Defined.

Lemma findAgentDependencies_once_witness :
  findAgentDependencies listed_agent "helper" =
  Returns [{| type := "app"; name := "agents"; field := "agents list" |}].
Proof.
  destruct (findAgentDependencies_once listed_agent "helper") as [[_ E]|[Hno _]];
    [done|exact E|].
  destruct Hno. exists [JStr "planner"; JObj [("name", JStr "helper")]].
  exists (JObj [("name", JStr "helper")]).
  split; [reflexivity|]. split; [right; by left|]. left. right. split; reflexivity.
Defined.

Lemma validateConfig_names_alias_witness :
  validateConfig fixed_yaml shouting_parser live_store live_root =
  Returns (Some ("This component is referenced by " +:+
                 String dquote ("gpt_a" +:+ String dquote ". Remove that reference first."))).
Proof.
  apply (validateConfig_names_alias fixed_yaml shouting_parser live_store live_root
           "line 1: " "UNDEFINED Alias " "gpt_a" " (1:8)").
  - reflexivity.
  - reflexivity.
  - discriminate.
  - reflexivity.
  - right. exists "model: *gpt_a". split; reflexivity.
Defined.

Lemma live_store_reads : snapshot 8 live_store live_root = Some two_llms.
Proof. vm_compute. reflexivity. Qed.

Lemma validateDeletion_validates_remainder_witness :
  exists h2 c,
    validateDeletion json_as_yaml accept_all 8 live_store live_root "Middleware" "audit"
    = Some (h2, validateConfig json_as_yaml accept_all h2 c) /\
    live_store ⊆ h2 /\
    snapshot 8 h2 c = Some (without two_llms ["middleware"] "audit").
Proof.
  apply (validateDeletion_validates_remainder json_as_yaml accept_all 8
           live_store live_root "Middleware" "audit" two_llms ["middleware"]).
  - apply live_store_reads.
  - apply two_llms_shape.
  - unfold deletion_sections. simpl. auto 20.
Defined.

Lemma validateDeletion_removes_component_witness :
  exists h2 c t',
    validateDeletion json_as_yaml accept_all 8 live_store live_root "LLM" "gpt_a"
    = Some (h2, validateConfig json_as_yaml accept_all h2 c) /\
    snapshot 8 h2 c = Some t' /\
    lookup_path (Some t') (["resources"; "llms"] ++ ["gpt_a"]) = None /\
    forall k, k <> "gpt_a" ->
              lookup_path (Some t') (["resources"; "llms"] ++ [k]) =
              lookup_path (Some two_llms) (["resources"; "llms"] ++ [k]).
Proof.
  apply (validateDeletion_removes_component json_as_yaml accept_all 8
           live_store live_root "LLM" "gpt_a" two_llms ["resources"; "llms"]).
  - apply live_store_reads.
  - apply two_llms_shape.
  - unfold deletion_sections. simpl. auto 20.
Defined.

Lemma validateDeletion_raises_witness :
  exists h1,
    validateDeletion json_as_yaml accept_all 1 ∅ HNull "Tool" "search"
    = Some (h1, Throws TypeError).
Proof.
  refine (proj1 (validateDeletion_raises json_as_yaml accept_all 1 ∅ HNull "Tool"
                   JNull ["tools"] _ _) eq_refl "search").
  - reflexivity.
  - unfold deletion_sections. simpl. auto 20.
Defined.

Lemma safeDelete_keeps_document_witness :
  snapshot 8
    (store_after (validateDeletion json_as_yaml missing_alias 8
                    live_store live_root "LLM" "gpt_a")) live_root = Some two_llms.
Proof.
  apply (safeDelete_keeps_document json_as_yaml missing_alias epoch constant_suffix 8
           live_world "LLM" "gpt_a" no_action two_llms
           (store_after (validateDeletion json_as_yaml missing_alias 8
                           live_store live_root "LLM" "gpt_a"))
           (Some ("This component is referenced by " +:+
                  String dquote ("gpt_a" +:+
                  String dquote ". Remove that reference first.")))).
  - apply live_store_reads.
  - vm_compute. reflexivity.
Defined.

Lemma only_errors_stay_witness :
  In "0-k3x9q2m1z" (notificationStore.timers one_saved).
Proof.
  apply (only_errors_stay epoch constant_suffix one_saved
           (eq_ind_r (fun st => store_reaches epoch constant_suffix st)
              (reach_step epoch constant_suffix _ _ (reach_initial _ _)
                 (step_add epoch constant_suffix "success" "Saved" None no_notifications))
              eq_refl)
           {| notificationStore.id := "0-k3x9q2m1z";
              notificationStore.type := "success";
              notificationStore.message := "Saved";
              notificationStore.details := None;
              notificationStore.timestamp := 2 |}).
  - left. reflexivity.
  - discriminate.
Defined.

Lemma reference_names_one_key_witness : "gpt_a" = "gpt_a".
Proof.
  apply (reference_names_one_key (Some (JStr "*gpt_a")) "gpt_a" "gpt_a");
    first [split; reflexivity | reflexivity].
Defined.

Lemma findDatabaseKey_round_trip_witness :
  findDatabaseKey two_databases (Some two_databases_root) (Some replica_db)
  = Returns "replica".
Proof.
  apply (findDatabaseKey_round_trip two_databases two_databases_root
           replica_db replica_db "replica").
  - reflexivity.
  - vm_compute. right. left. reflexivity.
  - vm_compute. reflexivity.
  - reflexivity.
  - intros k' c' Hin. vm_compute in Hin.
    destruct Hin as [[= <- <-]|[[= <- <-]|[]]].
    + split; [discriminate|]. intros _. split; [vm_compute; discriminate|].
      intros _. vm_compute. discriminate.
    + split; [discriminate|]. intros Hk. by destruct Hk.
Defined.
(** * References, the finders and the validator *)






